(** * GraphBLAS storage engine: conform policy, vector slicer, generated
      kernels and the MATLAB-side option helpers.

    Shallow embedding of
      - Source/Generated/GB_AxB__max_rminus_int64.c  (module [max_rminus_int64])
      - GraphBLAS/private/util/gb_mxstring_to_format.c (module [mxformat])
      - GraphBLAS/@GrB/private/mexfunctions/gbburble.c (module [gbburble])
      - Source/GB_conform.c                          (module [Conform])
      - Source/GB_slice_vector.c                     (module [Slice])
    followed by the properties proved about them.

    Conventions.  An [int64_t] is a [Z], and every arithmetic operation
    on it goes through [Int64.wrap]; a [double] is a primitive binary64
    float; a function that mutates the matrix [A] and returns a
    [GrB_Info] returns the pair of the info and the matrix it leaves; a
    [while] loop is a fixpoint on a fuel argument that bounds the number
    of iterations and returns [None] when the fuel does not suffice.
    Parts of the library that the five files use but do not define are
    either parameters (the converters called by GB_conform, the MATLAB
    array functions) or definitions whose comment starts with
    "Modelled from the spec". *)

From Stdlib Require Import ZArith QArith List Bool Lia String Ascii.
From Stdlib Require Import Permutation.
From Stdlib Require Import Floats.PrimFloat Numbers.Cyclic.Int63.Uint63.
Import ListNotations.

Local Open Scope Z_scope.

(* ================================================================== *)
(** ** Machine integers and doubles *)
(* ================================================================== *)

Module Int64.

Definition INT64_MIN : Z := - 2 ^ 63.
Definition INT64_MAX : Z := 2 ^ 63 - 1.

(** The value an [int64_t] holds after an operation whose exact result
    is [z]: two's complement wrap-around. *)
Definition wrap (z : Z) : Z := (z + 2 ^ 63) mod 2 ^ 64 - 2 ^ 63.

Definition in_range (z : Z) : Prop := INT64_MIN <= z <= INT64_MAX.

Definition add (a b : Z) : Z := wrap (a + b).
Definition sub (a b : Z) : Z := wrap (a - b).

(** C division truncates toward zero. *)
Definition div (a b : Z) : Z := wrap (Z.quot a b).

End Int64.

Module Double.

(** Conversion of an [int64_t] to [double] (binary64), rounding to
    nearest; the magnitude of every [int64_t] but [INT64_MIN] fits the
    63-bit unsigned integers the primitive conversion takes. *)
Definition of_int64 (z : Z) : float :=
  if z =? Int64.INT64_MIN then (-0x1p+63)%float
  else if z <? 0
       then PrimFloat.opp (PrimFloat.of_uint63 (Uint63.of_Z (- z)))
       else PrimFloat.of_uint63 (Uint63.of_Z z).

(** The literals [0.9999] and [1.0001] as the compiler reads them: the
    nearest binary64 values. *)
Definition c0_9999 : float := 0x1.fff2e48e8a71ep-1%float.
Definition c1_0001 : float := 0x1.00068db8bac71p+0%float.

(** [(bool) d] for a double [d]: true unless [d] compares equal to zero. *)
Definition to_bool (d : float) : bool := negb (PrimFloat.eqb d 0%float).

(** [(double) b] for a bool [b]. *)
Definition of_bool (b : bool) : float := if b then 1%float else 0%float.

End Double.

(** Modelled from the spec: the declaration of [GrB_Info] is not under
    src/; the spec (section 7) gives the closed set of result kinds. *)
Inductive GrB_Info : Type :=
| GrB_SUCCESS
| GrB_BAD_INPUT
| GrB_DIMENSION_MISMATCH
| GrB_OUT_OF_MEMORY
| GrB_INVARIANT_VIOLATION.

Definition GrB_Info_eqb (a b : GrB_Info) : bool :=
  match a, b with
  | GrB_SUCCESS, GrB_SUCCESS
  | GrB_BAD_INPUT, GrB_BAD_INPUT
  | GrB_DIMENSION_MISMATCH, GrB_DIMENSION_MISMATCH
  | GrB_OUT_OF_MEMORY, GrB_OUT_OF_MEMORY
  | GrB_INVARIANT_VIOLATION, GrB_INVARIANT_VIOLATION => true
  | _, _ => false
  end.

(* ================================================================== *)
(** ** Generated kernel: the (max, rminus) semiring over int64 *)
(* ================================================================== *)

Module max_rminus_int64.

Import Int64.

(** Modelled from the spec: the macro [GB_IMAX] of GB.h is not under
    src/; it is the maximum of two integers (the "max" monoid). *)
Definition GB_IMAX (x y : Z) : Z := if x >? y then x else y.

(** [#define GB_MULT(z, x, y) z = y - x ;] on [int64_t] operands. *)
Definition GB_MULT (x y : Z) : Z := sub y x.

(** [#define GB_MULTADD(z, x, y) z = GB_IMAX (z,(y - x)) ;] *)
Definition GB_MULTADD (z x y : Z) : Z := GB_IMAX z (sub y x).

(** [#define GB_IDENTITY INT64_MIN] *)
Definition GB_IDENTITY : Z := INT64_MIN.

(** [#define GB_DOT_TERMINAL(cij) if (cij == INT64_MAX) break ;]
    The function tells whether the [break] is taken. *)
Definition GB_DOT_TERMINAL (cij : Z) : bool := cij =? INT64_MAX.

(** Modelled from the spec: the dot-product template
    (GB_AxB_dot_meta.c) is not under src/.  A reduction along [k] over
    the matched pairs [(aki, bkj)]: the first product is stored with
    [GB_MULT], the later ones are folded in with [GB_MULTADD], and after
    each step [GB_DOT_TERMINAL] may leave the loop.  The state is the
    accumulator, [None] while no product has been seen. *)
Definition dot_step (cij : option Z) (ab : Z * Z) : Z :=
  match cij with
  | None => GB_MULT (fst ab) (snd ab)
  | Some c => GB_MULTADD c (fst ab) (snd ab)
  end.

Fixpoint dot_reduce (cij : option Z) (l : list (Z * Z)) : option Z :=
  match l with
  | [] => cij
  | ab :: l' =>
      let c := dot_step cij ab in
      if GB_DOT_TERMINAL c then Some c else dot_reduce (Some c) l'
  end.

(** The same reduction without the terminal test. *)
Fixpoint dot_reduce_all (cij : option Z) (l : list (Z * Z)) : option Z :=
  match l with
  | [] => cij
  | ab :: l' => dot_reduce_all (Some (dot_step cij ab)) l'
  end.

(** Number of pairs visited by [dot_reduce]. *)
Fixpoint dot_visited (cij : option Z) (l : list (Z * Z)) : nat :=
  match l with
  | [] => O
  | ab :: l' =>
      let c := dot_step cij ab in
      if GB_DOT_TERMINAL c then 1%nat else S (dot_visited (Some c) l')
  end.

End max_rminus_int64.

(* ================================================================== *)
(** ** gb_mxstring_to_format *)
(* ================================================================== *)

Module mxformat.

Inductive GxB_Format_Value : Type := GxB_BY_ROW | GxB_BY_COL.

(** Result of a mexFunction helper: a value, or the message passed to
    [ERROR], which leaves the function through the MATLAB error
    handler and returns nothing. *)
Inductive mex_result (X : Type) : Type :=
| Returns (x : X)
| ERROR (message : string).
Arguments Returns {X} x.
Arguments ERROR {X} message.

(** Modelled from the spec: the macro [MATCH] of gb_matlab.h is not
    under src/; the spec parses the identifiers by equality of strings. *)
Definition MATCH (s t : string) : bool := String.eqb s t.

(** Modelled from the spec: the helper [gb_mxstring_to_string] is not
    under src/; it delivers the characters of the MATLAB string in
    [format_string]. *)
Definition gb_mxstring_to_string (mxformat : string) : string := mxformat.

Definition gb_mxstring_to_format (mxformat : string)
  : mex_result GxB_Format_Value :=
  let format_string := gb_mxstring_to_string mxformat in
  if MATCH format_string "by row" then Returns GxB_BY_ROW
  else if MATCH format_string "by col" then Returns GxB_BY_COL
  else ERROR "unknown format".

End mxformat.

(* ================================================================== *)
(** ** gbburble *)
(* ================================================================== *)

Module gbburble.

(** The process-wide state the function acts on. *)
Record GB_Global : Type := { burble : bool }.

(** Outcome of the mexFunction: normal return with [pargout [0]] and the
    global state, or an error raised through the MATLAB error handler,
    with the global state left as it was when the error was raised. *)
Inductive outcome : Type :=
| Done (pargout0 : float) (g : GB_Global)
| Raised (message : string) (g : GB_Global).

(** Modelled from the spec: [GxB_Global_Option_set] and
    [GxB_Global_Option_get] are not under src/; the burble is a
    process-wide boolean, readable and writable. *)
Definition GxB_Global_Option_set_BURBLE (b : bool) (g : GB_Global)
  : GrB_Info * GB_Global := (GrB_SUCCESS, {| burble := b |}).

Definition GxB_Global_Option_get_BURBLE (g : GB_Global)
  : GrB_Info * bool := (GrB_SUCCESS, burble g).

Section mexFunction.

(** The MATLAB array type and the two functions that inspect it are
    external to the sources at hand. *)
Variable mxArray : Type.
Variable gb_mxarray_is_scalar : mxArray -> bool.
Variable mxGetScalar : mxArray -> float.

Definition usage : string := "usage: b = GrB.burble ; or GrB.burble (b)".

(** After the optional set: read the burble back and return it
    ([GB_WRAPUP] does not touch the burble). *)
Definition return_the_burble (g : GB_Global) : outcome :=
  let '(info, b) := GxB_Global_Option_get_BURBLE g in
  if GrB_Info_eqb info GrB_SUCCESS
  then Done (Double.of_bool b) g
  else Raised "GrB:error" g.

(** [gb_usage], [CHECK_ERROR] and [OK] (gb_matlab.h, not under src/)
    raise their message as a MATLAB error when their test fails. *)
Definition mexFunction (nargout : Z) (pargin : list mxArray)
           (g : GB_Global) : outcome :=
  let nargin := Z.of_nat (List.length pargin) in
  (* gb_usage (nargin <= 1 && nargout <= 1, ...) *)
  if negb ((nargin <=? 1) && (nargout <=? 1)) then Raised usage g
  else
    match pargin with
    | pargin0 :: _ =>
        (* nargin > 0: set the burble *)
        if negb (gb_mxarray_is_scalar pargin0)
        then Raised "input must be a scalar" g
        else
          let b := Double.to_bool (mxGetScalar pargin0) in
          let '(info, g') := GxB_Global_Option_set_BURBLE b g in
          if GrB_Info_eqb info GrB_SUCCESS
          then return_the_burble g'
          else Raised "GrB:error" g'
    | [] => return_the_burble g
    end.

End mexFunction.

End gbburble.

(* ================================================================== *)
(** ** GB_conform *)
(* ================================================================== *)

Module Conform.

(** *** The matrix *)

(** Modelled from the spec: the sparsity-control bits of GraphBLAS.h
    (not under src/): HYPER=1, SPARSE=2, BITMAP=4, FULL=8, AUTO = all. *)
Definition GxB_HYPERSPARSE : Z := 1.
Definition GxB_SPARSE : Z := 2.
Definition GxB_BITMAP : Z := 4.
Definition GxB_FULL : Z := 8.
Definition GxB_AUTO_SPARSITY : Z := 15.

(** The four storage formats.  In the C code the format is read off the
    presence of the arrays [h], [p], [b] and [i]; a matrix is in exactly
    one of them. *)
Inductive GB_format : Type := Hypersparse | Sparse | Bitmap | Full.

Definition GB_format_eqb (f g : GB_format) : bool :=
  match f, g with
  | Hypersparse, Hypersparse | Sparse, Sparse
  | Bitmap, Bitmap | Full, Full => true
  | _, _ => false
  end.

(** The sparsity-control bit of a format. *)
Definition GB_format_bit (f : GB_format) : Z :=
  match f with
  | Hypersparse => GxB_HYPERSPARSE
  | Sparse => GxB_SPARSE
  | Bitmap => GxB_BITMAP
  | Full => GxB_FULL
  end.

(** A stored tuple [(i, j, x)]: row index within the vector, vector
    index, value. *)
Definition tuple : Type := Z * Z * Z.
Definition row (t : tuple) : Z := fst (fst t).
Definition col (t : tuple) : Z := snd (fst t).

(** A zombie keeps its row index negated: the stored index is negative. *)
Definition GB_IS_ZOMBIE (t : tuple) : bool := row t <? 0.

(** Modelled from the spec: the matrix object of GB.h (not under src/),
    at the level of section 3 of the spec: dimensions, policy, the
    format, the stored tuples in storage order (zombies included), and
    the pending work. *)
Record GrB_Matrix : Type := mkMatrix {
  vlen : Z;
  vdim : Z;
  sparsity : Z;
  bitmap_switch : Q;
  hyper_switch : Q;
  format : GB_format;
  entries : list tuple;
  jumbled : bool;
  Pending : list tuple
}.

(** Modelled from the spec: the format tests of GB.h are not under
    src/; the matrix is in exactly one of the four formats. *)
Definition GB_IS_HYPERSPARSE (A : GrB_Matrix) : bool :=
  GB_format_eqb (format A) Hypersparse.
Definition GB_IS_SPARSE (A : GrB_Matrix) : bool :=
  GB_format_eqb (format A) Sparse.
Definition GB_IS_BITMAP (A : GrB_Matrix) : bool :=
  GB_format_eqb (format A) Bitmap.
Definition GB_IS_FULL (A : GrB_Matrix) : bool :=
  GB_format_eqb (format A) Full.

(** Modelled from the spec: the pending-work tests of GB.h are not
    under src/; zombies are counted in [nzombies], pending tuples in
    [n_pending], and [jumbled] is a flag. *)
Definition nzombies (A : GrB_Matrix) : Z :=
  Z.of_nat (List.length (filter GB_IS_ZOMBIE (entries A))).
Definition n_pending (A : GrB_Matrix) : Z :=
  Z.of_nat (List.length (Pending A)).

Definition GB_ZOMBIES (A : GrB_Matrix) : bool := 0 <? nzombies A.
Definition GB_JUMBLED (A : GrB_Matrix) : bool := jumbled A.
Definition GB_PENDING (A : GrB_Matrix) : bool := 0 <? n_pending A.

(** Modelled from the spec: [GB_NNZ] of GB.h is not under src/.  The
    number of entries held: every cell for a full matrix, the stored
    tuples (zombies included, pending tuples not) otherwise. *)
Definition GB_NNZ (A : GrB_Matrix) : Z :=
  match format A with
  | Full => vlen A * vdim A
  | _ => Z.of_nat (List.length (entries A))
  end.

(** Modelled from the spec: [GB_is_dense] is not under src/; a matrix
    is dense when it is full or [nnz = vlen * vdim]. *)
Definition GB_is_dense (A : GrB_Matrix) : bool :=
  GB_IS_FULL A || (GB_NNZ A =? vlen A * vdim A).

(** The live entries: stored tuples that are not zombies, and the
    pending tuples.  Compared as multisets ([Permutation]). *)
Definition live (A : GrB_Matrix) : list tuple :=
  filter (fun t => negb (GB_IS_ZOMBIE t)) (entries A) ++ Pending A.

(** The matrix invariants of section 3 of the spec that do not depend
    on the order of storage (what [ASSERT_MATRIX_OK] checks, at this
    level): indices in range, a bitmap or full matrix has no pending
    work, a full matrix holds every cell, the switches lie in (0, 1]. *)
Definition stored_ok (A : GrB_Matrix) (t : tuple) : Prop :=
  - vlen A <= row t < vlen A /\ 0 <= col t < vdim A.
Definition pending_ok (A : GrB_Matrix) (t : tuple) : Prop :=
  0 <= row t < vlen A /\ 0 <= col t < vdim A.

Record GB_matrix_ok (A : GrB_Matrix) : Prop := {
  ok_vlen : 0 <= vlen A;
  ok_vdim : 0 <= vdim A;
  ok_bitmap_switch : (0 < bitmap_switch A /\ bitmap_switch A <= 1)%Q;
  ok_hyper_switch : (0 < hyper_switch A /\ hyper_switch A <= 1)%Q;
  ok_entries : Forall (stored_ok A) (entries A);
  ok_pending : Forall (pending_ok A) (Pending A);
  ok_clean : format A = Bitmap \/ format A = Full ->
             nzombies A = 0 /\ jumbled A = false /\ Pending A = [];
  ok_full : format A = Full ->
            Z.of_nat (List.length (entries A)) = vlen A * vdim A
}.

(** The two index conditions as tests. *)
Definition stored_okb (A : GrB_Matrix) (t : tuple) : bool :=
  (- vlen A <=? row t) && (row t <? vlen A) &&
  (0 <=? col t) && (col t <? vdim A).

Definition pending_okb (A : GrB_Matrix) (t : tuple) : bool :=
  (0 <=? row t) && (row t <? vlen A) &&
  (0 <=? col t) && (col t <? vdim A).

(** *** Density tests *)

Definition Qlt_bool (x y : Q) : bool := negb (Qle_bool y x).

(** Modelled from the spec: the four tests are not under src/.
    By section 4.2, sparse-to-bitmap is [nnz >= bitmap_switch*vlen*vdim]
    and bitmap-to-sparse is [nnz < bitmap_switch*vlen*vdim]. *)
Definition GB_convert_sparse_to_bitmap_test
           (bitmap_switch : Q) (anz vlen vdim : Z) : bool :=
  Qle_bool (bitmap_switch * inject_Z (vlen * vdim)) (inject_Z anz).

Definition GB_convert_bitmap_to_sparse_test
           (bitmap_switch : Q) (anz vlen vdim : Z) : bool :=
  Qlt_bool (inject_Z anz) (bitmap_switch * inject_Z (vlen * vdim)).

(** Modelled from the spec: hyper-to-sparse is
    [nvec >= hyper_switch*vdim], sparse-to-hyper is
    [nvec < hyper_switch*vdim]. *)
Definition GB_convert_hyper_to_sparse_test
           (hyper_switch : Q) (k vdim : Z) : bool :=
  Qle_bool (hyper_switch * inject_Z vdim) (inject_Z k).

Definition GB_convert_sparse_to_hyper_test
           (hyper_switch : Q) (k vdim : Z) : bool :=
  Qlt_bool (inject_Z k) (hyper_switch * inject_Z vdim).

(** *** The converters GB_conform calls *)

Definition GB_result : Type := GrB_Info * GrB_Matrix.

(** The converters are defined in other files of the library; GB_conform
    is written against this interface.  Each one mutates [A] and returns
    a [GrB_Info]; here it returns the info and the matrix it leaves. *)
Class GB_converters (GB_Context : Type) : Type := {
  GB_convert_any_to_hyper : GrB_Matrix -> GB_Context -> GB_result;
  GB_convert_any_to_sparse : GrB_Matrix -> GB_Context -> GB_result;
  GB_convert_any_to_bitmap : GrB_Matrix -> GB_Context -> GB_result;
  GB_convert_bitmap_to_sparse : GrB_Matrix -> GB_Context -> GB_result;
  GB_conform_hyper : GrB_Matrix -> GB_Context -> GB_result;
  GB_convert_any_to_full : GrB_Matrix -> GrB_Matrix;
  GB_phbix_free : GrB_Matrix -> GrB_Matrix
}.

Section GB_conform.

Context {GB_Context : Type} {cv : GB_converters GB_Context}.

(** Modelled from the spec: the macro [GB_OK] of GB.h is not under
    src/; a failure is returned at once, with the matrix reset.
    [GB_OK (method)]: run the method; if it does not return
    [GrB_SUCCESS], free the content of [A] ([GB_FREE_ALL] is
    [GB_phbix_free (A)] in this file) and return its info. *)
Definition GB_OK (r : GB_result) (k : GrB_Matrix -> GB_result)
  : GB_result :=
  let '(info, A) := r in
  match info with
  | GrB_SUCCESS => k A
  | _ => (info, GB_phbix_free A)
  end.

Notation "'GB_OK' ( m ) ;; A => k" := (GB_OK m (fun A => k))
  (at level 10, m at level 200, A name, k at level 200).

Definition return_SUCCESS (A : GrB_Matrix) : GB_result := (GrB_SUCCESS, A).

Definition GB_hyper_or_bitmap (is_hyper is_sparse is_bitmap is_full : bool)
           (A : GrB_Matrix) (Context : GB_Context) : GB_result :=
  if is_full || ((is_hyper || is_sparse) &&
       GB_convert_sparse_to_bitmap_test (bitmap_switch A)
         (GB_NNZ A) (vlen A) (vdim A))
  then
    (* if full or sparse/hypersparse with many entries: to bitmap *)
    GB_OK (GB_convert_any_to_bitmap A Context) ;; A =>
    return_SUCCESS A
  else if is_sparse || (is_bitmap &&
       GB_convert_bitmap_to_sparse_test (bitmap_switch A)
         (GB_NNZ A) (vlen A) (vdim A))
  then
    (* if sparse or bitmap with few entries: to hypersparse *)
    GB_OK (GB_convert_any_to_hyper A Context) ;; A =>
    return_SUCCESS A
  else return_SUCCESS A.

Definition GB_sparse_or_bitmap (is_hyper is_sparse is_bitmap is_full : bool)
           (A : GrB_Matrix) (Context : GB_Context) : GB_result :=
  if is_full || ((is_hyper || is_sparse) &&
       GB_convert_sparse_to_bitmap_test (bitmap_switch A)
         (GB_NNZ A) (vlen A) (vdim A))
  then
    (* if full or sparse/hypersparse with many entries: to bitmap *)
    GB_OK (GB_convert_any_to_bitmap A Context) ;; A =>
    return_SUCCESS A
  else if is_hyper || (is_bitmap &&
       GB_convert_bitmap_to_sparse_test (bitmap_switch A)
         (GB_NNZ A) (vlen A) (vdim A))
  then
    (* if hypersparse or bitmap with few entries: to sparse *)
    GB_OK (GB_convert_any_to_sparse A Context) ;; A =>
    return_SUCCESS A
  else return_SUCCESS A.

Definition GB_hyper_sparse_or_bitmap
           (is_hyper is_sparse is_bitmap is_full : bool)
           (A : GrB_Matrix) (Context : GB_Context) : GB_result :=
  if is_full || ((is_hyper || is_sparse) &&
       GB_convert_sparse_to_bitmap_test (bitmap_switch A)
         (GB_NNZ A) (vlen A) (vdim A))
  then
    (* if full or sparse/hypersparse with many entries: to bitmap *)
    GB_OK (GB_convert_any_to_bitmap A Context) ;; A =>
    return_SUCCESS A
  else if is_bitmap then
    if GB_convert_bitmap_to_sparse_test (bitmap_switch A)
         (GB_NNZ A) (vlen A) (vdim A)
    then
      (* if bitmap with few entries: to sparse *)
      GB_OK (GB_convert_bitmap_to_sparse A Context) ;; A =>
      (* conform between sparse and hypersparse *)
      GB_OK (GB_conform_hyper A Context) ;; A =>
      return_SUCCESS A
    else return_SUCCESS A
  else
    (* is_hyper || is_sparse: conform between sparse and hypersparse *)
    GB_OK (GB_conform_hyper A Context) ;; A =>
    return_SUCCESS A.

Definition is_full_or_dense_with_no_pending_work (A : GrB_Matrix) : bool :=
  GB_IS_FULL A || (GB_is_dense A
    && negb (GB_ZOMBIES A) && negb (GB_JUMBLED A) && negb (GB_PENDING A)).

(** The last arm of the switch, [case GxB_AUTO_SPARSITY : default :]. *)
Definition GB_conform_default (A : GrB_Matrix) (Context : GB_Context)
  : GB_result :=
  let is_hyper := GB_IS_HYPERSPARSE A in
  let is_sparse := GB_IS_SPARSE A in
  let is_full := GB_IS_FULL A in
  let is_bitmap := GB_IS_BITMAP A in
  if is_full_or_dense_with_no_pending_work A
  then
    (* if full or all entries present: to full *)
    return_SUCCESS (GB_convert_any_to_full A)
  else
    (* ensure the matrix is hypersparse, sparse, or bitmap *)
    GB_OK (GB_hyper_sparse_or_bitmap is_hyper is_sparse
             is_bitmap is_full A Context) ;; A =>
    return_SUCCESS A.

Definition GB_conform (A : GrB_Matrix) (Context : GB_Context) : GB_result :=
  let is_hyper := GB_IS_HYPERSPARSE A in
  let is_sparse := GB_IS_SPARSE A in
  let is_full := GB_IS_FULL A in
  let is_bitmap := GB_IS_BITMAP A in
  let is_full_or_dense_with_no_pending_work :=
    is_full_or_dense_with_no_pending_work A in
  let s := sparsity A in
  if s =? GxB_HYPERSPARSE then
    (* (1) always hypersparse *)
    GB_OK (GB_convert_any_to_hyper A Context) ;; A =>
    return_SUCCESS A
  else if s =? GxB_SPARSE then
    (* (2) always sparse *)
    GB_OK (GB_convert_any_to_sparse A Context) ;; A =>
    return_SUCCESS A
  else if s =? GxB_HYPERSPARSE + GxB_SPARSE then
    (* (3) sparse or hypersparse *)
    GB_OK (if is_full || is_bitmap
           then GB_convert_any_to_sparse A Context
           else return_SUCCESS A) ;; A =>
    GB_OK (GB_conform_hyper A Context) ;; A =>
    return_SUCCESS A
  else if s =? GxB_BITMAP then
    (* (4) always bitmap *)
    GB_OK (GB_convert_any_to_bitmap A Context) ;; A =>
    return_SUCCESS A
  else if s =? GxB_HYPERSPARSE + GxB_BITMAP then
    (* (5) hypersparse or bitmap *)
    GB_OK (GB_hyper_or_bitmap is_hyper is_sparse is_bitmap
             is_full A Context) ;; A =>
    return_SUCCESS A
  else if s =? GxB_SPARSE + GxB_BITMAP then
    (* (6) sparse or bitmap *)
    GB_OK (GB_sparse_or_bitmap is_hyper is_sparse is_bitmap
             is_full A Context) ;; A =>
    return_SUCCESS A
  else if s =? GxB_HYPERSPARSE + GxB_SPARSE + GxB_BITMAP then
    (* (7) hypersparse, sparse, or bitmap *)
    GB_OK (GB_hyper_sparse_or_bitmap is_hyper is_sparse
             is_bitmap is_full A Context) ;; A =>
    return_SUCCESS A
  else if (s =? GxB_FULL) || (s =? GxB_FULL + GxB_BITMAP) then
    (* (8), (12): bitmap or full *)
    if is_full_or_dense_with_no_pending_work
    then return_SUCCESS (GB_convert_any_to_full A)
    else
      GB_OK (GB_convert_any_to_bitmap A Context) ;; A =>
      return_SUCCESS A
  else if s =? GxB_HYPERSPARSE + GxB_FULL then
    (* (9) hypersparse or full *)
    if is_full_or_dense_with_no_pending_work
    then return_SUCCESS (GB_convert_any_to_full A)
    else
      GB_OK (GB_convert_any_to_hyper A Context) ;; A =>
      return_SUCCESS A
  else if s =? GxB_SPARSE + GxB_FULL then
    (* (10) sparse or full *)
    if is_full_or_dense_with_no_pending_work
    then return_SUCCESS (GB_convert_any_to_full A)
    else
      GB_OK (GB_convert_any_to_sparse A Context) ;; A =>
      return_SUCCESS A
  else if s =? GxB_HYPERSPARSE + GxB_SPARSE + GxB_FULL then
    (* (11) hypersparse, sparse, or full *)
    if is_full_or_dense_with_no_pending_work
    then return_SUCCESS (GB_convert_any_to_full A)
    else if is_bitmap then
      GB_OK (GB_convert_bitmap_to_sparse A Context) ;; A =>
      GB_OK (GB_conform_hyper A Context) ;; A =>
      return_SUCCESS A
    else
      GB_OK (GB_conform_hyper A Context) ;; A =>
      return_SUCCESS A
  else if s =? GxB_HYPERSPARSE + GxB_BITMAP + GxB_FULL then
    (* (13) hypersparse, bitmap, or full *)
    if is_full_or_dense_with_no_pending_work
    then return_SUCCESS (GB_convert_any_to_full A)
    else
      GB_OK (GB_hyper_or_bitmap is_hyper is_sparse is_bitmap
               is_full A Context) ;; A =>
      return_SUCCESS A
  else if s =? GxB_SPARSE + GxB_BITMAP + GxB_FULL then
    (* (14) sparse, bitmap, or full *)
    if is_full_or_dense_with_no_pending_work
    then return_SUCCESS (GB_convert_any_to_full A)
    else
      GB_OK (GB_sparse_or_bitmap is_hyper is_sparse is_bitmap
               is_full A Context) ;; A =>
      return_SUCCESS A
  else
    (* (15) GxB_AUTO_SPARSITY and default *)
    GB_conform_default A Context.

End GB_conform.

(** *** What the spec promises of the converters

    By section 4.2 and invariant 6 of section 3, a converter that
    succeeds leaves a valid matrix in the format it names, with the same
    live entries. *)
Definition converts_to (P : GB_format -> Prop) (A A' : GrB_Matrix) : Prop :=
  GB_matrix_ok A' /\ P (format A') /\ Permutation (live A') (live A).

Definition hyper_or_sparse (f : GB_format) : Prop :=
  f = Hypersparse \/ f = Sparse.

Class GB_converters_ok {GB_Context : Type} (cv : GB_converters GB_Context)
  : Prop := {
  any_to_hyper_ok : forall A Context A',
    GB_matrix_ok A ->
    GB_convert_any_to_hyper A Context = (GrB_SUCCESS, A') ->
    converts_to (eq Hypersparse) A A';
  any_to_sparse_ok : forall A Context A',
    GB_matrix_ok A ->
    GB_convert_any_to_sparse A Context = (GrB_SUCCESS, A') ->
    converts_to (eq Sparse) A A';
  any_to_bitmap_ok : forall A Context A',
    GB_matrix_ok A ->
    GB_convert_any_to_bitmap A Context = (GrB_SUCCESS, A') ->
    converts_to (eq Bitmap) A A';
  bitmap_to_sparse_ok : forall A Context A',
    GB_matrix_ok A -> format A = Bitmap ->
    GB_convert_bitmap_to_sparse A Context = (GrB_SUCCESS, A') ->
    converts_to (eq Sparse) A A';
  conform_hyper_ok : forall A Context A',
    GB_matrix_ok A -> hyper_or_sparse (format A) ->
    GB_conform_hyper A Context = (GrB_SUCCESS, A') ->
    converts_to hyper_or_sparse A A';
  any_to_full_ok : forall A,
    GB_matrix_ok A -> is_full_or_dense_with_no_pending_work A = true ->
    converts_to (eq Full) A (GB_convert_any_to_full A)
}.

Definition hyper_or_bitmap (f : GB_format) : Prop :=
  f = Hypersparse \/ f = Bitmap.
Definition sparse_or_bitmap (f : GB_format) : Prop :=
  f = Sparse \/ f = Bitmap.
Definition not_full (f : GB_format) : Prop :=
  f = Hypersparse \/ f = Sparse \/ f = Bitmap.

(** [info] is returned by one of the converters on some input. *)
Definition converter_returns {GB_Context : Type}
           {cv : GB_converters GB_Context} (info : GrB_Info) : Prop :=
  exists B Context,
    fst (GB_convert_any_to_hyper B Context) = info \/
    fst (GB_convert_any_to_sparse B Context) = info \/
    fst (GB_convert_any_to_bitmap B Context) = info \/
    fst (GB_convert_bitmap_to_sparse B Context) = info \/
    fst (GB_conform_hyper B Context) = info.

(** An info GB_conform may pass on: success, or what a converter
    returned. *)
Definition info_ok {GB_Context : Type} {cv : GB_converters GB_Context}
           (info : GrB_Info) : Prop :=
  info = GrB_SUCCESS \/ converter_returns info.

(** The policy as a set of formats: [f] lies in the bitmask [P]. *)
Definition format_in (P : Z) (f : GB_format) : Prop :=
  Z.land P (GB_format_bit f) <> 0.

(** The formats GB_conform may leave under the policy [P]: those of [P],
    and for the policy "full" alone also the bitmap format (cases (8)
    and (12) of the switch are one arm). *)
Definition effective_policy (P : Z) : Z :=
  if P =? GxB_FULL then GxB_FULL + GxB_BITMAP else P.

(** *** A model of the converters *)

Module SpecModel.

(** Modelled from the spec: the context (section 2, component 7)
    holds the thread count and the chunk size; the converters
    "may allocate" (section 5), and [memory_available] is the number
    of entries the allocator can still provide when they do. *)
Record GB_Context_struct : Type := {
  nthreads_max : Z;
  chunk : Z;
  memory_available : Z
}.

Definition GB_malloc_ok (n : Z) (Context : GB_Context_struct) : bool :=
  n <=? memory_available Context.

Definition set_format (A : GrB_Matrix) (f : GB_format) : GrB_Matrix :=
  mkMatrix (vlen A) (vdim A) (sparsity A) (bitmap_switch A)
           (hyper_switch A) f (entries A) (jumbled A) (Pending A).

Definition set_content (A : GrB_Matrix) (f : GB_format)
           (e : list tuple) : GrB_Matrix :=
  mkMatrix (vlen A) (vdim A) (sparsity A) (bitmap_switch A)
           (hyper_switch A) f e false [].

(** Index order of the stored tuples: by vector, then by row. *)
Definition tuple_leb (s t : tuple) : bool :=
  (col s <? col t) || ((col s =? col t) && (row s <=? row t)).

Fixpoint insert_tuple (t : tuple) (l : list tuple) : list tuple :=
  match l with
  | [] => [t]
  | u :: l' => if tuple_leb t u then t :: l else u :: insert_tuple t l'
  end.

Fixpoint sort_tuples (l : list tuple) : list tuple :=
  match l with
  | [] => []
  | t :: l' => insert_tuple t (sort_tuples l')
  end.

(** Modelled from the spec: "finish pending work (delete zombies by
    compaction, sort jumbled vectors, merge pending tuples in index
    order)". *)
Definition finish_pending_work (A : GrB_Matrix) : GrB_Matrix :=
  set_content A (format A) (sort_tuples (live A)).

(** Modelled from the spec: a failed converter leaves the matrix
    "cleared to an empty but valid value". *)
Definition GB_phbix_free (A : GrB_Matrix) : GrB_Matrix :=
  set_content A Hypersparse [].

(** Modelled from the spec: "any->* must accept any input format and
    must first finish pending work"; it succeeds, or fails with the
    matrix cleared. *)
Definition GB_convert_any_to (f : GB_format) (size : GrB_Matrix -> Z)
           (A : GrB_Matrix) (Context : GB_Context_struct) : GB_result :=
  let A := finish_pending_work A in
  if GB_format_eqb (format A) f then (GrB_SUCCESS, A)
  else if GB_malloc_ok (size A) Context
       then (GrB_SUCCESS, set_format A f)
       else (GrB_OUT_OF_MEMORY, GB_phbix_free A).

Definition GB_convert_any_to_hyper := GB_convert_any_to Hypersparse GB_NNZ.
Definition GB_convert_any_to_sparse := GB_convert_any_to Sparse GB_NNZ.
Definition GB_convert_any_to_bitmap :=
  GB_convert_any_to Bitmap (fun A => vlen A * vdim A).
Definition GB_convert_any_to_full (A : GrB_Matrix) : GrB_Matrix :=
  set_format (finish_pending_work A) Full.

Definition GB_convert_bitmap_to_sparse (A : GrB_Matrix)
           (Context : GB_Context_struct) : GB_result :=
  if GB_malloc_ok (GB_NNZ A) Context
  then (GrB_SUCCESS, set_format A Sparse)
  else (GrB_OUT_OF_MEMORY, GB_phbix_free A).

(** Number of non-empty vectors: the distinct vector indices among
    the stored tuples. *)
Definition GB_nvec_nonempty (A : GrB_Matrix) : Z :=
  Z.of_nat (List.length (nodup Z.eq_dec (map col (entries A)))).

Definition GB_convert_hyper_to_sparse (A : GrB_Matrix)
           (Context : GB_Context_struct) : GB_result :=
  if GB_malloc_ok (vdim A + 1) Context
  then (GrB_SUCCESS, set_format A Sparse)
  else (GrB_OUT_OF_MEMORY, GB_phbix_free A).

Definition GB_convert_sparse_to_hyper (A : GrB_Matrix)
           (Context : GB_Context_struct) : GB_result :=
  if GB_malloc_ok (GB_nvec_nonempty A) Context
  then (GrB_SUCCESS, set_format A Hypersparse)
  else (GrB_OUT_OF_MEMORY, GB_phbix_free A).

(** Modelled from the spec: [GB_conform_hyper] is not under src/.
    "conform_hyper(A) applies only the hyper<->sparse tests; it never
    changes to bitmap or full": a hypersparse matrix becomes sparse
    when [nvec >= hyper_switch*vdim], a sparse matrix becomes
    hypersparse when [nvec < hyper_switch*vdim]; [nvec] counts the
    non-empty vectors. *)
Definition GB_conform_hyper (A : GrB_Matrix)
           (Context : GB_Context_struct) : GB_result :=
  if GB_IS_HYPERSPARSE A &&
     GB_convert_hyper_to_sparse_test (hyper_switch A)
       (GB_nvec_nonempty A) (vdim A)
  then GB_convert_hyper_to_sparse A Context
  else if GB_IS_SPARSE A &&
     GB_convert_sparse_to_hyper_test (hyper_switch A)
       (GB_nvec_nonempty A) (vdim A)
  then GB_convert_sparse_to_hyper A Context
  else (GrB_SUCCESS, A).

#[export] Instance converters : GB_converters GB_Context_struct := {|
  Conform.GB_convert_any_to_hyper := GB_convert_any_to_hyper;
  Conform.GB_convert_any_to_sparse := GB_convert_any_to_sparse;
  Conform.GB_convert_any_to_bitmap := GB_convert_any_to_bitmap;
  Conform.GB_convert_bitmap_to_sparse := GB_convert_bitmap_to_sparse;
  Conform.GB_conform_hyper := GB_conform_hyper;
  Conform.GB_convert_any_to_full := GB_convert_any_to_full;
  Conform.GB_phbix_free := GB_phbix_free
|}.

End SpecModel.

(** *** Sample matrices *)

Module Samples.

Definition Context0 : SpecModel.GB_Context_struct :=
  {| SpecModel.nthreads_max := 1;
     SpecModel.chunk := 4096;
     SpecModel.memory_available := 1000 |}.

(** No memory left for a conversion. *)
Definition Context_full : SpecModel.GB_Context_struct :=
  {| SpecModel.nthreads_max := 1;
     SpecModel.chunk := 4096;
     SpecModel.memory_available := 0 |}.

(** A 2-by-2 matrix with one entry, in format [f] under the policy [P]. *)
Definition one_entry (P : Z) (f : GB_format) : GrB_Matrix :=
  mkMatrix 2 2 P (1 # 25) (1 # 16) f [(0, 0, 5)] false [].

(** A hypersparse 4-by-4 matrix with entries in three vectors, a zombie
    and a pending tuple. *)
Definition three_vectors (P : Z) : GrB_Matrix :=
  mkMatrix 4 4 P (1 # 25) (1 # 2) Hypersparse
           [(0, 0, 5); (-3, 1, 6); (1, 1, 7); (3, 2, 8)] false [(2, 3, 9)].

(** Every cell of an [m]-by-[n] matrix, vector by vector. *)
Definition all_cells (m n : nat) : list tuple :=
  flat_map (fun j => map (fun i => (Z.of_nat i, Z.of_nat j, 1)) (seq 0 m))
           (seq 0 n).

(** Scenario S3: a 10-by-10 sparse matrix with every cell set and no
    pending work. *)
Definition dense_10x10 (P : Z) : GrB_Matrix :=
  mkMatrix 10 10 P (1 # 25) (1 # 16) Sparse (all_cells 10 10) false [].

End Samples.

End Conform.

(* ================================================================== *)
(** ** GB_slice_vector *)
(* ================================================================== *)

Module Slice.

Import Int64.

(** [X [p]] for an index array; reads outside the array do not occur
    on legal inputs and are given the value 0. *)
Definition load (X : list Z) (p : Z) : Z :=
  if p <? 0 then 0 else nth (Z.to_nat p) X 0.

(** Modelled from the spec: the search macros of GB.h are not under
    src/.  By section 4.4, "a split binary search finds the first
    position >= i".  The trimming loop narrows [pleft..pright] by halving
    it; the fuel bounds the number of halvings. *)
Fixpoint GB_BINARY_TRIM_SEARCH (fuel : nat) (i : Z) (X : list Z)
         (pleft pright : Z) : option (Z * Z) :=
  if pleft <? pright then
    match fuel with
    | O => None
    | S fuel' =>
        let pmiddle := div (add pleft pright) 2 in
        if load X pmiddle <? i
        then GB_BINARY_TRIM_SEARCH fuel' i X (add pmiddle 1) pright
        else GB_BINARY_TRIM_SEARCH fuel' i X pleft pmiddle
    end
  else Some (pleft, pright).

(** Modelled from the spec: after the trimming loop the search is down
    to one item; [found] tells whether it is [i], and when it is not,
    [pleft] is moved past an item smaller than [i], so that on exit
    [X [.. pleft-1] < i <= X [pleft ..]].  Returns [(pleft, found)]. *)
Definition GB_BINARY_SPLIT_SEARCH (i : Z) (X : list Z) (pleft pright : Z)
  : option (Z * bool) :=
  match GB_BINARY_TRIM_SEARCH 64 i X pleft pright with
  | None => None
  | Some (pleft, pright) =>
      let found := (pleft =? pright) && (load X pleft =? i) in
      if negb found && (pleft =? pright)
      then if i >? load X pleft
           then Some (add pleft 1, found)
           else Some (pleft, found)
      else Some (pleft, found)
  end.

(** Where [i] appears in one vector [X [p_start .. p_end-1]]: the block
    the function repeats for A(:,kA), B(:,kB) and M(:,kM). *)
Definition find_position (i : Z) (X : list Z) (p_start p_end vlen : Z)
  : option Z :=
  let knz := sub p_end p_start in
  let empty := knz =? 0 in
  if empty then Some (-1)
  else if knz =? vlen then
    (* the vector is dense; no need for a binary search *)
    Some (add p_start i)
  else
    match GB_BINARY_SPLIT_SEARCH i X p_start (sub p_end 1) with
    | Some (p, _) => Some p
    | None => None
    end.

Section GB_slice_vector.

Variables (pM_start pM_end : Z) (Mi : list Z).
Variables (pA_start pA_end : Z) (Ai : list Z).
Variables (pB_start pB_end : Z) (Bi : list Z).
Variable vlen : Z.
Variable target_work : float.

Definition a_empty : bool := sub pA_end pA_start =? 0.
Definition b_empty : bool := sub pB_end pB_start =? 0.
Definition m_empty : bool := sub pM_end pM_start =? 0.

(** [double work = (a_empty ? 0 : (pA_end - pA))
                 + (b_empty ? 0 : (pB_end - pB)) ;] *)
Definition work_of (pA pB : Z) : Z :=
  add (if a_empty then 0 else sub pA_end pA)
      (if b_empty then 0 else sub pB_end pB).

Definition work_too_low (work : Z) : bool :=
  PrimFloat.ltb (Double.of_int64 work)
                (PrimFloat.mul Double.c0_9999 target_work).

Definition work_too_high (work : Z) : bool :=
  PrimFloat.ltb (PrimFloat.mul Double.c1_0001 target_work)
                (Double.of_int64 work).

(** The loop [while (ileft < iright)]; [fuel] bounds the number of
    times its body runs.  Returns [(i, pA, pB)] at the loop's exit. *)
Fixpoint slice_loop (fuel : nat) (ileft iright i pA pB : Z)
  : option (Z * Z * Z) :=
  if ileft <? iright then
    match fuel with
    | O => None
    | S fuel' =>
        (* find the index i in the middle of ileft:iright *)
        let i := div (add ileft iright) 2 in
        match find_position i Ai pA_start pA_end vlen,
              find_position i Bi pB_start pB_end vlen with
        | Some pA, Some pB =>
            let work := work_of pA pB in
            if work_too_low work then
              (* work is too low, so i is too high *)
              slice_loop fuel' ileft i i pA pB
            else if work_too_high work then
              (* work is too high, so i is too low *)
              slice_loop fuel' (add i 1) iright i pA pB
            else
              (* work is about right; use this result *)
              Some (i, pA, pB)
        | _, _ => None
        end
    end
  else Some (i, pA, pB).

(** The function, with the outer loop allowed [fuel] iterations.
    Returns [(i, pM, pA, pB)]. *)
Definition GB_slice_vector_fuel (fuel : nat) : option (Z * Z * Z * Z) :=
  let ileft := 0 in
  let iright := sub vlen 1 in
  let i := 0 in
  let pA := if a_empty then -1 else pA_start in
  let pB := if b_empty then -1 else pB_start in
  match slice_loop fuel ileft iright i pA pB with
  | None => None
  | Some (i, pA, pB) =>
      (* find where i appears in M(:,kM) *)
      match find_position i Mi pM_start pM_end vlen with
      | Some pM => Some (i, pM, pA, pB)
      | None => None
      end
  end.

(** An interval of [int64_t] indices is halved at most 64 times. *)
Definition GB_slice_vector : option (Z * Z * Z * Z) :=
  GB_slice_vector_fuel 64.

End GB_slice_vector.

(** *** Legal inputs *)

(** Modelled from the spec: the largest dimension, [GxB_INDEX_MAX] of
    GraphBLAS.h, is not under src/; it is [2^60]. *)
Definition GxB_INDEX_MAX : Z := 2 ^ 60.

(** A vector [X [p_start .. p_end-1]] of a matrix with vectors of
    length [vlen]: positions inside the array, row indices in
    [0 .. vlen-1], strictly ascending (not jumbled, no zombies). *)
Record legal_vector (X : list Z) (p_start p_end vlen : Z) : Prop := {
  lv_start : 0 <= p_start;
  lv_order : p_start <= p_end;
  lv_end : p_end <= Z.of_nat (List.length X);
  lv_size : p_end <= GxB_INDEX_MAX;
  lv_range : forall p, p_start <= p < p_end -> 0 <= load X p < vlen;
  lv_ascending : forall p q, p_start <= p -> p < q -> q < p_end ->
                             load X p < load X q
}.

(** [p] splits the vector at the row index [i]: the entries before [p]
    are below [i], those from [p] on are at least [i]. *)
Definition splits (X : list Z) (p_start p_end i p : Z) : Prop :=
  p_start <= p <= p_end /\
  (forall q, p_start <= q < p -> load X q < i) /\
  (forall q, p <= q < p_end -> i <= load X q).

(** The position the function computes for a vector: the sentinel for
    an empty vector, a split position otherwise. *)
Definition position_of (X : list Z) (p_start p_end i p : Z) : Prop :=
  (p_start = p_end /\ p = -1) \/ (p_start < p_end /\ splits X p_start p_end i p).

(** The split point lies in the vector, or the vectors have no row. *)
Definition split_point_ok (vlen i : Z) : Prop :=
  0 <= i /\ (i < vlen \/ (vlen = 0 /\ i = 0)).

(** [f] holds at every integer of [lo .. lo + 2^n - 1]. *)
Fixpoint check_range (n : nat) (lo : Z) (f : Z -> bool) : bool :=
  match n with
  | O => f lo
  | S k => check_range k lo f && check_range k (lo + 2 ^ Z.of_nat k) f
  end.

(** [w] is the work of the subtask that starts at row [i]. *)
Definition work_at (pA_start pA_end : Z) (Ai : list Z)
           (pB_start pB_end : Z) (Bi : list Z) (i w : Z) : Prop :=
  exists pA pB,
    splits Ai pA_start pA_end i pA /\ splits Bi pB_start pB_end i pB /\
    w = (pA_end - pA) + (pB_end - pB).

(** A search interval for the window [lo .. hi] of work: the work just
    left of it is above the window, the work at its right end below it
    (or the end is that of the vector). *)
Definition brackets (pA_start pA_end : Z) (Ai : list Z)
           (pB_start pB_end : Z) (Bi : list Z) (vlen lo hi : Z)
           (ileft iright : Z) : Prop :=
  0 <= ileft <= iright /\ iright <= vlen - 1 /\
  (ileft = 0 \/
   exists w, work_at pA_start pA_end Ai pB_start pB_end Bi (ileft - 1) w /\
             hi < w) /\
  (iright = vlen - 1 \/
   exists w, work_at pA_start pA_end Ai pB_start pB_end Bi iright w /\
             w < lo).

(** What the function promises of a returned position [p] of a vector
    for the split point [i]. *)
Record position_ok (X : list Z) (p_start p_end i p : Z) : Prop := {
  po_sentinel : p = -1 <-> p_start = p_end;
  po_bounds : p_start <> p_end -> p_start <= p <= p_end;
  po_below : p_start <> p_end -> p_start < p < p_end -> load X (p - 1) < i;
  po_above : p_start <> p_end -> p_start <= p < p_end -> i <= load X p
}.

(** *** Sample vectors *)

(** The row indices [b, a + b, 2 a + b, ...] of a vector with [n]
    entries. *)
Definition ramp (n : nat) (a b : Z) : list Z :=
  map (fun k => a * Z.of_nat k + b) (seq 0 n).

End Slice.

(* ================================================================== *)
(** ** Further definitions: outcomes of GB_conform, reductions, ISLE *)
(* ================================================================== *)

Module Outcome.

Import Conform.

(** What the header of GB_conform.c says of a failure: "If this method
    fails, the matrix is cleared of all entries".  A result is a success,
    or carries the info of a converter and a matrix that [GB_phbix_free]
    left. *)
Definition cleared_on_failure {GB_Context : Type}
           {cv : GB_converters GB_Context} (r : GB_result) : Prop :=
  fst r = GrB_SUCCESS \/
  ((exists B, snd r = GB_phbix_free B) /\ converter_returns (fst r)).

(** The policy [p], or [p] with the "full" bit for a matrix that is not
    full or dense without pending work: the cases in which GB_conform
    applies the rule of [p]. *)
Definition rule_of {GB_Context : Type} {cv : GB_converters GB_Context}
           (A : GrB_Matrix) (p : Z) : Prop :=
  sparsity A = p \/
  (sparsity A = p + GxB_FULL /\
   is_full_or_dense_with_no_pending_work A = false).

(** A 2-by-2 matrix with one entry and the bitmap switch 1/2: with one
    entry of four cells it is below the switch. *)
Definition one_entry_half (P : Z) (f : GB_format) : GrB_Matrix :=
  mkMatrix 2 2 P (1 # 2) (1 # 16) f [(0, 0, 5)] false [].

End Outcome.

Module SliceMore.

(** The result of the slicer with the roles of A and B exchanged. *)
Definition swap_AB (r : Z * Z * Z * Z) : Z * Z * Z * Z :=
  let '(i, pM, pA, pB) := r in (i, pM, pB, pA).

(** The position of row 0 in a vector: its start, or the sentinel when
    the vector is empty. *)
Definition start_or_sentinel (p_start p_end : Z) : Z :=
  if p_start =? p_end then -1 else p_start.

End SliceMore.

Module Reduce.

Import max_rminus_int64.

(** The multiply-adds of a list of pairs [(aik, bkj)] folded into the
    accumulator [cij], in the order of the list. *)
Definition GB_MULTADD_all (cij : Z) (l : list (Z * Z)) : Z :=
  fold_left (fun c ab => GB_MULTADD c (fst ab) (snd ab)) l cij.

End Reduce.

(* ================================================================== *)
(** ** Generated kernel: the ISLE operator over uint8 *)
(* ================================================================== *)

Module isle_uint8.

Definition UINT8_MAX : Z := 255.

(** [#define GB_BINOP(z, x, y) z = (x <= y) ;] with [uint8_t] operands:
    the comparison yields the int 1 or 0, which is stored in the
    [uint8_t] [z]. *)
Definition GB_BINOP (x y : Z) : Z := if x <=? y then 1 else 0.

End isle_uint8.

(* ================================================================== *)
(** ** The entries that count, and the calls of the last arm *)
(* ================================================================== *)

Module Entries.

Import Conform.

(** Two tuples for the same cell [(i, j)]. *)
Definition same_cell (s t : tuple) : bool :=
  (row s =? row t) && (col s =? col t).

(** Modelled from the spec: invariant 6 of section 3 counts the live
    entries as "non-zombie, non-duplicate-winner": of the tuples given
    for one cell only the winner counts.  The pending tuples are an
    append-only side buffer, merged after the stored entries, so the
    winner of a cell is the tuple that comes last: a pending tuple wins
    over the stored entry of its cell, a later pending tuple over an
    earlier one.  [winners l] keeps a tuple exactly when no later tuple
    of [l] is for the same cell. *)
Fixpoint winners (l : list tuple) : list tuple :=
  match l with
  | [] => []
  | t :: l' =>
      if existsb (same_cell t) l' then winners l' else t :: winners l'
  end.

(** The live (non-zombie, non-duplicate-winner) entries of a matrix, one
    per cell.  Compared as multisets ([Permutation]). *)
Definition content (A : GrB_Matrix) : list tuple := winners (live A).

Definition cell (t : tuple) : Z * Z := (row t, col t).

(** A valid matrix: the invariants of [GB_matrix_ok], and no two stored
    live entries for one cell: a vector holds a row index once (the
    indices are strictly ascending once sorted, invariant 3 of section
    3) and the vectors are distinct (invariant 5).  Only the pending
    tuples may hold duplicates, among themselves and of a stored
    entry. *)
Definition matrix_valid (A : GrB_Matrix) : Prop :=
  GB_matrix_ok A /\
  NoDup (map cell (filter (fun t => negb (GB_IS_ZOMBIE t)) (entries A))).

(** A conversion of [A] that left [A']: a valid matrix, in a format of
    [P], with the same live entries once the duplicates are resolved. *)
Definition keeps_to (P : GB_format -> Prop) (A A' : GrB_Matrix) : Prop :=
  matrix_valid A' /\ P (format A') /\
  Permutation (content A') (content A).

(** What the spec promises of the converters (section 4.2 and invariant
    6 of section 3), with the entries counted as the invariant counts
    them: a converter that succeeds on a valid matrix leaves a valid
    matrix in the format it names, with the same winners; it is free to
    merge the pending tuples or, where the format allows, to leave them
    pending.  ([GB_converters_ok] compares every tuple held, the
    duplicates among the pending tuples included.) *)
Class GB_converters_keep {GB_Context : Type}
      (cv : GB_converters GB_Context) : Prop := {
  any_to_hyper_keep : forall A Context A',
    matrix_valid A ->
    GB_convert_any_to_hyper A Context = (GrB_SUCCESS, A') ->
    keeps_to (eq Hypersparse) A A';
  any_to_sparse_keep : forall A Context A',
    matrix_valid A ->
    GB_convert_any_to_sparse A Context = (GrB_SUCCESS, A') ->
    keeps_to (eq Sparse) A A';
  any_to_bitmap_keep : forall A Context A',
    matrix_valid A ->
    GB_convert_any_to_bitmap A Context = (GrB_SUCCESS, A') ->
    keeps_to (eq Bitmap) A A';
  bitmap_to_sparse_keep : forall A Context A',
    matrix_valid A -> format A = Bitmap ->
    GB_convert_bitmap_to_sparse A Context = (GrB_SUCCESS, A') ->
    keeps_to (eq Sparse) A A';
  conform_hyper_keep : forall A Context A',
    matrix_valid A -> hyper_or_sparse (format A) ->
    GB_conform_hyper A Context = (GrB_SUCCESS, A') ->
    keeps_to hyper_or_sparse A A';
  any_to_full_keep : forall A,
    matrix_valid A -> is_full_or_dense_with_no_pending_work A = true ->
    keeps_to (eq Full) A (GB_convert_any_to_full A)
}.

(** *** A model of the converters that merges duplicates *)

Module Merging.

(** Modelled from the spec: "finish pending work (delete zombies by
    compaction, sort jumbled vectors, merge pending tuples in index
    order)", with one entry left per cell, the winner. *)
Definition finish_pending_work (A : GrB_Matrix) : GrB_Matrix :=
  SpecModel.set_content A (format A) (SpecModel.sort_tuples (content A)).

(** Modelled from the spec: "any->* must accept any input format and
    must first finish pending work"; it succeeds, or fails with the
    matrix cleared. *)
Definition GB_convert_any_to (f : GB_format) (size : GrB_Matrix -> Z)
           (A : GrB_Matrix) (Context : SpecModel.GB_Context_struct)
  : GB_result :=
  let A := finish_pending_work A in
  if GB_format_eqb (format A) f then (GrB_SUCCESS, A)
  else if SpecModel.GB_malloc_ok (size A) Context
       then (GrB_SUCCESS, SpecModel.set_format A f)
       else (GrB_OUT_OF_MEMORY, SpecModel.GB_phbix_free A).

Definition GB_convert_any_to_hyper := GB_convert_any_to Hypersparse GB_NNZ.
Definition GB_convert_any_to_sparse := GB_convert_any_to Sparse GB_NNZ.
Definition GB_convert_any_to_bitmap :=
  GB_convert_any_to Bitmap (fun A => vlen A * vdim A).
Definition GB_convert_any_to_full (A : GrB_Matrix) : GrB_Matrix :=
  SpecModel.set_format (finish_pending_work A) Full.

#[export] Instance converters
  : GB_converters SpecModel.GB_Context_struct := {|
  Conform.GB_convert_any_to_hyper := GB_convert_any_to_hyper;
  Conform.GB_convert_any_to_sparse := GB_convert_any_to_sparse;
  Conform.GB_convert_any_to_bitmap := GB_convert_any_to_bitmap;
  Conform.GB_convert_bitmap_to_sparse := SpecModel.GB_convert_bitmap_to_sparse;
  Conform.GB_conform_hyper := SpecModel.GB_conform_hyper;
  Conform.GB_convert_any_to_full := GB_convert_any_to_full;
  Conform.GB_phbix_free := SpecModel.GB_phbix_free
|}.

End Merging.

(** A sparse 2-by-2 matrix with a stored entry, a zombie, and three
    pending tuples: one for the cell of the stored entry, two for one
    other cell.  Its live entries are [(0, 0, 6)] and [(1, 1, 8)]. *)
Definition duplicates (P : Z) : GrB_Matrix :=
  mkMatrix 2 2 P (1 # 25) (1 # 16) Sparse
           [(0, 0, 5); (-2, 1, 6)] false
           [(1, 1, 7); (0, 0, 6); (1, 1, 8)].

End Entries.

Module Calls.

Import Conform.

(** A call of one of the converters that return an info, with the
    matrix it is given.  ([GB_convert_any_to_full] returns no info.) *)
Inductive converter_call : Type :=
| call_any_to_bitmap (A : GrB_Matrix)
| call_bitmap_to_sparse (A : GrB_Matrix)
| call_conform_hyper (A : GrB_Matrix).

Section calls.

Context {GB_Context : Type} {cv : GB_converters GB_Context}.

(** What the call returns. *)
Definition returned (c : converter_call) (Context : GB_Context)
  : GB_result :=
  match c with
  | call_any_to_bitmap A => GB_convert_any_to_bitmap A Context
  | call_bitmap_to_sparse A => GB_convert_bitmap_to_sparse A Context
  | call_conform_hyper A => GB_conform_hyper A Context
  end.

Definition succeeds (Context : GB_Context) (c : converter_call) : Prop :=
  fst (returned c Context) = GrB_SUCCESS.

(** The converter calls of [GB_hyper_sparse_or_bitmap], in the order
    they are made.  The second call of the bitmap branch is made on the
    matrix the first one left, and only if the first one succeeded
    ([GB_OK] returns otherwise). *)
Definition GB_hyper_sparse_or_bitmap_calls
           (is_hyper is_sparse is_bitmap is_full : bool)
           (A : GrB_Matrix) (Context : GB_Context) : list converter_call :=
  if is_full || ((is_hyper || is_sparse) &&
       GB_convert_sparse_to_bitmap_test (bitmap_switch A)
         (GB_NNZ A) (vlen A) (vdim A))
  then [call_any_to_bitmap A]
  else if is_bitmap then
    if GB_convert_bitmap_to_sparse_test (bitmap_switch A)
         (GB_NNZ A) (vlen A) (vdim A)
    then
      call_bitmap_to_sparse A ::
      match GB_convert_bitmap_to_sparse A Context with
      | (GrB_SUCCESS, B) => [call_conform_hyper B]
      | _ => []
      end
    else []
  else [call_conform_hyper A].

(** The converter calls of the last arm of the switch,
    [case GxB_AUTO_SPARSITY : default :]. *)
Definition GB_conform_default_calls (A : GrB_Matrix) (Context : GB_Context)
  : list converter_call :=
  if is_full_or_dense_with_no_pending_work A
  then []
  else GB_hyper_sparse_or_bitmap_calls
         (GB_IS_HYPERSPARSE A) (GB_IS_SPARSE A)
         (GB_IS_BITMAP A) (GB_IS_FULL A) A Context.

(** The matrix a successful run of the calls leaves: that of the last
    call, or [A] itself when no call is made. *)
Definition matrix_left (A : GrB_Matrix) (Context : GB_Context)
           (calls : list converter_call) : GrB_Matrix :=
  last (map (fun c => snd (returned c Context)) calls) A.

End calls.

End Calls.
(* ================================================================== *)
(** * Properties *)
(* ================================================================== *)

(** ** Machine integers *)

Section Int64_facts.

Import Int64.

Lemma wrap_in_range z : in_range (wrap z).
Proof.
  unfold in_range, wrap, INT64_MIN, INT64_MAX.
  pose proof (Z.mod_pos_bound (z + 2 ^ 63) (2 ^ 64) ltac:(lia)). lia.
Qed.

Lemma wrap_small z : in_range z -> wrap z = z.
Proof.
  unfold in_range, wrap, INT64_MIN, INT64_MAX. intros H.
  rewrite Z.mod_small; lia.
Qed.

End Int64_facts.

(** ** The (max, rminus) kernel over int64 *)

Section max_rminus_int64_facts.

Import Int64 max_rminus_int64.

Lemma GB_IMAX_max x y : GB_IMAX x y = Z.max x y.
Proof. unfold GB_IMAX. destruct (Z.gtb_spec x y); lia. Qed.

Lemma GB_MULT_in_range x y : in_range (GB_MULT x y).
Proof. apply wrap_in_range. Qed.

Lemma GB_DOT_TERMINAL_iff c : GB_DOT_TERMINAL c = true <-> c = INT64_MAX.
Proof. unfold GB_DOT_TERMINAL. apply Z.eqb_eq. Qed.

(** Once the accumulator holds the terminal value, a further
    multiply-add leaves it there. *)
Lemma terminal_absorbs x y : GB_MULTADD INT64_MAX x y = INT64_MAX.
Proof.
  unfold GB_MULTADD. rewrite GB_IMAX_max.
  pose proof (wrap_in_range (y - x)) as [_ H]. unfold sub. lia.
Qed.

Lemma dot_reduce_all_terminal l :
  dot_reduce_all (Some INT64_MAX) l = Some INT64_MAX.
Proof.
  induction l as [|ab l IH]; simpl; [reflexivity|].
  rewrite terminal_absorbs. exact IH.
Qed.

Lemma dot_reduce_early_exit l : forall cij,
  dot_reduce cij l = dot_reduce_all cij l.
Proof.
  induction l as [|ab l IH]; intros cij; simpl; [reflexivity|].
  destruct (GB_DOT_TERMINAL (dot_step cij ab)) eqn:T.
  - apply GB_DOT_TERMINAL_iff in T. rewrite T.
    symmetry. apply dot_reduce_all_terminal.
  - apply IH.
Qed.

Lemma dot_visited_le l : forall cij, (dot_visited cij l <= List.length l)%nat.
Proof.
  induction l as [|ab l IH]; intros cij; simpl; [lia|].
  destruct (GB_DOT_TERMINAL (dot_step cij ab)); [lia|].
  specialize (IH (Some (dot_step cij ab))). lia.
Qed.

(** Leaving the loop before the last pair happens only at the terminal
    value. *)
Lemma dot_visited_early l : forall cij,
  (dot_visited cij l < List.length l)%nat ->
  dot_reduce cij l = Some INT64_MAX.
Proof.
  induction l as [|ab l IH]; intros cij; simpl; [lia|].
  destruct (GB_DOT_TERMINAL (dot_step cij ab)) eqn:T; intros H.
  - apply GB_DOT_TERMINAL_iff in T. now rewrite T.
  - apply IH. lia.
Qed.

(** The loop is left as soon as the accumulator is the terminal value. *)
Lemma dot_visited_terminal l1 : forall cij l2,
  l1 <> [] -> dot_reduce_all cij l1 = Some INT64_MAX ->
  (dot_visited cij (l1 ++ l2) <= List.length l1)%nat.
Proof.
  induction l1 as [|ab l1 IH]; intros cij l2 Hne H; [congruence|].
  simpl in *.
  destruct (GB_DOT_TERMINAL (dot_step cij ab)) eqn:T; [lia|].
  destruct l1 as [|ab' l1'].
  - simpl in H. injection H as H.
    apply GB_DOT_TERMINAL_iff in H. congruence.
  - specialize (IH (Some (dot_step cij ab)) l2 ltac:(discriminate) H).
    simpl in *. lia.
Qed.

End max_rminus_int64_facts.

(** C7.  In the max_rminus_int64 kernels the multiply is [z = y - x]
    (in int64 arithmetic, the exact difference when it is representable),
    the identity of the additive monoid is [INT64_MIN], the multiply-add
    is [z = max (z, y - x)], and the dot-product reduction leaves its loop
    early exactly when the accumulator equals [INT64_MAX]; from there no
    further contribution changes the result, so the reduction with the
    early exit computes what the full reduction computes. *)
Theorem max_rminus_int64_kernel :
  forall x y z : Z,
  Int64.in_range x -> Int64.in_range y -> Int64.in_range z ->
  max_rminus_int64.GB_MULT x y = Int64.wrap (y - x) /\
  (Int64.in_range (y - x) -> max_rminus_int64.GB_MULT x y = y - x) /\
  max_rminus_int64.GB_IDENTITY = Int64.INT64_MIN /\
  max_rminus_int64.GB_IMAX max_rminus_int64.GB_IDENTITY z = z /\
  max_rminus_int64.GB_IMAX z max_rminus_int64.GB_IDENTITY = z /\
  max_rminus_int64.GB_MULTADD z x y
    = Z.max z (max_rminus_int64.GB_MULT x y) /\
  (max_rminus_int64.GB_DOT_TERMINAL z = true <-> z = Int64.INT64_MAX) /\
  (max_rminus_int64.GB_DOT_TERMINAL z = true ->
   max_rminus_int64.GB_MULTADD z x y = z) /\
  (forall cij l,
     max_rminus_int64.dot_reduce cij l
       = max_rminus_int64.dot_reduce_all cij l) /\
  (forall cij l,
     (max_rminus_int64.dot_visited cij l < List.length l)%nat ->
     max_rminus_int64.dot_reduce cij l = Some Int64.INT64_MAX) /\
  (forall cij l1 l2, l1 <> [] ->
     max_rminus_int64.dot_reduce_all cij l1 = Some Int64.INT64_MAX ->
     (max_rminus_int64.dot_visited cij (l1 ++ l2) <= List.length l1)%nat).
Proof.
  intros x y z Hx Hy Hz.
  repeat split.
  - intros H. unfold max_rminus_int64.GB_MULT, Int64.sub. now apply wrap_small.
  - rewrite GB_IMAX_max. unfold max_rminus_int64.GB_IDENTITY.
    destruct Hz. lia.
  - rewrite GB_IMAX_max. unfold max_rminus_int64.GB_IDENTITY.
    destruct Hz. lia.
  - unfold max_rminus_int64.GB_MULTADD. apply GB_IMAX_max.
  - apply GB_DOT_TERMINAL_iff.
  - apply GB_DOT_TERMINAL_iff.
  - intros T. apply GB_DOT_TERMINAL_iff in T. subst z. apply terminal_absorbs.
  - intros cij l. apply dot_reduce_early_exit.
  - intros cij l. apply dot_visited_early.
  - intros cij l1 l2. apply dot_visited_terminal.
Qed.

(** The kernel at [x = 2], [y = INT64_MAX] (no wrap-around) with the
    accumulator at the terminal value. *)
Lemma max_rminus_int64_kernel_witness :
  max_rminus_int64.GB_MULT 2 Int64.INT64_MAX = Int64.INT64_MAX - 2 /\
  max_rminus_int64.GB_MULTADD Int64.INT64_MAX 2 Int64.INT64_MAX
  = Int64.INT64_MAX.
Proof.
  assert (R2 : Int64.in_range 2)
  by (unfold Int64.in_range, Int64.INT64_MIN, Int64.INT64_MAX; lia).
  assert (RM : Int64.in_range Int64.INT64_MAX)
  by (unfold Int64.in_range, Int64.INT64_MIN, Int64.INT64_MAX; lia).
  destruct (max_rminus_int64_kernel 2 Int64.INT64_MAX Int64.INT64_MAX R2 RM RM)
  as (_ & Hmul & _ & _ & _ & _ & _ & Hterm & _).
  split.
  - apply Hmul. unfold Int64.in_range, Int64.INT64_MIN, Int64.INT64_MAX. lia.
  - apply Hterm. reflexivity.
Defined.

(** ** gb_mxstring_to_format *)

(** C8.  [gb_mxstring_to_format] returns [GxB_BY_ROW] exactly for the
    string "by row", [GxB_BY_COL] exactly for "by col", and for every
    other string raises the error "unknown format" and returns no
    format. *)
Theorem gb_mxstring_to_format_spec :
  forall s : string,
  (mxformat.gb_mxstring_to_format s = mxformat.Returns mxformat.GxB_BY_ROW
     <-> s = "by row"%string) /\
  (mxformat.gb_mxstring_to_format s = mxformat.Returns mxformat.GxB_BY_COL
     <-> s = "by col"%string) /\
  (s <> "by row"%string -> s <> "by col"%string ->
   mxformat.gb_mxstring_to_format s = mxformat.ERROR "unknown format"%string).
Proof.
  intros s.
  unfold mxformat.gb_mxstring_to_format, mxformat.gb_mxstring_to_string,
  mxformat.MATCH.
  destruct (String.eqb_spec s "by row") as [E1|N1];
  [|destruct (String.eqb_spec s "by col") as [E2|N2]].
  - subst s. repeat split; intros; try congruence; discriminate.
  - subst s. repeat split; intros; try congruence; discriminate.
  - repeat split; intros; try congruence; discriminate.
Qed.

(** ** gbburble *)

Section gbburble_facts.

Import gbburble.

Variable mxArray : Type.
Variable gb_mxarray_is_scalar : mxArray -> bool.
Variable mxGetScalar : mxArray -> float.

Let mex := mexFunction mxArray gb_mxarray_is_scalar mxGetScalar.

Lemma mex_get nargout g :
  nargout <= 1 -> mex nargout [] g = Done (Double.of_bool (burble g)) g.
Proof.
  intros H. unfold mex, mexFunction. simpl.
  destruct (Z.leb_spec nargout 1); [reflexivity|lia].
Qed.

Lemma mex_set nargout x g :
  nargout <= 1 -> gb_mxarray_is_scalar x = true ->
  mex nargout [x] g
  = Done (Double.of_bool (Double.to_bool (mxGetScalar x)))
       {| burble := Double.to_bool (mxGetScalar x) |}.
Proof.
  intros H S. unfold mex, mexFunction. simpl.
  destruct (Z.leb_spec nargout 1); [|lia]. simpl.
  rewrite S. reflexivity.
Qed.

Lemma mex_not_scalar nargout x g :
  gb_mxarray_is_scalar x = false ->
  exists message, mex nargout [x] g = Raised message g.
Proof.
  intros S. unfold mex, mexFunction. simpl.
  destruct (nargout <=? 1); simpl; [rewrite S; simpl|]; eauto.
Qed.

Lemma mex_usage nargout pargin g :
  (1 < List.length pargin)%nat \/ 1 < nargout ->
  mex nargout pargin g = Raised usage g.
Proof.
  intros H. unfold mex, mexFunction.
  destruct (Z.leb_spec (Z.of_nat (List.length pargin)) 1);
  destruct (Z.leb_spec nargout 1); simpl; try reflexivity; lia.
Qed.

End gbburble_facts.

(** C9.  With no input gbburble returns the current burble and leaves it
    unchanged; with one scalar input it sets the burble to the boolean
    value of the scalar and returns the value read back, which is the
    stored state at return; a non-scalar input, more than one input or
    more than one output raises an error and the burble is not set. *)
Theorem gbburble_spec :
  forall (mxArray : Type) (gb_mxarray_is_scalar : mxArray -> bool)
       (mxGetScalar : mxArray -> float)
       (nargout : Z) (pargin : list mxArray) (g : gbburble.GB_Global),
  let mex := gbburble.mexFunction mxArray gb_mxarray_is_scalar mxGetScalar in
  (pargin = [] -> nargout <= 1 ->
   mex nargout pargin g
   = gbburble.Done (Double.of_bool (gbburble.burble g)) g) /\
  (forall x, pargin = [x] -> nargout <= 1 ->
     gb_mxarray_is_scalar x = true ->
     exists g',
       mex nargout pargin g
       = gbburble.Done (Double.of_bool (gbburble.burble g')) g' /\
       gbburble.burble g' = Double.to_bool (mxGetScalar x)) /\
  ((exists x, pargin = [x] /\ gb_mxarray_is_scalar x = false) \/
   (1 < List.length pargin)%nat \/ 1 < nargout ->
   exists message, mex nargout pargin g = gbburble.Raised message g).
Proof.
  intros mxArray is_scalar getScalar nargout pargin g mex.
  split; [|split].
  - intros -> H. now apply mex_get.
  - intros x -> H S.
    exists {| gbburble.burble := Double.to_bool (getScalar x) |}. split.
    + unfold mex. rewrite mex_set by assumption. reflexivity.
    + reflexivity.
  - intros [(x & -> & S)|H].
    + now apply mex_not_scalar.
    + eexists. now apply mex_usage.
Qed.

(** A get, a set with the scalar 3 and a call with a 2-element array,
    for the MATLAB arrays modelled as lists of doubles. *)
Lemma gbburble_spec_witness :
  let is_scalar := fun x : list float => (List.length x =? 1)%nat in
  let get := fun x : list float => hd 0%float x in
  let mex := gbburble.mexFunction (list float) is_scalar get in
  let g := {| gbburble.burble := false |} in
  mex 1 [] g = gbburble.Done 0%float g /\
  (exists g', mex 1 [[3%float]] g = gbburble.Done 1%float g' /\
            gbburble.burble g' = true) /\
  (exists message, mex 1 [[3%float; 4%float]] g = gbburble.Raised message g).
Proof.
  intros is_scalar get mex g.
  destruct (gbburble_spec (list float) is_scalar get 1 [] g) as (H1 & _ & _).
  destruct (gbburble_spec (list float) is_scalar get 1 [[3%float]] g)
  as (_ & H2 & _).
  destruct (gbburble_spec (list float) is_scalar get 1
            [[3%float; 4%float]] g) as (_ & _ & H3).
  split; [|split].
  - apply H1; [reflexivity|lia].
  - destruct (H2 [3%float] eq_refl ltac:(lia) eq_refl) as (g' & E & B).
      exists g'. split; [|exact B].
      unfold mex. rewrite E. destruct g' as [b]. simpl in B. subst b.
      reflexivity.
  - apply H3. left. exists [3%float; 4%float]. split; reflexivity.
Defined.

(** The strings "by row", "by col" and "by column". *)
Lemma gb_mxstring_to_format_spec_witness :
  mxformat.gb_mxstring_to_format "by row"
  = mxformat.Returns mxformat.GxB_BY_ROW /\
  mxformat.gb_mxstring_to_format "by column"
  = mxformat.ERROR "unknown format"%string.
Proof.
  split.
  - apply (proj1 (gb_mxstring_to_format_spec "by row")). reflexivity.
  - apply (proj2 (proj2 (gb_mxstring_to_format_spec "by column")));
      discriminate.
Defined.

(** ** GB_conform *)

Section Conform_facts.

Import Conform.

Lemma GB_format_eqb_eq f g : GB_format_eqb f g = true <-> f = g.
Proof. destruct f, g; simpl; split; congruence. Qed.

Lemma Qlt_bool_iff x y : Qlt_bool x y = true <-> (x < y)%Q.
Proof.
  unfold Qlt_bool. rewrite negb_true_iff.
  destruct (Qle_bool y x) eqn:E.
  - apply Qle_bool_iff in E. split; [discriminate|].
    intros H. exfalso. exact (Qlt_not_le _ _ H E).
  - split; [intros _|reflexivity].
    apply Qnot_le_lt. intros H. apply Qle_bool_iff in H. congruence.
Qed.

(** The two bitmap tests of the spec are complementary. *)
Lemma bitmap_tests_complementary bs anz vl vd :
  GB_convert_bitmap_to_sparse_test bs anz vl vd
  = negb (GB_convert_sparse_to_bitmap_test bs anz vl vd).
Proof. reflexivity. Qed.


Lemma converts_to_refl (P : GB_format -> Prop) A :
  GB_matrix_ok A -> P (format A) -> converts_to P A A.
Proof. intros H HP. split; [|split]; auto. Qed.

Lemma converts_to_weaken (P Q : GB_format -> Prop) A A' :
  (forall f, P f -> Q f) -> converts_to P A A' -> converts_to Q A A'.
Proof. intros PQ (H1 & H2 & H3). split; [|split]; auto. Qed.

Lemma converts_to_trans (P Q : GB_format -> Prop) A B C :
  converts_to P A B -> converts_to Q B C -> converts_to Q A C.
Proof.
  intros (H1 & H2 & H3) (K1 & K2 & K3). split; [|split]; auto.
  eapply Permutation_trans; eauto.
Qed.

Context {GB_Context : Type} {cv : GB_converters GB_Context}.

(** A successful [GB_OK] sequence: the method succeeded and so did the
    rest. *)
Lemma GB_OK_success r k A' :
  GB_OK r k = (GrB_SUCCESS, A') ->
  exists B, r = (GrB_SUCCESS, B) /\ k B = (GrB_SUCCESS, A').
Proof.
  unfold GB_OK. destruct r as [info B].
  destruct info; try discriminate. eauto.
Qed.

(** The info of a [GB_OK] sequence is the method's, or the rest's. *)
Lemma GB_OK_info r k :
  fst (GB_OK r k) = fst r \/
  (fst r = GrB_SUCCESS /\ fst (GB_OK r k) = fst (k (snd r))).
Proof.
  unfold GB_OK. destruct r as [info B].
  destruct info; simpl; auto.
Qed.

Lemma return_SUCCESS_inv A A' :
  return_SUCCESS A = (GrB_SUCCESS, A') -> A' = A.
Proof. unfold return_SUCCESS. congruence. Qed.

Context {ok : GB_converters_ok cv}.

(** [GB_conform_hyper] after a step that left the matrix sparse or
    hypersparse. *)
Lemma conform_hyper_after (P : GB_format -> Prop) A B Context A' :
  converts_to P A B -> (forall f, P f -> hyper_or_sparse f) ->
  GB_conform_hyper B Context = (GrB_SUCCESS, A') ->
  converts_to hyper_or_sparse A A'.
Proof.
  intros (V & F & Pm) PH H.
  apply conform_hyper_ok in H; auto.
  eapply converts_to_trans; [|exact H].
  split; [|split]; eauto.
Qed.

(** Take a successful run apart: each [GB_OK] step yields the matrix it
    produced, each converter call the promise of the spec. *)
Ltac step :=
  match goal with
  | H : GB_OK _ _ = (GrB_SUCCESS, _) |- _ =>
      let B := fresh "B" in let E := fresh "E" in
      apply GB_OK_success in H; destruct H as (B & E & H)
  | H : return_SUCCESS _ = (GrB_SUCCESS, _) |- _ =>
      apply return_SUCCESS_inv in H; subst
  | H : GB_convert_any_to_hyper ?A _ = (GrB_SUCCESS, _), V : GB_matrix_ok ?A
    |- _ => apply (any_to_hyper_ok _ _ _ V) in H
  | H : GB_convert_any_to_sparse ?A _ = (GrB_SUCCESS, _), V : GB_matrix_ok ?A
    |- _ => apply (any_to_sparse_ok _ _ _ V) in H
  | H : GB_convert_any_to_bitmap ?A _ = (GrB_SUCCESS, _), V : GB_matrix_ok ?A
    |- _ => apply (any_to_bitmap_ok _ _ _ V) in H
  | H : GB_convert_bitmap_to_sparse ?A _ = (GrB_SUCCESS, _),
    V : GB_matrix_ok ?A, F : format ?A = Bitmap
    |- _ => apply (bitmap_to_sparse_ok _ _ _ V F) in H
  | H : GB_conform_hyper ?A _ = (GrB_SUCCESS, _),
    V : GB_matrix_ok ?A, F : format ?A = _
    |- _ => apply (conform_hyper_ok _ _ _ V) in H;
            [|rewrite F; unfold hyper_or_sparse; auto; fail]
  | H : GB_conform_hyper ?B _ = (GrB_SUCCESS, _),
    E : converts_to (eq Sparse) _ ?B
    |- _ => apply (conform_hyper_after _ _ _ _ _ E) in H;
            [|intros ? <-; unfold hyper_or_sparse; auto]
  end.

Ltac flags A :=
  unfold GB_IS_HYPERSPARSE, GB_IS_SPARSE, GB_IS_BITMAP, GB_IS_FULL in *;
  destruct (format A) eqn:?; simpl in *.

(** Close a case: the matrix produced (or left alone) is in one of the
    formats [P] allows. *)
Ltac conclude P :=
  match goal with
  | E : converts_to (eq _) ?A ?B |- converts_to _ ?A ?B /\ _ =>
      let V' := fresh "V'" in let F := fresh "F" in let Pm := fresh "Pm" in
      destruct E as (V' & F & Pm);
      split; [split; [|split]; auto; rewrite <- F; unfold P; auto
             |rewrite <- F; intuition congruence]
  | Hf : format ?A = _ |- converts_to _ ?A ?A /\ _ =>
      split; [apply converts_to_refl; auto; rewrite Hf; unfold P; auto
             |rewrite Hf; intuition congruence]
  end.

Lemma GB_hyper_or_bitmap_ok A Context A' :
  GB_matrix_ok A ->
  GB_hyper_or_bitmap (GB_IS_HYPERSPARSE A) (GB_IS_SPARSE A)
    (GB_IS_BITMAP A) (GB_IS_FULL A) A Context = (GrB_SUCCESS, A') ->
  converts_to hyper_or_bitmap A A' /\
  (format A' = Bitmap <->
   format A = Full \/
   GB_convert_sparse_to_bitmap_test (bitmap_switch A) (GB_NNZ A)
     (vlen A) (vdim A) = true).
Proof.
  intros V H. unfold GB_hyper_or_bitmap in H.
  rewrite bitmap_tests_complementary in H.
  destruct (GB_convert_sparse_to_bitmap_test _ _ _ _) eqn:T;
    flags A; repeat step; conclude hyper_or_bitmap.
Qed.

Lemma GB_sparse_or_bitmap_ok A Context A' :
  GB_matrix_ok A ->
  GB_sparse_or_bitmap (GB_IS_HYPERSPARSE A) (GB_IS_SPARSE A)
    (GB_IS_BITMAP A) (GB_IS_FULL A) A Context = (GrB_SUCCESS, A') ->
  converts_to sparse_or_bitmap A A' /\
  (format A' = Bitmap <->
   format A = Full \/
   GB_convert_sparse_to_bitmap_test (bitmap_switch A) (GB_NNZ A)
     (vlen A) (vdim A) = true).
Proof.
  intros V H. unfold GB_sparse_or_bitmap in H.
  rewrite bitmap_tests_complementary in H.
  destruct (GB_convert_sparse_to_bitmap_test _ _ _ _) eqn:T;
    flags A; repeat step; conclude sparse_or_bitmap.
Qed.

Lemma GB_hyper_sparse_or_bitmap_ok A Context A' :
  GB_matrix_ok A ->
  GB_hyper_sparse_or_bitmap (GB_IS_HYPERSPARSE A) (GB_IS_SPARSE A)
    (GB_IS_BITMAP A) (GB_IS_FULL A) A Context = (GrB_SUCCESS, A') ->
  converts_to not_full A A'.
Proof.
  intros V H. unfold GB_hyper_sparse_or_bitmap in H.
  rewrite bitmap_tests_complementary in H.
  assert (HS : forall f, hyper_or_sparse f -> not_full f)
    by (unfold hyper_or_sparse, not_full; tauto).
  assert (BM : forall f, Bitmap = f -> not_full f)
    by (unfold not_full; auto).
  assert (SP : forall f, Sparse = f -> hyper_or_sparse f)
    by (unfold hyper_or_sparse; auto).
  destruct (GB_convert_sparse_to_bitmap_test _ _ _ _) eqn:T;
    flags A; repeat step;
    try (eapply converts_to_weaken; [exact BM|eassumption]);
    try (eapply converts_to_weaken; [exact HS|eassumption]);
    try (apply converts_to_refl; [assumption|unfold not_full; auto]).
Qed.

Lemma any_to_full_step A A' :
  GB_matrix_ok A -> is_full_or_dense_with_no_pending_work A = true ->
  A' = GB_convert_any_to_full A -> converts_to (eq Full) A A'.
Proof. intros V D ->. now apply any_to_full_ok. Qed.

Lemma not_dense_not_full A :
  is_full_or_dense_with_no_pending_work A = false -> format A <> Full.
Proof.
  unfold is_full_or_dense_with_no_pending_work, GB_IS_FULL.
  intros D F. rewrite F in D. discriminate.
Qed.

(** What a successful GB_conform leaves, arm by arm of the switch. *)
Lemma GB_conform_converts A Context A' :
  GB_matrix_ok A -> 1 <= sparsity A <= 15 ->
  GB_conform A Context = (GrB_SUCCESS, A') ->
  converts_to (format_in (effective_policy (sparsity A))) A A'.
Proof.
  intros V R H. unfold GB_conform, GB_conform_default in H.
  unfold GxB_HYPERSPARSE, GxB_SPARSE, GxB_BITMAP, GxB_FULL,
    GxB_AUTO_SPARSITY in H.
  assert (Hs : sparsity A = 1 \/ sparsity A = 2 \/ sparsity A = 3 \/
               sparsity A = 4 \/ sparsity A = 5 \/ sparsity A = 6 \/
               sparsity A = 7 \/ sparsity A = 8 \/ sparsity A = 9 \/
               sparsity A = 10 \/ sparsity A = 11 \/ sparsity A = 12 \/
               sparsity A = 13 \/ sparsity A = 14 \/ sparsity A = 15)
    by lia.
  repeat (destruct Hs as [Hs|Hs]).
  all: rewrite Hs in H |- *;
       cbn [Z.eqb Pos.eqb Z.add Pos.add Pos.succ orb] in H.
  all: try (destruct (is_full_or_dense_with_no_pending_work A) eqn:D;
            [|pose proof (not_dense_not_full A D)]).
  all: repeat step.
  all: try match goal with
         | E : GB_hyper_or_bitmap _ _ _ _ _ _ = _ |- _ =>
             apply GB_hyper_or_bitmap_ok in E; [destruct E as [E _]|assumption]
         | E : GB_sparse_or_bitmap _ _ _ _ _ _ = _ |- _ =>
             apply GB_sparse_or_bitmap_ok in E; [destruct E as [E _]|assumption]
         | E : GB_hyper_sparse_or_bitmap _ _ _ _ _ _ = _ |- _ =>
             apply GB_hyper_sparse_or_bitmap_ok in E; [|assumption]
         end.
  all: try (eapply converts_to_weaken; [|eapply any_to_full_step; eauto];
            intros ? <-; vm_compute; discriminate).
  all: flags A; try congruence; repeat step.
  all: match goal with
       | E : converts_to _ ?A ?B |- converts_to _ ?A ?B =>
           eapply converts_to_weaken; [|exact E]
       end.
  all: unfold hyper_or_sparse, hyper_or_bitmap, sparse_or_bitmap, not_full.
  all: intros f Hf; unfold format_in;
       repeat match goal with
         | Hf : _ \/ _ |- _ => destruct Hf as [Hf|Hf]
         end; subst f; vm_compute; discriminate.
Qed.

(** *** Which format is left, arm by arm *)



End Conform_facts.

(** ** The model of the converters keeps the promises of the spec *)

Section SpecModel_facts.

Import Conform Conform.SpecModel.

Lemma insert_tuple_perm t l : Permutation (insert_tuple t l) (t :: l).
Proof.
  induction l as [|u l IH]; simpl; [reflexivity|].
  destruct (tuple_leb t u); [reflexivity|].
  rewrite IH. apply perm_swap.
Qed.

Lemma sort_tuples_perm l : Permutation (sort_tuples l) l.
Proof.
  induction l as [|t l IH]; simpl; [reflexivity|].
  rewrite insert_tuple_perm. now constructor.
Qed.

Lemma filter_all {X} (f : X -> bool) l :
  Forall (fun t => f t = true) l -> filter f l = l.
Proof.
  induction 1 as [|t l Ht _ IH]; simpl; [reflexivity|].
  rewrite Ht. now f_equal.
Qed.

Lemma no_zombies_all_live l :
  List.length (filter GB_IS_ZOMBIE l) = O ->
  Forall (fun t => negb (GB_IS_ZOMBIE t) = true) l.
Proof.
  induction l as [|t l IH]; simpl; intros H; constructor.
  - destruct (GB_IS_ZOMBIE t); [discriminate|reflexivity].
  - destruct (GB_IS_ZOMBIE t); [discriminate|auto].
Qed.

Lemma all_live_no_zombies l :
  Forall (fun t => negb (GB_IS_ZOMBIE t) = true) l ->
  filter GB_IS_ZOMBIE l = [].
Proof.
  induction 1 as [|t l Ht _ IH]; simpl; [reflexivity|].
  apply negb_true_iff in Ht. now rewrite Ht.
Qed.

Lemma live_all_live A :
  GB_matrix_ok A -> Forall (fun t => negb (GB_IS_ZOMBIE t) = true) (live A).
Proof.
  intros V. unfold live. apply Forall_app. split.
  - apply Forall_forall. intros t Ht. now apply filter_In in Ht.
  - eapply Forall_impl; [|apply (ok_pending A V)].
    intros t [Hr _]. unfold GB_IS_ZOMBIE.
    apply negb_true_iff, Z.ltb_ge. lia.
Qed.

Lemma live_stored_ok A : GB_matrix_ok A -> Forall (stored_ok A) (live A).
Proof.
  intros V. unfold live. apply Forall_app. split.
  - apply Forall_forall. intros t Ht. apply filter_In in Ht.
    destruct Ht as [Ht _].
    exact (proj1 (Forall_forall _ _) (ok_entries A V) t Ht).
  - eapply Forall_impl; [|apply (ok_pending A V)].
    intros t [Hr Hc]. split; [lia|assumption].
Qed.

(** A matrix without zombies and pending tuples: its live entries are
    its stored tuples. *)
Lemma live_clean A :
  nzombies A = 0 -> Pending A = [] -> live A = entries A.
Proof.
  intros Z P. unfold live. rewrite P, app_nil_r.
  apply filter_all, no_zombies_all_live. unfold nzombies in Z. lia.
Qed.

Lemma live_full A :
  GB_matrix_ok A -> format A = Full ->
  Z.of_nat (List.length (live A)) = vlen A * vdim A.
Proof.
  intros V F. destruct (ok_clean A V (or_intror F)) as (Z & _ & P).
  rewrite live_clean by assumption. now apply ok_full.
Qed.

Lemma set_content_ok A f e :
  GB_matrix_ok A -> Forall (stored_ok A) e ->
  Forall (fun t => negb (GB_IS_ZOMBIE t) = true) e ->
  (f = Full -> Z.of_nat (List.length e) = vlen A * vdim A) ->
  GB_matrix_ok (set_content A f e).
Proof.
  intros V S L F. constructor; simpl;
    try (now destruct V); auto.
  intros _. unfold nzombies. simpl.
  now rewrite all_live_no_zombies.
Qed.

Lemma live_set_content A f e :
  Forall (fun t => negb (GB_IS_ZOMBIE t) = true) e ->
  live (set_content A f e) = e.
Proof.
  intros L. unfold live. simpl. rewrite app_nil_r. now apply filter_all.
Qed.

Lemma finish_pending_work_ok A :
  GB_matrix_ok A ->
  GB_matrix_ok (finish_pending_work A) /\
  Permutation (live (finish_pending_work A)) (live A).
Proof.
  intros V. unfold finish_pending_work.
  assert (L : Forall (fun t => negb (GB_IS_ZOMBIE t) = true)
                (sort_tuples (live A))).
  { eapply Permutation_Forall; [symmetry; apply sort_tuples_perm|].
    now apply live_all_live. }
  split.
  - apply set_content_ok; auto.
    + eapply Permutation_Forall; [symmetry; apply sort_tuples_perm|].
      now apply live_stored_ok.
    + intros F. rewrite (Permutation_length (sort_tuples_perm _)).
      now apply live_full.
  - rewrite live_set_content by assumption. apply sort_tuples_perm.
Qed.

Lemma set_format_ok A f :
  GB_matrix_ok A ->
  (f = Bitmap \/ f = Full ->
   nzombies A = 0 /\ jumbled A = false /\ Pending A = []) ->
  (f = Full -> Z.of_nat (List.length (entries A)) = vlen A * vdim A) ->
  GB_matrix_ok (set_format A f).
Proof.
  intros V C F. constructor; simpl; try (now destruct V); auto.
Qed.

Lemma finish_pending_work_clean A :
  GB_matrix_ok A ->
  nzombies (finish_pending_work A) = 0 /\
  jumbled (finish_pending_work A) = false /\
  Pending (finish_pending_work A) = [].
Proof.
  intros V. split; [|split]; try reflexivity.
  unfold nzombies, finish_pending_work. simpl.
  rewrite all_live_no_zombies; [reflexivity|].
  eapply Permutation_Forall; [symmetry; apply sort_tuples_perm|].
  now apply live_all_live.
Qed.

Lemma GB_convert_any_to_ok f size A Context A' :
  f <> Full -> GB_matrix_ok A ->
  GB_convert_any_to f size A Context = (GrB_SUCCESS, A') ->
  converts_to (eq f) A A'.
Proof.
  intros NF V H. unfold GB_convert_any_to in H.
  destruct (finish_pending_work_ok A V) as [V1 P1].
  destruct (GB_format_eqb _ f) eqn:E.
  - injection H as <-. apply GB_format_eqb_eq in E.
    split; [|split]; auto.
  - destruct (GB_malloc_ok _ _); [|discriminate]. injection H as <-.
    split; [|split]; auto.
    apply set_format_ok; auto; [|congruence].
    intros _. now apply finish_pending_work_clean.
Qed.

Lemma dense_live_length A :
  GB_matrix_ok A -> is_full_or_dense_with_no_pending_work A = true ->
  Z.of_nat (List.length (live A)) = vlen A * vdim A.
Proof.
  intros V D. unfold is_full_or_dense_with_no_pending_work in D.
  destruct (GB_IS_FULL A) eqn:F.
  - apply GB_format_eqb_eq in F. now apply live_full.
  - simpl in D. repeat (apply andb_prop in D; destruct D as [D ?]).
    unfold GB_is_dense in D. rewrite F in D. simpl in D.
    apply Z.eqb_eq in D.
    unfold GB_ZOMBIES, GB_PENDING, n_pending in *.
    rewrite negb_true_iff, Z.ltb_ge in *.
    assert (Z : nzombies A = 0) by (unfold nzombies in *; lia).
    assert (P : Pending A = []) by (destruct (Pending A); [auto|simpl in *; lia]).
    rewrite live_clean by assumption.
    unfold GB_NNZ, GB_IS_FULL in *. destruct (format A); auto; discriminate.
Qed.

Lemma GB_convert_any_to_full_ok A :
  GB_matrix_ok A -> is_full_or_dense_with_no_pending_work A = true ->
  converts_to (eq Full) A (GB_convert_any_to_full A).
Proof.
  intros V D. unfold GB_convert_any_to_full.
  destruct (finish_pending_work_ok A V) as [V1 P1].
  split; [|split]; auto.
  apply set_format_ok; auto.
  - intros _. now apply finish_pending_work_clean.
  - intros _. unfold finish_pending_work. simpl.
    rewrite (Permutation_length (sort_tuples_perm _)).
    now apply dense_live_length.
Qed.

Lemma set_format_sparse_ok A f :
  GB_matrix_ok A -> hyper_or_sparse f -> converts_to (eq f) A (set_format A f).
Proof.
  intros V [-> | ->]; (split; [|split]; auto;
    apply set_format_ok; auto; intuition discriminate).
Qed.

#[export] Instance SpecModel_converters_ok : GB_converters_ok converters.
Proof.
  constructor; simpl.
  - intros A Context A' V. apply GB_convert_any_to_ok; auto; discriminate.
  - intros A Context A' V. apply GB_convert_any_to_ok; auto; discriminate.
  - intros A Context A' V. apply GB_convert_any_to_ok; auto; discriminate.
  - intros A Context A' V F H. unfold GB_convert_bitmap_to_sparse in H.
    destruct (GB_malloc_ok _ _); [|discriminate]. injection H as <-.
    apply set_format_sparse_ok; auto. now right.
  - intros A Context A' V F H. unfold GB_conform_hyper,
      GB_convert_hyper_to_sparse, GB_convert_sparse_to_hyper in H.
    repeat match type of H with
      | context [if ?c then _ else _] => destruct c
      end; try discriminate; injection H as <-.
    + eapply converts_to_weaken;
        [|apply (set_format_sparse_ok A Sparse V); now right].
      intros ? <-. now right.
    + eapply converts_to_weaken;
        [|apply (set_format_sparse_ok A Hypersparse V); now left].
      intros ? <-. now left.
    + now apply converts_to_refl.
  - apply GB_convert_any_to_full_ok.
Qed.

End SpecModel_facts.

(** ** GB_conform: the info returned, the last arm, sample matrices *)

Section Conform_info_facts.

Import Conform.

Context {GB_Context : Type} {cv : GB_converters GB_Context}.

Lemma info_ok_GB_OK r k :
  info_ok (fst r) -> (forall B, info_ok (fst (k B))) ->
  info_ok (fst (GB_OK r k)).
Proof.
  intros Hr Hk. destruct (GB_OK_info r k) as [E|[_ E]]; rewrite E; auto.
Qed.

Lemma info_ok_return A : info_ok (fst (return_SUCCESS A)).
Proof. now left. Qed.

Lemma info_ok_any_to_hyper A Context :
  info_ok (fst (GB_convert_any_to_hyper A Context)).
Proof. right. exists A, Context. auto. Qed.

Lemma info_ok_any_to_sparse A Context :
  info_ok (fst (GB_convert_any_to_sparse A Context)).
Proof. right. exists A, Context. auto. Qed.

Lemma info_ok_any_to_bitmap A Context :
  info_ok (fst (GB_convert_any_to_bitmap A Context)).
Proof. right. exists A, Context. auto. Qed.

Lemma info_ok_bitmap_to_sparse A Context :
  info_ok (fst (GB_convert_bitmap_to_sparse A Context)).
Proof. right. exists A, Context. auto 6. Qed.

Lemma info_ok_conform_hyper A Context :
  info_ok (fst (GB_conform_hyper A Context)).
Proof. right. exists A, Context. auto 6. Qed.

Ltac info_ok :=
  repeat first
    [ apply info_ok_return | apply info_ok_any_to_hyper
    | apply info_ok_any_to_sparse | apply info_ok_any_to_bitmap
    | apply info_ok_bitmap_to_sparse | apply info_ok_conform_hyper
    | apply info_ok_GB_OK | intro
    | match goal with |- context [if ?c then _ else _] => destruct c end ].

Lemma info_ok_hyper_or_bitmap h s b f A Context :
  info_ok (fst (GB_hyper_or_bitmap h s b f A Context)).
Proof. unfold GB_hyper_or_bitmap. info_ok. Qed.

Lemma info_ok_sparse_or_bitmap h s b f A Context :
  info_ok (fst (GB_sparse_or_bitmap h s b f A Context)).
Proof. unfold GB_sparse_or_bitmap. info_ok. Qed.

Lemma info_ok_hyper_sparse_or_bitmap h s b f A Context :
  info_ok (fst (GB_hyper_sparse_or_bitmap h s b f A Context)).
Proof. unfold GB_hyper_sparse_or_bitmap. info_ok. Qed.

(** GB_conform returns [GrB_SUCCESS] or what a converter returned. *)
Lemma info_ok_GB_conform A Context : info_ok (fst (GB_conform A Context)).
Proof.
  unfold GB_conform, GB_conform_default.
  repeat first
    [ apply info_ok_hyper_or_bitmap | apply info_ok_sparse_or_bitmap
    | apply info_ok_hyper_sparse_or_bitmap | progress info_ok ].
Qed.

(** Outside 1..14 the switch takes its last arm. *)
Lemma GB_conform_last_arm A Context :
  ~ (1 <= sparsity A <= 14) ->
  GB_conform A Context = GB_conform_default A Context.
Proof.
  intros R. unfold GB_conform.
  unfold GxB_HYPERSPARSE, GxB_SPARSE, GxB_BITMAP, GxB_FULL.
  repeat match goal with
    | |- context [?a =? ?b] =>
        destruct (Z.eqb_spec a b) as [Hs|_]; [exfalso; lia|]
    end.
  reflexivity.
Qed.

Lemma dense_flag A :
  format A = Full \/
  (GB_NNZ A = vlen A * vdim A /\ nzombies A = 0 /\
   jumbled A = false /\ n_pending A = 0) ->
  is_full_or_dense_with_no_pending_work A = true.
Proof.
  unfold is_full_or_dense_with_no_pending_work, GB_is_dense, GB_ZOMBIES,
    GB_JUMBLED, GB_PENDING, GB_IS_FULL.
  intros [F|(N & Z & J & P)].
  - rewrite F. reflexivity.
  - rewrite N, Z, J, P, Z.eqb_refl. simpl.
    rewrite orb_true_r. simpl. apply orb_true_r.
Qed.

End Conform_info_facts.

Section Samples_facts.

Import Conform Conform.SpecModel Conform.Samples.

Lemma stored_okb_ok A l :
  forallb (stored_okb A) l = true -> Forall (stored_ok A) l.
Proof.
  intros H. apply Forall_forall. intros t Ht.
  apply (proj1 (forallb_forall _ _) H) in Ht.
  unfold stored_okb in Ht. unfold stored_ok.
  repeat (apply andb_prop in Ht; destruct Ht as [Ht ?]). lia.
Qed.

Lemma pending_okb_ok A l :
  forallb (pending_okb A) l = true -> Forall (pending_ok A) l.
Proof.
  intros H. apply Forall_forall. intros t Ht.
  apply (proj1 (forallb_forall _ _) H) in Ht.
  unfold pending_okb in Ht. unfold pending_ok.
  repeat (apply andb_prop in Ht; destruct Ht as [Ht ?]). lia.
Qed.

(** A sparse or hypersparse sample is valid when its indices and
    switches are. *)
Lemma sample_ok A :
  hyper_or_sparse (format A) ->
  (0 <=? vlen A) && (0 <=? vdim A) &&
  Qlt_bool 0 (bitmap_switch A) && Qle_bool (bitmap_switch A) 1 &&
  Qlt_bool 0 (hyper_switch A) && Qle_bool (hyper_switch A) 1 &&
  forallb (stored_okb A) (entries A) &&
  forallb (pending_okb A) (Pending A) = true ->
  GB_matrix_ok A.
Proof.
  intros F H.
  repeat (apply andb_prop in H; destruct H as [H ?]).
  constructor; try lia.
  - split; [now apply Qlt_bool_iff|now apply Qle_bool_iff].
  - split; [now apply Qlt_bool_iff|now apply Qle_bool_iff].
  - now apply stored_okb_ok.
  - now apply pending_okb_ok.
  - destruct F as [F|F]; rewrite F; intros [?|?]; discriminate.
  - destruct F as [F|F]; rewrite F; discriminate.
Qed.

Lemma one_entry_ok P : GB_matrix_ok (one_entry P Sparse).
Proof. apply sample_ok; [now right|reflexivity]. Qed.


Lemma dense_10x10_ok P : GB_matrix_ok (dense_10x10 P).
Proof. apply sample_ok; [now right|reflexivity]. Qed.

End Samples_facts.

(** ** GB_conform and the live entries, duplicates resolved *)

Section Entries_facts.

Import Conform Entries.

Lemma keeps_to_refl (P : GB_format -> Prop) A :
  matrix_valid A -> P (format A) -> keeps_to P A A.
Proof. intros H HP. split; [|split]; auto. Qed.

Lemma keeps_to_weaken (P Q : GB_format -> Prop) A A' :
  (forall f, P f -> Q f) -> keeps_to P A A' -> keeps_to Q A A'.
Proof. intros PQ (H1 & H2 & H3). split; [|split]; auto. Qed.

Lemma keeps_to_trans (P Q : GB_format -> Prop) A B C :
  keeps_to P A B -> keeps_to Q B C -> keeps_to Q A C.
Proof.
  intros (H1 & H2 & H3) (K1 & K2 & K3). split; [|split]; auto.
  eapply Permutation_trans; eauto.
Qed.

Context {GB_Context : Type} {cv : GB_converters GB_Context}.

Context {keep : GB_converters_keep cv}.

(** [GB_conform_hyper] after a step that left the matrix sparse or
    hypersparse. *)
Lemma conform_hyper_after_kept (P : GB_format -> Prop) A B Context A' :
  keeps_to P A B -> (forall f, P f -> hyper_or_sparse f) ->
  GB_conform_hyper B Context = (GrB_SUCCESS, A') ->
  keeps_to hyper_or_sparse A A'.
Proof.
  intros (V & F & Pm) PH H.
  apply conform_hyper_keep in H; auto.
  eapply keeps_to_trans; [|exact H].
  split; [|split]; eauto.
Qed.

(** Take a successful run apart: each [GB_OK] step yields the matrix it
    produced, each converter call the promise of the spec. *)
Ltac kept :=
  match goal with
  | H : GB_OK _ _ = (GrB_SUCCESS, _) |- _ =>
      let B := fresh "B" in let E := fresh "E" in
      apply GB_OK_success in H; destruct H as (B & E & H)
  | H : return_SUCCESS _ = (GrB_SUCCESS, _) |- _ =>
      apply return_SUCCESS_inv in H; subst
  | H : GB_convert_any_to_hyper ?A _ = (GrB_SUCCESS, _), V : matrix_valid ?A
    |- _ => apply (any_to_hyper_keep _ _ _ V) in H
  | H : GB_convert_any_to_sparse ?A _ = (GrB_SUCCESS, _), V : matrix_valid ?A
    |- _ => apply (any_to_sparse_keep _ _ _ V) in H
  | H : GB_convert_any_to_bitmap ?A _ = (GrB_SUCCESS, _), V : matrix_valid ?A
    |- _ => apply (any_to_bitmap_keep _ _ _ V) in H
  | H : GB_convert_bitmap_to_sparse ?A _ = (GrB_SUCCESS, _),
    V : matrix_valid ?A, F : format ?A = Bitmap
    |- _ => apply (bitmap_to_sparse_keep _ _ _ V F) in H
  | H : GB_conform_hyper ?A _ = (GrB_SUCCESS, _),
    V : matrix_valid ?A, F : format ?A = _
    |- _ => apply (conform_hyper_keep _ _ _ V) in H;
            [|rewrite F; unfold hyper_or_sparse; auto; fail]
  | H : GB_conform_hyper ?B _ = (GrB_SUCCESS, _),
    E : keeps_to (eq Sparse) _ ?B
    |- _ => apply (conform_hyper_after_kept _ _ _ _ _ E) in H;
            [|intros ? <-; unfold hyper_or_sparse; auto]
  end.

Ltac flags A :=
  unfold GB_IS_HYPERSPARSE, GB_IS_SPARSE, GB_IS_BITMAP, GB_IS_FULL in *;
  destruct (format A) eqn:?; simpl in *.

(** Close a case: the matrix produced (or left alone) is in one of the
    formats [P] allows. *)
Ltac concluded P :=
  match goal with
  | E : keeps_to (eq _) ?A ?B |- keeps_to _ ?A ?B /\ _ =>
      let V' := fresh "V'" in let F := fresh "F" in let Pm := fresh "Pm" in
      destruct E as (V' & F & Pm);
      split; [split; [|split]; auto; rewrite <- F; unfold P; auto
             |rewrite <- F; intuition congruence]
  | Hf : format ?A = _ |- keeps_to _ ?A ?A /\ _ =>
      split; [apply keeps_to_refl; auto; rewrite Hf; unfold P; auto
             |rewrite Hf; intuition congruence]
  end.

Lemma GB_hyper_or_bitmap_keeps A Context A' :
  matrix_valid A ->
  GB_hyper_or_bitmap (GB_IS_HYPERSPARSE A) (GB_IS_SPARSE A)
    (GB_IS_BITMAP A) (GB_IS_FULL A) A Context = (GrB_SUCCESS, A') ->
  keeps_to hyper_or_bitmap A A' /\
  (format A' = Bitmap <->
   format A = Full \/
   GB_convert_sparse_to_bitmap_test (bitmap_switch A) (GB_NNZ A)
     (vlen A) (vdim A) = true).
Proof.
  intros V H. unfold GB_hyper_or_bitmap in H.
  rewrite bitmap_tests_complementary in H.
  destruct (GB_convert_sparse_to_bitmap_test _ _ _ _) eqn:T;
    flags A; repeat kept; concluded hyper_or_bitmap.
Qed.

Lemma GB_sparse_or_bitmap_keeps A Context A' :
  matrix_valid A ->
  GB_sparse_or_bitmap (GB_IS_HYPERSPARSE A) (GB_IS_SPARSE A)
    (GB_IS_BITMAP A) (GB_IS_FULL A) A Context = (GrB_SUCCESS, A') ->
  keeps_to sparse_or_bitmap A A' /\
  (format A' = Bitmap <->
   format A = Full \/
   GB_convert_sparse_to_bitmap_test (bitmap_switch A) (GB_NNZ A)
     (vlen A) (vdim A) = true).
Proof.
  intros V H. unfold GB_sparse_or_bitmap in H.
  rewrite bitmap_tests_complementary in H.
  destruct (GB_convert_sparse_to_bitmap_test _ _ _ _) eqn:T;
    flags A; repeat kept; concluded sparse_or_bitmap.
Qed.

Lemma GB_hyper_sparse_or_bitmap_keeps A Context A' :
  matrix_valid A ->
  GB_hyper_sparse_or_bitmap (GB_IS_HYPERSPARSE A) (GB_IS_SPARSE A)
    (GB_IS_BITMAP A) (GB_IS_FULL A) A Context = (GrB_SUCCESS, A') ->
  keeps_to not_full A A'.
Proof.
  intros V H. unfold GB_hyper_sparse_or_bitmap in H.
  rewrite bitmap_tests_complementary in H.
  assert (HS : forall f, hyper_or_sparse f -> not_full f)
    by (unfold hyper_or_sparse, not_full; tauto).
  assert (BM : forall f, Bitmap = f -> not_full f)
    by (unfold not_full; auto).
  assert (SP : forall f, Sparse = f -> hyper_or_sparse f)
    by (unfold hyper_or_sparse; auto).
  destruct (GB_convert_sparse_to_bitmap_test _ _ _ _) eqn:T;
    flags A; repeat kept;
    try (eapply keeps_to_weaken; [exact BM|eassumption]);
    try (eapply keeps_to_weaken; [exact HS|eassumption]);
    try (apply keeps_to_refl; [assumption|unfold not_full; auto]).
Qed.

Lemma any_to_full_kept A A' :
  matrix_valid A -> is_full_or_dense_with_no_pending_work A = true ->
  A' = GB_convert_any_to_full A -> keeps_to (eq Full) A A'.
Proof. intros V D ->. now apply any_to_full_keep. Qed.

(** What a successful GB_conform leaves, arm by arm of the switch, for
    converters that keep the entries that count. *)
Lemma GB_conform_keeps A Context A' :
  matrix_valid A -> 1 <= sparsity A <= 15 ->
  GB_conform A Context = (GrB_SUCCESS, A') ->
  keeps_to (format_in (effective_policy (sparsity A))) A A'.
Proof.
  intros V R H. unfold GB_conform, GB_conform_default in H.
  unfold GxB_HYPERSPARSE, GxB_SPARSE, GxB_BITMAP, GxB_FULL,
    GxB_AUTO_SPARSITY in H.
  assert (Hs : sparsity A = 1 \/ sparsity A = 2 \/ sparsity A = 3 \/
               sparsity A = 4 \/ sparsity A = 5 \/ sparsity A = 6 \/
               sparsity A = 7 \/ sparsity A = 8 \/ sparsity A = 9 \/
               sparsity A = 10 \/ sparsity A = 11 \/ sparsity A = 12 \/
               sparsity A = 13 \/ sparsity A = 14 \/ sparsity A = 15)
    by lia.
  repeat (destruct Hs as [Hs|Hs]).
  all: rewrite Hs in H |- *;
       cbn [Z.eqb Pos.eqb Z.add Pos.add Pos.succ orb] in H.
  all: try (destruct (is_full_or_dense_with_no_pending_work A) eqn:D;
            [|pose proof (not_dense_not_full A D)]).
  all: repeat kept.
  all: try match goal with
         | E : GB_hyper_or_bitmap _ _ _ _ _ _ = _ |- _ =>
             apply GB_hyper_or_bitmap_keeps in E; [destruct E as [E _]|assumption]
         | E : GB_sparse_or_bitmap _ _ _ _ _ _ = _ |- _ =>
             apply GB_sparse_or_bitmap_keeps in E; [destruct E as [E _]|assumption]
         | E : GB_hyper_sparse_or_bitmap _ _ _ _ _ _ = _ |- _ =>
             apply GB_hyper_sparse_or_bitmap_keeps in E; [|assumption]
         end.
  all: try (eapply keeps_to_weaken; [|eapply any_to_full_kept; eauto];
            intros ? <-; vm_compute; discriminate).
  all: flags A; try congruence; repeat kept.
  all: match goal with
       | E : keeps_to _ ?A ?B |- keeps_to _ ?A ?B =>
           eapply keeps_to_weaken; [|exact E]
       end.
  all: unfold hyper_or_sparse, hyper_or_bitmap, sparse_or_bitmap, not_full.
  all: intros f Hf; unfold format_in;
       repeat match goal with
         | Hf : _ \/ _ |- _ => destruct Hf as [Hf|Hf]
         end; subst f; vm_compute; discriminate.
Qed.


(** The arm of the policy "full" alone: full exactly for a matrix that is
    full or dense without pending work, bitmap otherwise. *)
Lemma GB_conform_full_alone A Context A' :
  matrix_valid A -> sparsity A = GxB_FULL ->
  GB_conform A Context = (GrB_SUCCESS, A') ->
  format A' =
  if is_full_or_dense_with_no_pending_work A then Full else Bitmap.
Proof.
  intros V Hs H. unfold GB_conform in H. rewrite Hs in H.
  cbn [GxB_HYPERSPARSE GxB_SPARSE GxB_BITMAP GxB_FULL
       Z.eqb Pos.eqb Z.add Pos.add Pos.succ orb] in H.
  destruct (is_full_or_dense_with_no_pending_work A) eqn:D.
  - apply return_SUCCESS_inv in H. subst A'.
    destruct (any_to_full_keep A V D) as (_ & F & _). now symmetry.
  - repeat kept. destruct E as (_ & F & _). now symmetry.
Qed.

End Entries_facts.


(** ** The merging model of the converters keeps the winners *)

Section Merging_facts.

Import Conform Conform.SpecModel Entries.

Lemma same_cell_iff t u : same_cell t u = true <-> cell t = cell u.
Proof.
  unfold same_cell, cell. rewrite andb_true_iff, !Z.eqb_eq.
  split; [intros [-> ->]; reflexivity|intros E; now inversion E].
Qed.

Lemma same_cell_leb t u : same_cell t u = true -> tuple_leb t u = true.
Proof.
  unfold same_cell, tuple_leb. intros H.
  apply andb_prop in H. destruct H as [H1 H2].
  apply Z.eqb_eq in H1, H2.
  rewrite H1, H2, Z.eqb_refl, Z.leb_refl. apply orb_true_r.
Qed.

Lemma same_cell_sym t u : same_cell t u = same_cell u t.
Proof.
  unfold same_cell.
  now rewrite (Z.eqb_sym (row t)), (Z.eqb_sym (col t)).
Qed.

Lemma existsb_perm {X : Type} (f : X -> bool) l l' :
  Permutation l l' -> existsb f l = existsb f l'.
Proof.
  induction 1 as [|x l l' _ IH|x y l|l l' l'' _ IH1 _ IH2]; simpl.
  - reflexivity.
  - now rewrite IH.
  - destruct (f x), (f y); reflexivity.
  - congruence.
Qed.

(** No later tuple for the cell of [t]. *)
Lemma no_later_tuple t l :
  existsb (same_cell t) l = false <-> ~ In (cell t) (map cell l).
Proof.
  split.
  - intros E I. apply in_map_iff in I. destruct I as (u & C & I).
    assert (X : existsb (same_cell t) l = true).
    { apply existsb_exists. exists u. split; [exact I|].
      now apply same_cell_iff. }
    congruence.
  - intros N. destruct (existsb (same_cell t) l) eqn:E; [|reflexivity].
    exfalso. apply N. apply existsb_exists in E.
    destruct E as (u & I & S). apply same_cell_iff in S.
    rewrite S. now apply in_map.
Qed.

Lemma winners_incl l t : In t (winners l) -> In t l.
Proof.
  induction l as [|u l IH]; cbn [winners]; [auto|].
  destruct (existsb (same_cell u) l); simpl; intuition.
Qed.

Lemma winners_Forall (P : tuple -> Prop) l :
  Forall P l -> Forall P (winners l).
Proof.
  rewrite !Forall_forall. intros H t I. apply H. now apply winners_incl.
Qed.

(** One winner per cell. *)
Lemma winners_NoDup l : NoDup (map cell (winners l)).
Proof.
  induction l as [|t l IH]; cbn [winners]; [constructor|].
  destruct (existsb (same_cell t) l) eqn:E; [exact IH|].
  cbn [map]. constructor; [|exact IH].
  apply no_later_tuple in E. intros I. apply E.
  apply in_map_iff in I. destruct I as (u & C & I).
  rewrite <- C. apply in_map. now apply winners_incl.
Qed.

(** Without duplicates every tuple is a winner. *)
Lemma winners_id l : NoDup (map cell l) -> winners l = l.
Proof.
  induction l as [|t l IH]; cbn [winners map]; [reflexivity|].
  intros N. inversion N as [|? ? N1 N2]; subst.
  apply no_later_tuple in N1. rewrite N1. f_equal. now apply IH.
Qed.

(** Insertion places a tuple before the first tuple that is not below
    it, so it passes only tuples of other cells: the winners stay. *)
Lemma winners_insert t l :
  Permutation (winners (insert_tuple t l)) (winners (t :: l)).
Proof.
  induction l as [|u l IH]; [reflexivity|].
  cbn [insert_tuple]. destruct (tuple_leb t u) eqn:E; [reflexivity|].
  assert (Htu : same_cell t u = false).
  { destruct (same_cell t u) eqn:S; [|reflexivity].
    apply same_cell_leb in S. congruence. }
  assert (Hut : same_cell u t = false) by now rewrite same_cell_sym.
  cbn [winners] in IH |- *.
  rewrite (existsb_perm (same_cell u) _ _ (insert_tuple_perm t l)).
  cbn [existsb]. rewrite Htu, Hut. cbn [orb].
  destruct (existsb (same_cell u) l), (existsb (same_cell t) l);
    rewrite IH; try reflexivity.
  apply perm_swap.
Qed.

Lemma winners_sort l : Permutation (winners (sort_tuples l)) (winners l).
Proof.
  induction l as [|t l IH]; [reflexivity|].
  cbn [sort_tuples]. rewrite winners_insert. cbn [winners].
  rewrite (existsb_perm (same_cell t) _ _ (sort_tuples_perm l)).
  destruct (existsb (same_cell t) l); [exact IH|now constructor].
Qed.

Lemma content_no_pending A :
  matrix_valid A -> Pending A = [] -> content A = live A.
Proof.
  intros [_ N] P. unfold content, live. rewrite P, app_nil_r.
  now apply winners_id.
Qed.

Lemma dense_no_pending A :
  GB_matrix_ok A -> is_full_or_dense_with_no_pending_work A = true ->
  Pending A = [].
Proof.
  intros V D. unfold is_full_or_dense_with_no_pending_work in D.
  destruct (GB_IS_FULL A) eqn:F.
  - apply GB_format_eqb_eq in F.
    now destruct (ok_clean A V (or_intror F)) as (_ & _ & P).
  - simpl in D. repeat (apply andb_prop in D; destruct D as [D ?]).
    unfold GB_PENDING, n_pending in *.
    rewrite negb_true_iff, Z.ltb_ge in *.
    destruct (Pending A); [reflexivity|simpl in *; lia].
Qed.

Lemma set_content_valid A f e :
  GB_matrix_ok A -> Forall (stored_ok A) e ->
  Forall (fun t => negb (GB_IS_ZOMBIE t) = true) e ->
  (f = Full -> Z.of_nat (List.length e) = vlen A * vdim A) ->
  NoDup (map cell e) ->
  matrix_valid (set_content A f e).
Proof.
  intros V S L F N. split; [now apply set_content_ok|].
  simpl. now rewrite filter_all.
Qed.

Lemma set_format_valid A f :
  matrix_valid A ->
  (f = Bitmap \/ f = Full ->
   nzombies A = 0 /\ jumbled A = false /\ Pending A = []) ->
  (f = Full -> Z.of_nat (List.length (entries A)) = vlen A * vdim A) ->
  matrix_valid (set_format A f).
Proof.
  intros [V N] C F. split; [now apply set_format_ok|exact N].
Qed.

(** Finishing the pending work leaves a valid matrix without pending
    work that holds the winners, one stored entry each. *)
Lemma finish_pending_work_merges A :
  matrix_valid A ->
  (format A = Full \/ is_full_or_dense_with_no_pending_work A = true ->
   Z.of_nat (List.length (entries (Merging.finish_pending_work A)))
   = vlen A * vdim A) /\
  matrix_valid (Merging.finish_pending_work A) /\
  Permutation (content (Merging.finish_pending_work A)) (content A) /\
  (nzombies (Merging.finish_pending_work A) = 0 /\
   jumbled (Merging.finish_pending_work A) = false /\
   Pending (Merging.finish_pending_work A) = []).
Proof.
  intros VA. pose proof VA as [V N]. unfold Merging.finish_pending_work.
  assert (L : Forall (fun t => negb (GB_IS_ZOMBIE t) = true)
                (sort_tuples (content A))).
  { eapply Permutation_Forall; [symmetry; apply sort_tuples_perm|].
    apply winners_Forall. now apply live_all_live. }
  assert (S : Forall (stored_ok A) (sort_tuples (content A))).
  { eapply Permutation_Forall; [symmetry; apply sort_tuples_perm|].
    apply winners_Forall. now apply live_stored_ok. }
  assert (D : NoDup (map cell (sort_tuples (content A)))).
  { eapply Permutation_NoDup;
      [apply Permutation_map; symmetry; apply sort_tuples_perm|].
    apply winners_NoDup. }
  assert (F : format A = Full \/
              is_full_or_dense_with_no_pending_work A = true ->
              Z.of_nat (List.length (sort_tuples (content A)))
              = vlen A * vdim A).
  { intros H. rewrite (Permutation_length (sort_tuples_perm _)).
    assert (D' : is_full_or_dense_with_no_pending_work A = true).
    { destruct H as [H|H]; [|exact H]. apply dense_flag. now left. }
    rewrite content_no_pending; [now apply dense_live_length|exact VA|].
    now apply dense_no_pending. }
  split; [exact F|]. split; [|split].
  - apply set_content_valid; auto.
  - unfold content at 1. rewrite live_set_content by assumption.
    rewrite winners_sort. unfold content.
    rewrite (winners_id (winners (live A))); [reflexivity|].
    apply winners_NoDup.
  - split; [|split]; try reflexivity.
    unfold nzombies. simpl. now rewrite all_live_no_zombies.
Qed.

Lemma Merging_any_to f size A Context A' :
  f <> Full -> matrix_valid A ->
  Merging.GB_convert_any_to f size A Context = (GrB_SUCCESS, A') ->
  keeps_to (eq f) A A'.
Proof.
  intros NF V H. unfold Merging.GB_convert_any_to in H.
  destruct (finish_pending_work_merges A V) as (_ & V1 & P1 & C1).
  destruct (GB_format_eqb _ f) eqn:E.
  - injection H as <-. apply GB_format_eqb_eq in E.
    split; [|split]; auto.
  - destruct (GB_malloc_ok _ _); [|discriminate]. injection H as <-.
    split; [|split]; auto.
    apply set_format_valid; auto. congruence.
Qed.

Lemma set_format_sparse_keeps A f :
  matrix_valid A -> hyper_or_sparse f ->
  keeps_to (eq f) A (set_format A f).
Proof.
  intros V [-> | ->]; (split; [|split]; auto;
    apply set_format_valid; auto; intuition discriminate).
Qed.

#[export] Instance Merging_converters_keep
  : GB_converters_keep Merging.converters.
Proof.
  constructor.
  - intros A Context A' V. apply Merging_any_to; auto; discriminate.
  - intros A Context A' V. apply Merging_any_to; auto; discriminate.
  - intros A Context A' V. apply Merging_any_to; auto; discriminate.
  - intros A Context A' V F H. cbn in H.
    unfold GB_convert_bitmap_to_sparse in H.
    destruct (GB_malloc_ok _ _); [|discriminate]. injection H as <-.
    apply set_format_sparse_keeps; auto. now right.
  - intros A Context A' V F H. cbn in H. unfold GB_conform_hyper,
      GB_convert_hyper_to_sparse, GB_convert_sparse_to_hyper in H.
    repeat match type of H with
      | context [if ?c then _ else _] => destruct c
      end; try discriminate; injection H as <-.
    + eapply keeps_to_weaken;
        [|apply (set_format_sparse_keeps A Sparse V); now right].
      intros ? <-. now right.
    + eapply keeps_to_weaken;
        [|apply (set_format_sparse_keeps A Hypersparse V); now left].
      intros ? <-. now left.
    + now apply keeps_to_refl.
  - intros A V D.
    destruct (finish_pending_work_merges A V) as (L1 & V1 & P1 & C1).
    split; [|split]; auto.
    apply set_format_valid; auto.
Qed.

(** The samples are valid: no two stored entries for one cell. *)
Lemma duplicates_valid P : matrix_valid (duplicates P).
Proof.
  split; [apply sample_ok; [now right|reflexivity]|].
  simpl. repeat constructor. simpl. tauto.
Qed.

Lemma one_entry_valid P : matrix_valid (Samples.one_entry P Sparse).
Proof.
  split; [apply one_entry_ok|]. simpl. repeat constructor. simpl. tauto.
Qed.

End Merging_facts.

(** ** The last arm of GB_conform and the calls it makes *)

Section Calls_facts.

Import Conform Calls.

Context {GB_Context : Type} {cv : GB_converters GB_Context}.

(** The helper returns success exactly when each call it makes does, then
    with the matrix the last call left; otherwise its info is that of the
    call that failed. *)
Lemma GB_hyper_sparse_or_bitmap_run ih isp ib ifl A Context :
  let calls := GB_hyper_sparse_or_bitmap_calls ih isp ib ifl A Context in
  let r := GB_hyper_sparse_or_bitmap ih isp ib ifl A Context in
  (Forall (succeeds Context) calls ->
   r = (GrB_SUCCESS, matrix_left A Context calls)) /\
  (fst r = GrB_SUCCESS -> Forall (succeeds Context) calls) /\
  (fst r <> GrB_SUCCESS ->
   exists c, In c calls /\ fst (returned c Context) = fst r).
Proof.
  unfold GB_hyper_sparse_or_bitmap_calls, GB_hyper_sparse_or_bitmap,
    GB_OK, return_SUCCESS, matrix_left, succeeds.
  destruct (ifl || _).
  - cbn [map last returned fst snd].
    destruct (GB_convert_any_to_bitmap A Context) as [i B] eqn:E.
    split; [|split].
    + intros H. inversion H as [|? ? H1 _]; subst.
      cbn in H1. rewrite E in H1. cbn in H1. subst i. reflexivity.
    + intros H. constructor; [|constructor]. cbn. rewrite E.
      destruct i; [reflexivity|discriminate..].
    + intros H. exists (call_any_to_bitmap A). split; [now left|].
      cbn. rewrite E. destruct i; [contradiction|reflexivity..].
  - destruct ib.
    + destruct (GB_convert_bitmap_to_sparse_test _ _ _ _).
      * destruct (GB_convert_bitmap_to_sparse A Context) as [i B] eqn:E.
        assert (R1 : returned (call_bitmap_to_sparse A) Context = (i, B))
          by exact E.
        destruct i.
        2-5: (split; [|split];
              [intros H; inversion H as [|? ? H1 _]; subst;
               unfold returned in H1; rewrite E in H1; discriminate
              |cbn; discriminate
              |intros _; exists (call_bitmap_to_sparse A);
               split; [now left|now rewrite R1]]).
        destruct (GB_conform_hyper B Context) as [i' B'] eqn:E'.
        assert (R2 : returned (call_conform_hyper B) Context = (i', B'))
          by exact E'.
        split; [|split].
        -- intros H. inversion H as [|? ? _ H2]; subst.
           inversion H2 as [|? ? H3 _]; subst.
           rewrite R2 in H3. cbn in H3. subst i'.
           cbn [map last]. now rewrite R2.
        -- intros H. constructor; [now rewrite R1|].
           constructor; [|constructor]. rewrite R2.
           destruct i'; [reflexivity|discriminate..].
        -- intros H. exists (call_conform_hyper B).
           split; [right; now left|]. rewrite R2.
           destruct i'; [contradiction|reflexivity..].
      * split; [|split]; [reflexivity|constructor|cbn; congruence].
    + cbn [map last returned fst snd].
      destruct (GB_conform_hyper A Context) as [i B] eqn:E.
      split; [|split].
      * intros H. inversion H as [|? ? H1 _]; subst.
        cbn in H1. rewrite E in H1. cbn in H1. subst i. reflexivity.
      * intros H. constructor; [|constructor]. cbn. rewrite E.
        destruct i; [reflexivity|discriminate..].
      * intros H. exists (call_conform_hyper A). split; [now left|].
        cbn. rewrite E. destruct i; [contradiction|reflexivity..].
Qed.

(** The same for the whole arm, where [GB_OK] passes the info of the
    helper on. *)
Lemma GB_conform_default_run A Context :
  let calls := GB_conform_default_calls A Context in
  let r := GB_conform_default A Context in
  (is_full_or_dense_with_no_pending_work A = false ->
   Forall (succeeds Context) calls ->
   r = (GrB_SUCCESS, matrix_left A Context calls)) /\
  (fst r = GrB_SUCCESS <-> Forall (succeeds Context) calls) /\
  (fst r <> GrB_SUCCESS ->
   exists c, In c calls /\ fst (returned c Context) = fst r).
Proof.
  unfold GB_conform_default, GB_conform_default_calls.
  destruct (is_full_or_dense_with_no_pending_work A).
  - cbn. split; [discriminate|]. split; [split; auto|congruence].
  - pose proof (GB_hyper_sparse_or_bitmap_run
                  (GB_IS_HYPERSPARSE A) (GB_IS_SPARSE A)
                  (GB_IS_BITMAP A) (GB_IS_FULL A) A Context) as (H1 & H2 & H3).
    unfold GB_OK, return_SUCCESS.
    destruct (GB_hyper_sparse_or_bitmap _ _ _ _ A Context) as [i B] eqn:E.
    cbn [fst] in H2, H3.
    split; [|split].
    + intros _ H. apply H1 in H. injection H as -> ->. reflexivity.
    + split.
      * intros H. apply H2. destruct i; [reflexivity|discriminate..].
      * intros H. apply H1 in H. injection H as -> _. reflexivity.
    + intros H. destruct i; [contradiction|..]; apply H3; discriminate.
Qed.

End Calls_facts.

(** C1 (as the code has it).  For every valid matrix whose policy [P] is
    one of the fifteen non-zero combinations, a successful GB_conform
    leaves a valid matrix whose live (non-zombie, non-duplicate-winner)
    entries are, as a multiset, those before the call, and whose format
    lies in [P] unless [P] is "full" alone; under "full" alone the format
    is full exactly for a matrix that is full or dense without pending
    work, and bitmap exactly otherwise.  The converters are any that keep
    the promises of the spec, free to merge duplicates or to leave them
    pending. *)
Theorem GB_conform_policy_and_entries :
  forall (GB_Context : Type) (cv : Conform.GB_converters GB_Context),
    Entries.GB_converters_keep cv ->
    forall (A : Conform.GrB_Matrix) (Context : GB_Context)
           (A' : Conform.GrB_Matrix),
      Entries.matrix_valid A ->
      1 <= Conform.sparsity A <= 15 ->
      Conform.GB_conform A Context = (GrB_SUCCESS, A') ->
      Entries.matrix_valid A' /\
      Permutation (Entries.content A') (Entries.content A) /\
      Conform.format_in (Conform.effective_policy (Conform.sparsity A))
                        (Conform.format A') /\
      (Conform.sparsity A <> Conform.GxB_FULL ->
       Conform.format_in (Conform.sparsity A) (Conform.format A')) /\
      (Conform.sparsity A = Conform.GxB_FULL ->
       (Conform.format A' = Conform.Full <->
        Conform.is_full_or_dense_with_no_pending_work A = true) /\
       (Conform.format A' = Conform.Bitmap <->
        Conform.is_full_or_dense_with_no_pending_work A = false)).
Proof.
  intros GB_Context cv keep A Context A' V R H.
  destruct (GB_conform_keeps A Context A' V R H) as (V' & F & C).
  split; [exact V'|]. split; [exact C|]. split; [exact F|]. split.
  - intros N. unfold Conform.effective_policy in F.
    destruct (Z.eqb_spec (Conform.sparsity A) Conform.GxB_FULL);
      [contradiction|exact F].
  - intros Hs. rewrite (GB_conform_full_alone A Context A' V Hs H).
    destruct (Conform.is_full_or_dense_with_no_pending_work A);
      split; split; congruence.
Qed.

(** The sample with duplicates: a stored entry and a pending tuple for
    the cell (0, 0), two pending tuples for the cell (1, 1), and a
    zombie.  Under {sparse, bitmap} and under "full" alone the bitmap left
    holds the two winners. *)
Lemma GB_conform_policy_and_entries_witness :
  let conform := fun A =>
    snd (Conform.GB_conform (cv := Entries.Merging.converters) A
           Conform.Samples.Context0) in
  Entries.content (Entries.duplicates 6) = [(0, 0, 6); (1, 1, 8)] /\
  Permutation (Entries.content (conform (Entries.duplicates 6)))
              (Entries.content (Entries.duplicates 6)) /\
  Conform.format_in 6 (Conform.format (conform (Entries.duplicates 6))) /\
  Permutation
    (Entries.content (conform (Entries.duplicates Conform.GxB_FULL)))
    (Entries.content (Entries.duplicates Conform.GxB_FULL)) /\
  Conform.format (conform (Entries.duplicates Conform.GxB_FULL))
  = Conform.Bitmap.
Proof.
  intros conform.
  destruct (GB_conform_policy_and_entries _ _ Merging_converters_keep
              (Entries.duplicates 6) Conform.Samples.Context0
              (conform (Entries.duplicates 6)))
    as (_ & C6 & _ & F6 & _);
    [apply duplicates_valid|simpl; lia|reflexivity|].
  destruct (GB_conform_policy_and_entries _ _ Merging_converters_keep
              (Entries.duplicates Conform.GxB_FULL) Conform.Samples.Context0
              (conform (Entries.duplicates Conform.GxB_FULL)))
    as (_ & C8 & _ & _ & F8);
    [apply duplicates_valid|unfold Conform.GxB_FULL; simpl; lia|reflexivity|].
  split; [reflexivity|]. split; [exact C6|].
  split; [apply F6; discriminate|]. split; [exact C8|].
  apply (F8 eq_refl). reflexivity.
Defined.

(** C1 as stated fails: under the policy "full" alone a matrix that is
    not fully populated is left in the bitmap format, which is not in
    the policy. *)
Lemma GB_conform_full_alone_counterexample :
  ~ (forall (GB_Context : Type) (cv : Conform.GB_converters GB_Context),
       Entries.GB_converters_keep cv ->
       forall (A : Conform.GrB_Matrix) (Context : GB_Context)
              (A' : Conform.GrB_Matrix),
         Entries.matrix_valid A ->
         Conform.GB_conform A Context = (GrB_SUCCESS, A') ->
         Conform.format_in (Conform.sparsity A) (Conform.format A') /\
         Permutation (Entries.content A') (Entries.content A)).
Proof.
  intros H.
  destruct (H _ _ Merging_converters_keep
              (Conform.Samples.one_entry Conform.GxB_FULL Conform.Sparse)
              Conform.Samples.Context0 _
              (one_entry_valid _) eq_refl) as [F _].
  apply F. reflexivity.
Qed.

(** What GB_conform does on that input: the sparse matrix with one entry
    of four cells becomes bitmap under the policy "full" alone, and also
    under {bitmap, full}. *)
Example GB_conform_full_alone_sample :
  Conform.GB_conform (cv := Conform.SpecModel.converters)
    (Conform.Samples.one_entry Conform.GxB_FULL Conform.Sparse)
    Conform.Samples.Context0
  = (GrB_SUCCESS,
     Conform.Samples.one_entry Conform.GxB_FULL Conform.Bitmap) /\
  Conform.GB_conform (cv := Conform.SpecModel.converters)
    (Conform.Samples.one_entry 12 Conform.Sparse) Conform.Samples.Context0
  = (GrB_SUCCESS, Conform.Samples.one_entry 12 Conform.Bitmap).
Proof. split; reflexivity. Qed.



(** C3.  Under AUTO a matrix that is full, or has [nnz = vlen * vdim]
    with no zombies, not jumbled and no pending tuples, is left full by
    GB_conform, which succeeds. *)
Theorem GB_conform_auto_dense :
  forall (GB_Context : Type) (cv : Conform.GB_converters GB_Context),
    Conform.GB_converters_ok cv ->
    forall (A : Conform.GrB_Matrix) (Context : GB_Context),
      Conform.GB_matrix_ok A ->
      Conform.sparsity A = Conform.GxB_AUTO_SPARSITY ->
      Conform.format A = Conform.Full \/
      (Conform.GB_NNZ A = Conform.vlen A * Conform.vdim A /\
       Conform.nzombies A = 0 /\ Conform.jumbled A = false /\
       Conform.n_pending A = 0) ->
      exists A',
        Conform.GB_conform A Context = (GrB_SUCCESS, A') /\
        Conform.format A' = Conform.Full /\
        Permutation (Conform.live A') (Conform.live A).
Proof.
  intros GB_Context cv ok A Context V Hs D.
  apply dense_flag in D.
  exists (Conform.GB_convert_any_to_full A).
  destruct (Conform.any_to_full_ok A V D) as (_ & F & P).
  split; [|split]; auto.
  rewrite GB_conform_last_arm by (rewrite Hs; unfold Conform.GxB_AUTO_SPARSITY; lia).
  unfold Conform.GB_conform_default. now rewrite D.
Qed.

(** Scenario S3: the 10-by-10 matrix with every cell set. *)
Lemma GB_conform_auto_dense_witness :
  exists A',
    Conform.GB_conform (cv := Conform.SpecModel.converters)
      (Conform.Samples.dense_10x10 15)
                       Conform.Samples.Context0 = (GrB_SUCCESS, A') /\
    Conform.format A' = Conform.Full /\
    Permutation (Conform.live A')
                (Conform.live (Conform.Samples.dense_10x10 15)).
Proof.
  apply (GB_conform_auto_dense _ _ SpecModel_converters_ok
           (Conform.Samples.dense_10x10 15) Conform.Samples.Context0
           (dense_10x10_ok _) eq_refl).
  right. repeat split; reflexivity.
Defined.

(** C10.  GB_conform rejects no value of the sparsity control: a value
    outside 1..14 (0, 15 = AUTO, or anything else) takes the last arm of
    the switch -- to full when full or dense with no pending work,
    otherwise the hypersparse/sparse/bitmap rule.  GB_conform then
    returns [GrB_SUCCESS] exactly when each converter call this run makes
    succeeds, with the matrix the last call left; any other info,
    [GrB_BAD_INPUT] included, is the info a call of this run returned. *)
Theorem GB_conform_never_rejects :
  forall (GB_Context : Type) (cv : Conform.GB_converters GB_Context)
         (A : Conform.GrB_Matrix) (Context : GB_Context),
    ~ (1 <= Conform.sparsity A <= 14) ->
    let calls := Calls.GB_conform_default_calls A Context in
    let info := fst (Conform.GB_conform A Context) in
    Conform.GB_conform A Context = Conform.GB_conform_default A Context /\
    (Conform.is_full_or_dense_with_no_pending_work A = true ->
     Conform.GB_conform A Context
     = (GrB_SUCCESS, Conform.GB_convert_any_to_full A)) /\
    (Conform.is_full_or_dense_with_no_pending_work A = false ->
     Conform.GB_conform A Context
     = Conform.GB_OK
         (Conform.GB_hyper_sparse_or_bitmap
            (Conform.GB_IS_HYPERSPARSE A) (Conform.GB_IS_SPARSE A)
            (Conform.GB_IS_BITMAP A) (Conform.GB_IS_FULL A) A Context)
         Conform.return_SUCCESS) /\
    (info = GrB_SUCCESS <-> Forall (Calls.succeeds Context) calls) /\
    (Conform.is_full_or_dense_with_no_pending_work A = false ->
     Forall (Calls.succeeds Context) calls ->
     Conform.GB_conform A Context
     = (GrB_SUCCESS, Calls.matrix_left A Context calls)) /\
    (info <> GrB_SUCCESS ->
     exists c, In c calls /\ fst (Calls.returned c Context) = info) /\
    (info = GrB_BAD_INPUT ->
     exists c, In c calls /\
               fst (Calls.returned c Context) = GrB_BAD_INPUT).
Proof.
  intros GB_Context cv A Context R calls info.
  pose proof (GB_conform_default_run A Context) as (R1 & R2 & R3).
  unfold info, calls.
  rewrite (GB_conform_last_arm A Context R).
  split; [reflexivity|].
  split; [|split; [|split; [|split; [|split]]]].
  - intros D. unfold Conform.GB_conform_default. now rewrite D.
  - intros D. unfold Conform.GB_conform_default. now rewrite D.
  - exact R2.
  - exact R1.
  - exact R3.
  - intros E. destruct R3 as (c & I & Hc); [rewrite E; discriminate|].
    exists c. split; [exact I|]. now rewrite Hc.
Qed.

(** The one-entry sample with the sparsity control 0: the one call the
    run makes, to bitmap, succeeds, and so does GB_conform; with no
    memory left the same call fails and GB_conform returns its info. *)
Lemma GB_conform_never_rejects_witness :
  let A := Conform.Samples.one_entry 0 Conform.Sparse in
  Calls.GB_conform_default_calls (cv := Conform.SpecModel.converters) A
    Conform.Samples.Context0 = [Calls.call_any_to_bitmap A] /\
  Conform.GB_conform (cv := Conform.SpecModel.converters) A
    Conform.Samples.Context0
  = (GrB_SUCCESS, Conform.Samples.one_entry 0 Conform.Bitmap) /\
  exists c,
    In c (Calls.GB_conform_default_calls
            (cv := Conform.SpecModel.converters) A
            Conform.Samples.Context_full) /\
    fst (Calls.returned (cv := Conform.SpecModel.converters) c
           Conform.Samples.Context_full) = GrB_OUT_OF_MEMORY.
Proof.
  intros A.
  destruct (GB_conform_never_rejects _ Conform.SpecModel.converters A
              Conform.Samples.Context0) as (_ & _ & _ & _ & H & _);
    [simpl; lia|].
  destruct (GB_conform_never_rejects _ Conform.SpecModel.converters A
              Conform.Samples.Context_full) as (_ & _ & _ & _ & _ & K & _);
    [simpl; lia|].
  split; [reflexivity|]. split.
  - rewrite H; [reflexivity|reflexivity|].
    constructor; [reflexivity|constructor].
  - apply K. discriminate.
Defined.

(** ** conform_hyper *)

Section conform_hyper_facts.

Import Conform Conform.SpecModel.

Lemma nvec_set_format A f :
  GB_nvec_nonempty (set_format A f) = GB_nvec_nonempty A.
Proof. reflexivity. Qed.

(** The two hyper tests of the spec are complementary. *)
Lemma hyper_tests_complementary hs k vd :
  GB_convert_sparse_to_hyper_test hs k vd
  = negb (GB_convert_hyper_to_sparse_test hs k vd).
Proof. reflexivity. Qed.

(** A matrix on which neither test fires is left alone, whatever the
    context. *)
Lemma GB_conform_hyper_stable A Context :
  GB_IS_HYPERSPARSE A &&
    GB_convert_hyper_to_sparse_test (hyper_switch A)
      (GB_nvec_nonempty A) (vdim A) = false ->
  GB_IS_SPARSE A &&
    GB_convert_sparse_to_hyper_test (hyper_switch A)
      (GB_nvec_nonempty A) (vdim A) = false ->
  GB_conform_hyper A Context = (GrB_SUCCESS, A).
Proof. intros H1 H2. unfold GB_conform_hyper. now rewrite H1, H2. Qed.

Lemma GB_conform_hyper_fixed A Context A' :
  GB_conform_hyper A Context = (GrB_SUCCESS, A') ->
  forall Context', GB_conform_hyper A' Context' = (GrB_SUCCESS, A').
Proof.
  intros H Context'. unfold GB_conform_hyper in H.
  destruct (GB_IS_HYPERSPARSE A && _) eqn:H1.
  - (* hypersparse to sparse *)
    unfold GB_convert_hyper_to_sparse in H.
    destruct (GB_malloc_ok _ _); [|discriminate]. injection H as <-.
    apply andb_prop in H1. destruct H1 as [_ T].
    apply GB_conform_hyper_stable; [reflexivity|].
    rewrite hyper_tests_complementary. simpl.
    rewrite nvec_set_format. now rewrite T.
  - destruct (GB_IS_SPARSE A && _) eqn:H2.
    + (* sparse to hypersparse *)
      unfold GB_convert_sparse_to_hyper in H.
      destruct (GB_malloc_ok _ _); [|discriminate]. injection H as <-.
      apply andb_prop in H2. destruct H2 as [_ T].
      rewrite hyper_tests_complementary in T.
      apply negb_true_iff in T.
      apply GB_conform_hyper_stable; [|reflexivity].
      simpl. now rewrite nvec_set_format.
    + injection H as <-. now apply GB_conform_hyper_stable.
Qed.

Lemma GB_conform_hyper_format A Context A' :
  GB_conform_hyper A Context = (GrB_SUCCESS, A') ->
  (format A' = Bitmap \/ format A' = Full -> A' = A) /\
  (hyper_or_sparse (format A) -> hyper_or_sparse (format A')).
Proof.
  intros H. unfold GB_conform_hyper, GB_convert_hyper_to_sparse,
    GB_convert_sparse_to_hyper in H.
  repeat match type of H with
    | context [if ?c then _ else _] => destruct c
    end; try discriminate; injection H as <-; simpl;
    unfold hyper_or_sparse; intuition discriminate.
Qed.

Lemma GB_phbix_free_idem A : GB_phbix_free (GB_phbix_free A) = GB_phbix_free A.
Proof. reflexivity. Qed.

(** A cleared matrix has no vector; with a positive switch only a matrix
    without vectors at all ([vdim = 0]) passes the hyper-to-sparse
    test. *)
Lemma cleared_test A :
  GB_matrix_ok A ->
  GB_convert_hyper_to_sparse_test (hyper_switch A) 0 (vdim A) = true ->
  vdim A = 0.
Proof.
  intros V T. unfold GB_convert_hyper_to_sparse_test in T.
  apply Qle_bool_iff in T.
  destruct (ok_hyper_switch A V) as [Hpos _].
  pose proof (ok_vdim A V) as Hv.
  destruct (Z.eq_dec (vdim A) 0) as [|N]; [assumption|exfalso].
  assert (P : (0 < hyper_switch A * inject_Z (vdim A))%Q).
  { apply Qmult_lt_0_compat; [assumption|].
    unfold Qlt. simpl. lia. }
  exact (Qlt_not_le _ _ P T).
Qed.

(** On a cleared matrix conform_hyper changes nothing. *)
Lemma GB_conform_hyper_cleared A Context :
  GB_matrix_ok A ->
  GB_malloc_ok (vdim A + 1) Context = false \/ vdim A <> 0 ->
  snd (GB_conform_hyper (GB_phbix_free A) Context) = GB_phbix_free A.
Proof.
  intros V M. unfold GB_conform_hyper.
  change (GB_IS_HYPERSPARSE (GB_phbix_free A)) with true.
  change (GB_IS_SPARSE (GB_phbix_free A)) with false.
  change (GB_nvec_nonempty (GB_phbix_free A)) with 0.
  change (hyper_switch (GB_phbix_free A)) with (hyper_switch A).
  change (vdim (GB_phbix_free A)) with (vdim A).
  cbn [andb].
  destruct (GB_convert_hyper_to_sparse_test _ _ _) eqn:T; [|reflexivity].
  apply cleared_test in T; [|assumption].
  destruct M as [M|M]; [|contradiction].
  unfold GB_convert_hyper_to_sparse.
  change (vdim (GB_phbix_free A)) with (vdim A). now rewrite M.
Qed.

(** Also when the conversion fails for lack of memory, a second
    application in the same context leaves the matrix of the first. *)
Lemma GB_conform_hyper_twice A Context :
  GB_matrix_ok A ->
  snd (GB_conform_hyper (snd (GB_conform_hyper A Context)) Context)
  = snd (GB_conform_hyper A Context).
Proof.
  intros V.
  destruct (GB_conform_hyper A Context) as [info A'] eqn:H.
  destruct (GrB_Info_eqb info GrB_SUCCESS) eqn:S.
  - destruct info; try discriminate.
    rewrite (GB_conform_hyper_fixed _ _ _ H). reflexivity.
  - unfold GB_conform_hyper in H.
    destruct (GB_IS_HYPERSPARSE A && _) eqn:H1;
      [|destruct (GB_IS_SPARSE A && _) eqn:H2].
    + unfold GB_convert_hyper_to_sparse in H.
      destruct (GB_malloc_ok _ _) eqn:M; injection H as <- <-;
        [discriminate|].
      apply GB_conform_hyper_cleared; auto.
    + unfold GB_convert_sparse_to_hyper in H.
      destruct (GB_malloc_ok _ _) eqn:M; injection H as <- <-;
        [discriminate|].
      apply GB_conform_hyper_cleared; auto. right. intros Z0.
      apply andb_prop in H2. destruct H2 as [_ T].
      apply Qlt_bool_iff in T. rewrite Z0 in T.
      unfold Qlt, GB_nvec_nonempty in T. simpl in T. lia.
    + injection H as <- <-. discriminate.
Qed.

End conform_hyper_facts.

(** C6.  One application of conform_hyper reaches a fixed point: when it
    succeeds, a second application (in any context) succeeds and leaves
    the very same matrix, because after a change of format the other
    test ([nvec >= hyper_switch * vdim] against the strict
    [nvec < hyper_switch * vdim]) cannot fire.  It never changes a matrix
    to bitmap or full: a bitmap or full result is the input itself, and a
    hypersparse or sparse input stays hypersparse or sparse.  For a valid
    matrix the second application leaves the matrix of the first also
    when a conversion fails for lack of memory. *)
Theorem GB_conform_hyper_idempotent :
  forall (A : Conform.GrB_Matrix)
         (Context : Conform.SpecModel.GB_Context_struct)
         (A' : Conform.GrB_Matrix),
    Conform.SpecModel.GB_conform_hyper A Context = (GrB_SUCCESS, A') ->
    (forall Context',
       Conform.SpecModel.GB_conform_hyper A' Context' = (GrB_SUCCESS, A')) /\
    (Conform.format A' = Conform.Bitmap \/ Conform.format A' = Conform.Full ->
     A' = A) /\
    (Conform.hyper_or_sparse (Conform.format A) ->
     Conform.hyper_or_sparse (Conform.format A')) /\
    (Conform.GB_matrix_ok A ->
     forall Context1,
       snd (Conform.SpecModel.GB_conform_hyper
              (snd (Conform.SpecModel.GB_conform_hyper A Context1)) Context1)
       = snd (Conform.SpecModel.GB_conform_hyper A Context1)).
Proof.
  intros A Context A' H. split; [|split; [|split]].
  - eapply GB_conform_hyper_fixed; eauto.
  - eapply GB_conform_hyper_format; eauto.
  - eapply GB_conform_hyper_format; eauto.
  - intros V Context1. now apply GB_conform_hyper_twice.
Qed.

(** The hypersparse sample has 3 non-empty vectors of 4 and the switch
    1/2: it becomes sparse, and stays so. *)
Lemma GB_conform_hyper_idempotent_witness :
  let A := Conform.Samples.three_vectors 15 in
  let A' := Conform.SpecModel.set_format A Conform.Sparse in
  Conform.SpecModel.GB_conform_hyper A Conform.Samples.Context0
  = (GrB_SUCCESS, A') /\
  Conform.SpecModel.GB_conform_hyper A' Conform.Samples.Context_full
  = (GrB_SUCCESS, A').
Proof.
  intros A A'.
  assert (H : Conform.SpecModel.GB_conform_hyper A Conform.Samples.Context0
              = (GrB_SUCCESS, A')) by reflexivity.
  split; [exact H|].
  apply (GB_conform_hyper_idempotent A Conform.Samples.Context0 A' H).
Defined.

(** ** GB_slice_vector *)

Section Slice_facts.

Import Int64 Slice.

Lemma in_range_index z :
  - 4 * GxB_INDEX_MAX <= z <= 4 * GxB_INDEX_MAX -> in_range z.
Proof.
  unfold GxB_INDEX_MAX, in_range, INT64_MIN, INT64_MAX. lia.
Qed.

Lemma index_max_pos : 1 <= GxB_INDEX_MAX.
Proof. unfold GxB_INDEX_MAX. lia. Qed.

(** Index arithmetic within four times [GxB_INDEX_MAX] does not wrap. *)
Ltac unwrap :=
  unfold add, sub, div in *;
  repeat rewrite wrap_small in * by (apply in_range_index; lia).

Lemma add_index a b :
  - 4 * GxB_INDEX_MAX <= a + b <= 4 * GxB_INDEX_MAX -> add a b = a + b.
Proof. intros H. unfold add. now rewrite wrap_small by now apply in_range_index. Qed.

Lemma sub_index a b :
  - 4 * GxB_INDEX_MAX <= a - b <= 4 * GxB_INDEX_MAX -> sub a b = a - b.
Proof. intros H. unfold sub. now rewrite wrap_small by now apply in_range_index. Qed.

(** The middle of two indices. *)
Lemma middle_index a b :
  0 <= a -> a <= b -> b <= 2 * GxB_INDEX_MAX ->
  div (add a b) 2 = (a + b) / 2.
Proof.
  intros Ha Hab Hb. rewrite add_index by lia. unfold div.
  rewrite Z.quot_div_nonneg by lia.
  apply wrap_small, in_range_index.
  pose proof (Z.div_pos (a + b) 2 ltac:(lia) ltac:(lia)).
  pose proof (Z.div_le_upper_bound (a + b) 2 (4 * GxB_INDEX_MAX) ltac:(lia)
                ltac:(lia)). lia.
Qed.

Lemma middle_bounds a b : a < b -> a <= (a + b) / 2 < b.
Proof.
  intros H. split.
  - apply Z.div_le_lower_bound; lia.
  - apply Z.div_lt_upper_bound; lia.
Qed.

(** Halving an interval of length below [2 ^ (n + 1)]. *)
Lemma halves a b n :
  0 <= n -> a < b -> b - a < 2 ^ (n + 1) ->
  (a + b) / 2 - a < 2 ^ n /\ b - ((a + b) / 2 + 1) < 2 ^ n.
Proof.
  intros Hn H L. rewrite Z.pow_add_r, Z.pow_1_r in L by lia.
  pose proof (Z.div_mod (a + b) 2 ltac:(lia)).
  pose proof (Z.mod_pos_bound (a + b) 2 ltac:(lia)). lia.
Qed.

(** *** Strictly ascending vectors *)

Section vector.

Variables (X : list Z) (p_start p_end vlen : Z).
Hypothesis legal : legal_vector X p_start p_end vlen.

Lemma ascending_gap p q :
  p_start <= p -> p <= q -> q < p_end -> q - p <= load X q - load X p.
Proof.
  intros Hp Hpq Hq.
  assert (G : forall n : nat, p + Z.of_nat n < p_end ->
                Z.of_nat n <= load X (p + Z.of_nat n) - load X p).
  { induction n as [|n IH]; intros Hn.
    - rewrite Z.add_0_r. simpl. lia.
    - rewrite Nat2Z.inj_succ in *.
      pose proof (lv_ascending _ _ _ _ legal (p + Z.of_nat n)
                    (p + Z.succ (Z.of_nat n)) ltac:(lia) ltac:(lia) Hn).
      specialize (IH ltac:(lia)). lia. }
  specialize (G (Z.to_nat (q - p))).
  rewrite Z2Nat.id in G by lia.
  replace (p + (q - p)) with q in G by lia. auto.
Qed.

Lemma ascending_le p q :
  p_start <= p -> p <= q -> q < p_end -> load X p <= load X q.
Proof. intros. pose proof (ascending_gap p q). lia. Qed.

Local Abbreviation splits := (Slice.splits X p_start p_end).

(** No more entries at or above [i] than row indices. *)
Lemma splits_count i p : 0 <= i <= vlen -> splits i p -> p_end - p <= vlen - i.
Proof.
  intros Hi (B & _ & A).
  destruct (Z.eq_dec p p_end) as [->|N]; [lia|].
  pose proof (ascending_gap p (p_end - 1) ltac:(lia) ltac:(lia) ltac:(lia)).
  pose proof (A p ltac:(lia)).
  pose proof (lv_range _ _ _ _ legal (p_end - 1) ltac:(lia)). lia.
Qed.

Lemma splits_zero p : splits 0 p -> p = p_start.
Proof.
  intros (B & L & _).
  destruct (Z.eq_dec p p_start) as [|N]; [assumption|exfalso].
  pose proof (L p_start ltac:(lia)).
  pose proof (lv_range _ _ _ _ legal p_start ltac:(lia)). lia.
Qed.

Lemma splits_start : splits 0 p_start.
Proof.
  pose proof (lv_order _ _ _ _ legal).
  split; [lia|]. split; [intros; lia|].
  intros q Hq. apply (lv_range _ _ _ _ legal q). lia.
Qed.

(** Moving the split by one row moves the position by at most one
    entry. *)
Lemma splits_step i p p' :
  splits i p -> splits (i + 1) p' -> p <= p' <= p + 1.
Proof.
  intros (B & L & A) (B' & L' & A'). split.
  - destruct (Z_lt_le_dec p' p) as [C|]; [exfalso|assumption].
    pose proof (L p' ltac:(lia)). pose proof (A' p' ltac:(lia)). lia.
  - destruct (Z_lt_le_dec (p + 1) p') as [C|]; [exfalso|assumption].
    pose proof (A p ltac:(lia)). pose proof (L' (p + 1) ltac:(lia)).
    pose proof (lv_ascending _ _ _ _ legal p (p + 1) ltac:(lia) ltac:(lia)
                  ltac:(lia)). lia.
Qed.

(** A vector with as many entries as rows holds every row. *)
Lemma dense_rows k :
  p_end - p_start = vlen -> 0 <= k < vlen -> load X (p_start + k) = k.
Proof.
  intros D Hk.
  pose proof (ascending_gap p_start (p_start + k) ltac:(lia) ltac:(lia)
                ltac:(lia)).
  pose proof (ascending_gap (p_start + k) (p_end - 1) ltac:(lia) ltac:(lia)
                ltac:(lia)).
  pose proof (lv_range _ _ _ _ legal p_start ltac:(lia)).
  pose proof (lv_range _ _ _ _ legal (p_end - 1) ltac:(lia)). lia.
Qed.

(** *** The binary search *)

Lemma GB_BINARY_TRIM_SEARCH_spec i fuel : forall pleft pright,
  p_start <= pleft -> pleft <= pright -> pright < p_end ->
  pright - pleft < 2 ^ Z.of_nat fuel ->
  (forall q, p_start <= q < pleft -> load X q < i) ->
  (forall q, pright < q < p_end -> i <= load X q) ->
  exists p,
    GB_BINARY_TRIM_SEARCH fuel i X pleft pright = Some (p, p) /\
    pleft <= p <= pright /\
    (forall q, p_start <= q < p -> load X q < i) /\
    (forall q, p < q < p_end -> i <= load X q).
Proof.
  pose proof (lv_start _ _ _ _ legal) as H0.
  pose proof (lv_size _ _ _ _ legal) as HM.
  induction fuel as [|fuel IH]; intros pleft pright Hl Hlr Hr Hf Lo Hi;
    cbn [GB_BINARY_TRIM_SEARCH].
  - destruct (Z.ltb_spec pleft pright) as [C|C];
      [simpl in Hf; lia|].
    assert (pleft = pright) by lia. subst. exists pright.
    repeat split; auto; lia.
  - destruct (Z.ltb_spec pleft pright) as [C|C].
    + rewrite middle_index by lia.
      pose proof (middle_bounds pleft pright C) as Hm.
      rewrite Nat2Z.inj_succ, <- Z.add_1_r in Hf.
      destruct (halves pleft pright (Z.of_nat fuel) ltac:(lia) C Hf)
        as [S1 S2].
      set (pmiddle := (pleft + pright) / 2) in *.
      destruct (Z.ltb_spec (load X pmiddle) i) as [T|T].
      * rewrite add_index by lia.
        destruct (IH (pmiddle + 1) pright) as (p & E & B & L & A);
          try lia; auto.
        { intros q Hq.
          pose proof (ascending_le q pmiddle ltac:(lia) ltac:(lia)
                        ltac:(lia)). lia. }
        exists p. repeat split; auto; lia.
      * destruct (IH pleft pmiddle) as (p & E & B & L & A);
          try lia; auto.
        { intros q Hq.
          pose proof (ascending_le pmiddle q ltac:(lia) ltac:(lia)
                        ltac:(lia)). lia. }
        exists p. repeat split; auto; lia.
    + assert (pleft = pright) by lia. subst. exists pright.
      repeat split; auto; lia.
Qed.

Lemma GB_BINARY_SPLIT_SEARCH_spec i :
  p_start < p_end ->
  exists p found,
    GB_BINARY_SPLIT_SEARCH i X p_start (p_end - 1) = Some (p, found) /\
    splits i p.
Proof.
  intros NE.
  pose proof (lv_start _ _ _ _ legal) as H0.
  pose proof (lv_size _ _ _ _ legal) as HM.
  destruct (GB_BINARY_TRIM_SEARCH_spec i 64 p_start (p_end - 1))
    as (p & E & B & L & A); try lia.
  { unfold GxB_INDEX_MAX in HM. simpl Z.of_nat. lia. }
  unfold GB_BINARY_SPLIT_SEARCH. rewrite E, Z.eqb_refl. simpl.
  destruct (Z.eqb_spec (load X p) i) as [F|F]; simpl.
  - exists p, true. split; [reflexivity|].
    split; [lia|]. split; [assumption|].
    intros q Hq. destruct (Z.eq_dec q p) as [->|]; [lia|].
    apply A. lia.
  - destruct (Z.gtb_spec i (load X p)) as [G|G].
    + rewrite add_index by lia.
      exists (p + 1), false. split; [reflexivity|].
      split; [lia|]. split.
      * intros q Hq. destruct (Z.eq_dec q p) as [->|]; [lia|].
        apply L. lia.
      * intros q Hq. apply A. lia.
    + exists p, false. split; [reflexivity|].
      split; [lia|]. split; [assumption|].
      intros q Hq. destruct (Z.eq_dec q p) as [->|]; [lia|].
      apply A. lia.
Qed.

Local Abbreviation position_of := (Slice.position_of X p_start p_end).

Lemma find_position_spec i :
  0 <= vlen <= GxB_INDEX_MAX -> 0 <= i -> (i < vlen \/ p_start = p_end) ->
  exists p, find_position i X p_start p_end vlen = Some p /\ position_of i p.
Proof.
  intros Hv Hi Hlt.
  pose proof (lv_start _ _ _ _ legal) as H0.
  pose proof (lv_order _ _ _ _ legal) as HO.
  pose proof (lv_size _ _ _ _ legal) as HM.
  unfold find_position, Slice.position_of. rewrite sub_index by lia.
  destruct (Z.eqb_spec (p_end - p_start) 0) as [E|NE].
  - exists (-1). split; [reflexivity|]. left. lia.
  - assert (Hne : p_start < p_end) by lia.
    assert (Hiv : i < vlen).
    { destruct Hlt; [assumption|lia]. }
    destruct (Z.eqb_spec (p_end - p_start) vlen) as [D|ND].
    + rewrite add_index by lia.
      exists (p_start + i). split; [reflexivity|]. right.
      split; [assumption|]. split; [lia|]. split.
      * intros q Hq.
        pose proof (dense_rows (q - p_start) D ltac:(lia)) as R.
        replace (p_start + (q - p_start)) with q in R by lia. lia.
      * intros q Hq.
        pose proof (dense_rows (q - p_start) D ltac:(lia)) as R.
        replace (p_start + (q - p_start)) with q in R by lia. lia.
    + rewrite sub_index by lia.
      destruct (GB_BINARY_SPLIT_SEARCH_spec i Hne) as (p & found & E & S).
      rewrite E. exists p. split; [reflexivity|]. now right.
Qed.

Lemma position_of_ok i p : position_of i p -> position_ok X p_start p_end i p.
Proof.
  pose proof (lv_start _ _ _ _ legal) as H0.
  intros [[E ->]|[NE (B & L & A)]]; constructor; try lia.
  - intros _ Hq. apply L. lia.
  - intros _ Hq. apply A. lia.
Qed.

Lemma no_row_empty : vlen = 0 -> p_start = p_end.
Proof.
  intros Z0. pose proof (lv_order _ _ _ _ legal).
  destruct (Z.eq_dec p_start p_end) as [|N]; [assumption|exfalso].
  pose proof (lv_range _ _ _ _ legal p_start ltac:(lia)). lia.
Qed.

Lemma find_position_at i :
  0 <= vlen <= GxB_INDEX_MAX -> split_point_ok vlen i ->
  exists p, find_position i X p_start p_end vlen = Some p /\ position_of i p.
Proof.
  intros Hv [Hi Hlt]. apply find_position_spec; auto.
  destruct Hlt as [|[Z0 _]]; [now left|right; now apply no_row_empty].
Qed.

Lemma position_of_start :
  position_of 0 (if sub p_end p_start =? 0 then -1 else p_start).
Proof.
  pose proof (lv_start _ _ _ _ legal) as H0.
  pose proof (lv_order _ _ _ _ legal) as HO.
  pose proof (lv_size _ _ _ _ legal) as HM.
  rewrite sub_index by lia.
  destruct (Z.eqb_spec (p_end - p_start) 0).
  - left. lia.
  - right. split; [lia|]. apply splits_start.
Qed.

End vector.

(** *** The outer loop *)

Section loop.

Variables (pM_start pM_end : Z) (Mi : list Z).
Variables (pA_start pA_end : Z) (Ai : list Z).
Variables (pB_start pB_end : Z) (Bi : list Z).
Variable vlen : Z.
Variable target_work : float.

Hypothesis legal_vlen : 0 <= vlen <= GxB_INDEX_MAX.
Hypothesis legal_M : legal_vector Mi pM_start pM_end vlen.
Hypothesis legal_A : legal_vector Ai pA_start pA_end vlen.
Hypothesis legal_B : legal_vector Bi pB_start pB_end vlen.

Local Abbreviation loop :=
  (slice_loop pA_start pA_end Ai pB_start pB_end Bi vlen target_work).

(** The loop returns, within the fuel that covers the interval, a split
    point of the vector and the positions of A and B for it. *)
Lemma slice_loop_safe fuel : forall ileft iright i pA pB,
  0 <= ileft -> iright <= vlen - 1 ->
  iright - ileft < 2 ^ Z.of_nat fuel ->
  split_point_ok vlen i ->
  position_of Ai pA_start pA_end i pA ->
  position_of Bi pB_start pB_end i pB ->
  exists i' pA' pB',
    loop fuel ileft iright i pA pB = Some (i', pA', pB') /\
    split_point_ok vlen i' /\
    position_of Ai pA_start pA_end i' pA' /\
    position_of Bi pB_start pB_end i' pB'.
Proof.
  induction fuel as [|fuel IH]; intros ileft iright i pA pB Hl Hr Hf Hi HA HB;
    cbn [slice_loop].
  - destruct (Z.ltb_spec ileft iright) as [C|C]; [simpl in Hf; lia|].
    exists i, pA, pB. auto.
  - destruct (Z.ltb_spec ileft iright) as [C|C];
      [|exists i, pA, pB; auto].
    rewrite middle_index by lia.
    pose proof (middle_bounds ileft iright C) as Hm.
    rewrite Nat2Z.inj_succ, <- Z.add_1_r in Hf.
    destruct (halves ileft iright (Z.of_nat fuel) ltac:(lia) C Hf)
      as [S1 S2].
    set (mid := (ileft + iright) / 2) in *.
    assert (Hmid : split_point_ok vlen mid) by (split; [lia|left; lia]).
    destruct (find_position_at Ai pA_start pA_end vlen legal_A mid
                legal_vlen Hmid) as (pA' & EA & HA').
    destruct (find_position_at Bi pB_start pB_end vlen legal_B mid
                legal_vlen Hmid) as (pB' & EB & HB').
    rewrite EA, EB.
    destruct (work_too_low _ _); [|destruct (work_too_high _ _)].
    + apply IH; auto; lia.
    + rewrite add_index by lia. apply IH; auto; lia.
    + exists mid, pA', pB'. auto.
Qed.

Lemma GB_slice_vector_fuel_safe fuel :
  vlen - 1 < 2 ^ Z.of_nat fuel ->
  exists i pM pA pB,
    GB_slice_vector_fuel pM_start pM_end Mi pA_start pA_end Ai
      pB_start pB_end Bi vlen target_work fuel = Some (i, pM, pA, pB) /\
    0 <= i <= vlen /\
    position_ok Mi pM_start pM_end i pM /\
    position_ok Ai pA_start pA_end i pA /\
    position_ok Bi pB_start pB_end i pB.
Proof.
  intros Hf. unfold GB_slice_vector_fuel.
  pose proof index_max_pos.
  rewrite sub_index by lia.
  destruct (slice_loop_safe fuel 0 (vlen - 1) 0
              (if a_empty pA_start pA_end then -1 else pA_start)
              (if b_empty pB_start pB_end then -1 else pB_start))
    as (i & pA & pB & E & Hi & HA & HB); try lia.
  - split; [lia|]. lia.
  - apply position_of_start with (vlen := vlen). exact legal_A.
  - apply position_of_start with (vlen := vlen). exact legal_B.
  - rewrite E.
    destruct (find_position_at Mi pM_start pM_end vlen legal_M i
                legal_vlen Hi) as (pM & EM & HM).
    rewrite EM. exists i, pM, pA, pB.
    split; [reflexivity|]. split; [destruct Hi as [? [?|[? ?]]]; lia|].
    split; [|split]; eapply position_of_ok; eauto.
Qed.

End loop.

End Slice_facts.

(** C4.  On every legal input -- vectors with strictly ascending row
    indices in [0 .. vlen-1], empty, dense or sparse -- GB_slice_vector
    returns, and what it returns satisfies: [0 <= i <= vlen]; for each of
    the three vectors the position is [-1] exactly when the vector is
    empty and otherwise lies in [p_start .. p_end]; and for a non-empty
    vector [Xi [p-1] < i] when [p_start < p < p_end] and [i <= Xi [p]]
    when [p_start <= p < p_end]. *)
Theorem GB_slice_vector_safe :
  forall (pM_start pM_end : Z) (Mi : list Z)
         (pA_start pA_end : Z) (Ai : list Z)
         (pB_start pB_end : Z) (Bi : list Z)
         (vlen : Z) (target_work : float),
    0 <= vlen <= Slice.GxB_INDEX_MAX ->
    Slice.legal_vector Mi pM_start pM_end vlen ->
    Slice.legal_vector Ai pA_start pA_end vlen ->
    Slice.legal_vector Bi pB_start pB_end vlen ->
    exists i pM pA pB,
      Slice.GB_slice_vector pM_start pM_end Mi pA_start pA_end Ai
        pB_start pB_end Bi vlen target_work = Some (i, pM, pA, pB) /\
      0 <= i <= vlen /\
      Slice.position_ok Mi pM_start pM_end i pM /\
      Slice.position_ok Ai pA_start pA_end i pA /\
      Slice.position_ok Bi pB_start pB_end i pB.
Proof.
  intros pM_start pM_end Mi pA_start pA_end Ai pB_start pB_end Bi
         vlen target_work Hv LM LA LB.
  apply GB_slice_vector_fuel_safe; auto.
  unfold Slice.GxB_INDEX_MAX in Hv. simpl Z.of_nat. lia.
Qed.


(** ** GB_slice_vector: balance *)

Section Slice_balance_facts.

Import Int64 Slice.

Lemma check_range_ok n : forall lo f,
  check_range n lo f = true ->
  forall w, lo <= w < lo + 2 ^ Z.of_nat n -> f w = true.
Proof.
  induction n as [|n IH]; intros lo f H w Hw.
  - simpl in *. assert (w = lo) by lia. now subst.
  - cbn [check_range] in H. apply andb_prop in H. destruct H as [H1 H2].
    rewrite Nat2Z.inj_succ, Z.pow_succ_r in Hw by lia.
    destruct (Z_lt_ge_dec w (lo + 2 ^ Z.of_nat n)).
    + apply (IH lo); auto. lia.
    + apply (IH (lo + 2 ^ Z.of_nat n)); auto. lia.
Qed.

(** In binary64 the two products are exact for [target_work = 50000]. *)
Example thresholds_50000 :
  PrimFloat.mul Double.c0_9999 50000%float = 49995%float /\
  PrimFloat.mul Double.c1_0001 50000%float = 50005%float.
Proof. split; reflexivity. Qed.

(** The two double comparisons for [target_work = 50000], on every
    amount of work below [2^18]: [0.9999 * 50000] is the double 49995
    and [1.0001 * 50000] the double 50005. *)
Lemma work_too_low_50000 w :
  0 <= w < 2 ^ 18 -> work_too_low 50000%float w = (w <? 49995).
Proof.
  intros Hw. apply eqb_prop.
  apply (check_range_ok 18 0
           (fun w => Bool.eqb (work_too_low 50000%float w) (w <? 49995)%Z));
    [|exact Hw].
  vm_compute. reflexivity.
Qed.

Lemma work_too_high_50000 w :
  0 <= w < 2 ^ 18 -> work_too_high 50000%float w = (50005 <? w).
Proof.
  intros Hw. apply eqb_prop.
  apply (check_range_ok 18 0
           (fun w => Bool.eqb (work_too_high 50000%float w) (50005 <? w)%Z));
    [|exact Hw].
  vm_compute. reflexivity.
Qed.

(** More fuel does not change what the loop returns. *)
Lemma slice_loop_more_fuel pA_start pA_end Ai pB_start pB_end Bi vlen t n :
  forall m ileft iright i pA pB r,
    slice_loop pA_start pA_end Ai pB_start pB_end Bi vlen t n
      ileft iright i pA pB = Some r ->
    (n <= m)%nat ->
    slice_loop pA_start pA_end Ai pB_start pB_end Bi vlen t m
      ileft iright i pA pB = Some r.
Proof.
  induction n as [|n IH]; intros m ileft iright i pA pB r H L.
  - destruct m; cbn [slice_loop] in *;
      destruct (ileft <? iright); congruence.
  - destruct m as [|m]; [lia|]. cbn [slice_loop] in *.
    destruct (ileft <? iright); [|assumption].
    destruct (find_position _ Ai _ _ _); [|discriminate].
    destruct (find_position _ Bi _ _ _); [|discriminate].
    destruct (work_too_low _ _); [apply IH; auto; lia|].
    destruct (work_too_high _ _); [apply IH; auto; lia|assumption].
Qed.

Section balance.

Variables (pM_start pM_end : Z) (Mi : list Z).
Variables (pA_start pA_end : Z) (Ai : list Z).
Variables (pB_start pB_end : Z) (Bi : list Z).

Let vlen : Z := 1000000.

Hypothesis legal_M : legal_vector Mi pM_start pM_end vlen.
Hypothesis legal_A : legal_vector Ai pA_start pA_end vlen.
Hypothesis legal_B : legal_vector Bi pB_start pB_end vlen.
Hypothesis nnz_A : pA_end - pA_start = 100000.
Hypothesis nnz_B : pB_end - pB_start = 100000.

Local Abbreviation loop :=
  (slice_loop pA_start pA_end Ai pB_start pB_end Bi vlen 50000%float).

Lemma legal_vlen : 0 <= vlen <= GxB_INDEX_MAX.
Proof. unfold vlen, GxB_INDEX_MAX. lia. Qed.

Local Abbreviation work_at :=
  (Slice.work_at pA_start pA_end Ai pB_start pB_end Bi).

Lemma work_at_zero w : work_at 0 w -> w = 200000.
Proof.
  intros (pA & pB & SA & SB & ->).
  apply (splits_zero _ _ _ _ legal_A) in SA.
  apply (splits_zero _ _ _ _ legal_B) in SB. lia.
Qed.

Lemma work_at_bound i w :
  0 <= i <= vlen -> work_at i w -> w <= 2 * (vlen - i).
Proof.
  intros Hi (pA & pB & SA & SB & ->).
  pose proof (splits_count _ _ _ _ legal_A i pA Hi SA).
  pose proof (splits_count _ _ _ _ legal_B i pB Hi SB). lia.
Qed.

Lemma work_at_step i w w' :
  work_at i w -> work_at (i + 1) w' -> w - 2 <= w' <= w.
Proof.
  intros (pA & pB & SA & SB & ->) (pA' & pB' & SA' & SB' & ->).
  pose proof (splits_step _ _ _ _ legal_A i pA pA' SA SA').
  pose proof (splits_step _ _ _ _ legal_B i pB pB' SB SB'). lia.
Qed.

Local Abbreviation brackets :=
  (Slice.brackets pA_start pA_end Ai pB_start pB_end Bi vlen 49995 50005).

(** Such an interval has not collapsed: the work drops by at most 2
    from one row to the next, and the window is wider. *)
Lemma brackets_open ileft iright : brackets ileft iright -> ileft < iright.
Proof.
  intros (B & R & L & H).
  destruct (Z.eq_dec ileft iright) as [E|]; [exfalso; subst iright|lia].
  destruct H as [H|(w & W & Hw)].
  - destruct L as [L|(w' & W' & Hw')]; [unfold vlen in *; lia|].
    pose proof (work_at_bound (ileft - 1) w' ltac:(unfold vlen in *; lia) W').
    unfold vlen in *. lia.
  - destruct L as [L|(w' & W' & Hw')].
    + subst ileft. apply work_at_zero in W. lia.
    + replace ileft with (ileft - 1 + 1) in W by lia.
      pose proof (work_at_step _ _ _ W' W). lia.
Qed.

Lemma slice_loop_balance fuel : forall ileft iright i pA pB,
  brackets ileft iright ->
  iright - ileft < 2 ^ Z.of_nat fuel ->
  exists i' pA' pB',
    loop fuel ileft iright i pA pB = Some (i', pA', pB') /\
    split_point_ok vlen i' /\
    49995 <= (pA_end - pA') + (pB_end - pB') <= 50005.
Proof.
  pose proof legal_vlen as Hv.
  induction fuel as [|fuel IH]; intros ileft iright i pA pB Br Hf;
    pose proof (brackets_open _ _ Br) as C; [simpl in Hf; lia|].
  cbn [slice_loop].
  destruct Br as (B & R & L & H).
  destruct (Z.ltb_spec ileft iright) as [_|]; [|lia].
  rewrite middle_index by lia.
  pose proof (middle_bounds ileft iright C) as Hm.
  rewrite Nat2Z.inj_succ, <- Z.add_1_r in Hf.
  destruct (halves ileft iright (Z.of_nat fuel) ltac:(lia) C Hf) as [S1 S2].
  set (mid := (ileft + iright) / 2) in *.
  assert (Hmid : split_point_ok vlen mid) by (split; [lia|left; lia]).
  destruct (find_position_at Ai pA_start pA_end vlen legal_A mid Hv Hmid)
    as (pA' & EA & [[? _]|[_ SA]]); [lia|].
  destruct (find_position_at Bi pB_start pB_end vlen legal_B mid Hv Hmid)
    as (pB' & EB & [[? _]|[_ SB]]); [lia|].
  rewrite EA, EB.
  pose proof (lv_start _ _ _ _ legal_A). pose proof (lv_size _ _ _ _ legal_A).
  pose proof (lv_start _ _ _ _ legal_B). pose proof (lv_size _ _ _ _ legal_B).
  assert (BA : pA_start <= pA' <= pA_end) by apply SA.
  assert (BB : pB_start <= pB' <= pB_end) by apply SB.
  assert (W : work_of pA_start pA_end pB_start pB_end pA' pB'
              = (pA_end - pA') + (pB_end - pB')).
  { unfold work_of, a_empty, b_empty.
    rewrite !sub_index by lia.
    destruct (Z.eqb_spec (pA_end - pA_start) 0); [lia|].
    destruct (Z.eqb_spec (pB_end - pB_start) 0); [lia|].
    rewrite add_index by lia. reflexivity. }
  rewrite W. set (w := (pA_end - pA') + (pB_end - pB')) in *.
  assert (Wat : work_at mid w) by (exists pA', pB'; auto).
  rewrite work_too_low_50000, work_too_high_50000 by lia.
  destruct (Z.ltb_spec w 49995) as [Lo|Lo];
    [|destruct (Z.ltb_spec 50005 w) as [Hi|Hi]].
  - apply IH; [|lia].
    split; [lia|]. split; [lia|]. split; [assumption|].
    right. exists w. auto.
  - rewrite add_index by lia. apply IH; [|lia].
    split; [lia|]. split; [lia|]. split; [|assumption].
    right. exists w. replace (mid + 1 - 1) with mid by lia. auto.
  - exists mid, pA', pB'. split; [reflexivity|]. split; [assumption|lia].
Qed.

Lemma GB_slice_vector_fuel_balance :
  exists i pM pA pB,
    GB_slice_vector_fuel pM_start pM_end Mi pA_start pA_end Ai
      pB_start pB_end Bi vlen 50000%float 20 = Some (i, pM, pA, pB) /\
    GB_slice_vector pM_start pM_end Mi pA_start pA_end Ai
      pB_start pB_end Bi vlen 50000%float = Some (i, pM, pA, pB) /\
    49995 <= (pA_end - pA) + (pB_end - pB) <= 50005.
Proof.
  pose proof legal_vlen as Hv.
  destruct (slice_loop_balance 20 0 (vlen - 1) 0
              (if a_empty pA_start pA_end then -1 else pA_start)
              (if b_empty pB_start pB_end then -1 else pB_start))
    as (i & pA & pB & E & Hi & W).
  { unfold Slice.brackets, vlen. repeat split; auto; lia. }
  { unfold vlen. simpl. lia. }
  destruct (find_position_at Mi pM_start pM_end vlen legal_M i Hv Hi)
    as (pM & EM & _).
  exists i, pM, pA, pB.
  unfold GB_slice_vector, GB_slice_vector_fuel.
  rewrite sub_index by (unfold vlen, GxB_INDEX_MAX; lia).
  rewrite (slice_loop_more_fuel _ _ _ _ _ _ _ _ _ 64%nat _ _ _ _ _ _ E)
    by lia.
  rewrite E, EM. auto.
Qed.

End balance.

End Slice_balance_facts.

(** C5.  For two vectors of a matrix with [vlen = 10^6], each with 10^5
    strictly ascending row indices, and [target_work = 50000],
    GB_slice_vector returns a split whose work
    [(pA_end - pA) + (pB_end - pB)] lies in [49995 .. 50005], and its
    outer loop runs at most 20 times: 20 iterations of fuel give the
    result. *)
Theorem GB_slice_vector_balance :
  forall (pM_start pM_end : Z) (Mi : list Z)
         (pA_start pA_end : Z) (Ai : list Z)
         (pB_start pB_end : Z) (Bi : list Z),
    Slice.legal_vector Mi pM_start pM_end 1000000 ->
    Slice.legal_vector Ai pA_start pA_end 1000000 ->
    Slice.legal_vector Bi pB_start pB_end 1000000 ->
    pA_end - pA_start = 100000 ->
    pB_end - pB_start = 100000 ->
    exists i pM pA pB,
      Slice.GB_slice_vector_fuel pM_start pM_end Mi pA_start pA_end Ai
        pB_start pB_end Bi 1000000 50000%float 20 = Some (i, pM, pA, pB) /\
      Slice.GB_slice_vector pM_start pM_end Mi pA_start pA_end Ai
        pB_start pB_end Bi 1000000 50000%float = Some (i, pM, pA, pB) /\
      49995 <= (pA_end - pA) + (pB_end - pB) <= 50005.
Proof.
  intros. now apply GB_slice_vector_fuel_balance.
Qed.

Section Slice_samples_facts.

Import Slice.

Lemma load_ramp n a b p :
  0 <= p < Z.of_nat n -> load (ramp n a b) p = a * p + b.
Proof.
  intros Hp. unfold load, ramp.
  destruct (Z.ltb_spec p 0); [lia|].
  rewrite nth_indep with (d' := a * Z.of_nat 0 + b)
    by (rewrite length_map, length_seq; lia).
  rewrite (map_nth (fun k => a * Z.of_nat k + b)).
  rewrite seq_nth by lia. simpl Nat.add. rewrite Z2Nat.id by lia.
  reflexivity.
Qed.

Lemma legal_ramp n a b vlen :
  0 < a -> 0 <= b -> a * (Z.of_nat n - 1) + b < vlen ->
  Z.of_nat n <= GxB_INDEX_MAX ->
  legal_vector (ramp n a b) 0 (Z.of_nat n) vlen.
Proof.
  intros Ha Hb Hv Hn. constructor; try lia.
  - unfold ramp. rewrite length_map, length_seq. lia.
  - intros p Hp. rewrite load_ramp by lia. nia.
  - intros p q Hp Hpq Hq. rewrite !load_ramp by lia. nia.
Qed.

Lemma legal_no_vector vlen : legal_vector [] 0 0 vlen.
Proof.
  constructor; try (intros; lia); simpl; try lia.
  unfold GxB_INDEX_MAX. lia.
Qed.

End Slice_samples_facts.

(** Two vectors of a 10-row matrix, rows 1, 3, 5, 7, 9 and rows
    0, 2, 4, 6, 8, and no mask. *)
Lemma GB_slice_vector_safe_witness :
  exists i pM pA pB,
    Slice.GB_slice_vector 0 0 [] 0 5 (Slice.ramp 5 2 1) 0 5 (Slice.ramp 5 2 0)
      10 5%float = Some (i, pM, pA, pB) /\
    0 <= i <= 10 /\
    Slice.position_ok [] 0 0 i pM /\
    Slice.position_ok (Slice.ramp 5 2 1) 0 5 i pA /\
    Slice.position_ok (Slice.ramp 5 2 0) 0 5 i pB.
Proof.
  apply GB_slice_vector_safe.
  - unfold Slice.GxB_INDEX_MAX. lia.
  - apply legal_no_vector.
  - apply (legal_ramp 5 2 1 10); unfold Slice.GxB_INDEX_MAX; simpl; lia.
  - apply (legal_ramp 5 2 0 10); unfold Slice.GxB_INDEX_MAX; simpl; lia.
Defined.

(** What the function returns on that input, and with a mask on rows
    1, 2, 3. *)
Example GB_slice_vector_sample :
  Slice.GB_slice_vector 0 0 [] 0 5 [1; 3; 5; 7; 9] 0 5 [0; 2; 4; 6; 8]
    10 5%float = Some (5, -1, 2, 3) /\
  Slice.GB_slice_vector 0 3 [1; 2; 3] 0 5 [1; 3; 5; 7; 9]
    0 5 [0; 2; 4; 6; 8] 10 2%float = Some (8, 3, 4, 4).
Proof. split; reflexivity. Qed.

(** A dense vector (rows 0, 1, 2 of 3) beside two empty ones, and no
    vector at all. *)
Example GB_slice_vector_dense_sample :
  Slice.GB_slice_vector 0 0 [] 0 3 [0; 1; 2] 0 0 [] 3 1%float
    = Some (1, -1, 1, -1) /\
  Slice.GB_slice_vector 0 0 [] 0 0 [] 0 0 [] 0 100%float
    = Some (0, -1, -1, -1).
Proof. split; reflexivity. Qed.

(** Scenario S5: rows 0, 10, 20, ... of A and rows 5, 15, 25, ... of B,
    10^5 entries each, in vectors of length 10^6. *)
Lemma GB_slice_vector_balance_witness :
  let n := Z.to_nat 100000 in
  exists i pM pA pB,
    Slice.GB_slice_vector_fuel 0 0 [] 0 100000 (Slice.ramp n 10 0)
      0 100000 (Slice.ramp n 10 5) 1000000 50000%float 20
    = Some (i, pM, pA, pB) /\
    Slice.GB_slice_vector 0 0 [] 0 100000 (Slice.ramp n 10 0)
      0 100000 (Slice.ramp n 10 5) 1000000 50000%float
    = Some (i, pM, pA, pB) /\
    49995 <= (100000 - pA) + (100000 - pB) <= 50005.
Proof.
  intros n.
  assert (Hn : Z.of_nat n = 100000) by (unfold n; apply Z2Nat.id; lia).
  apply GB_slice_vector_balance.
  - apply legal_no_vector.
  - rewrite <- Hn at 1. apply legal_ramp; rewrite ?Hn;
      unfold Slice.GxB_INDEX_MAX; lia.
  - rewrite <- Hn at 1. apply legal_ramp; rewrite ?Hn;
      unfold Slice.GxB_INDEX_MAX; lia.
  - lia.
  - lia.
Defined.

(* ================================================================== *)
(** * Further properties *)
(* ================================================================== *)

(** ** GB_conform: failure, the full format, matrices left alone *)

Section Outcome_facts.

Import Conform Outcome.

Context {GB_Context : Type} {cv : GB_converters GB_Context}.

Lemma cleared_GB_OK r k :
  info_ok (fst r) -> (forall B, cleared_on_failure (k B)) ->
  cleared_on_failure (GB_OK r k).
Proof.
  intros Hr Hk. unfold GB_OK. destruct r as [info B]. simpl in Hr.
  destruct info; try apply Hk; right; simpl;
    (split; [eauto|]); destruct Hr as [?|?]; congruence || assumption.
Qed.

Lemma cleared_return A : cleared_on_failure (return_SUCCESS A).
Proof. now left. Qed.

Lemma cleared_GB_conform A Context : cleared_on_failure (GB_conform A Context).
Proof.
  unfold GB_conform, GB_conform_default.
  repeat first
    [ apply cleared_return
    | apply cleared_GB_OK
    | apply info_ok_hyper_or_bitmap | apply info_ok_sparse_or_bitmap
    | apply info_ok_hyper_sparse_or_bitmap
    | apply info_ok_return | apply info_ok_any_to_hyper
    | apply info_ok_any_to_sparse | apply info_ok_any_to_bitmap
    | apply info_ok_bitmap_to_sparse | apply info_ok_conform_hyper
    | apply info_ok_GB_OK
    | intro
    | match goal with |- context [if ?c then _ else _] => destruct c end ].
Qed.


(** The arm GB_conform takes for a policy given by [rule_of]. *)
Lemma GB_conform_rule_5 A Context :
  rule_of A (GxB_HYPERSPARSE + GxB_BITMAP) ->
  GB_conform A Context
  = GB_OK (GB_hyper_or_bitmap (GB_IS_HYPERSPARSE A) (GB_IS_SPARSE A)
             (GB_IS_BITMAP A) (GB_IS_FULL A) A Context) return_SUCCESS.
Proof.
  intros [Hs|[Hs D]]; unfold GB_conform; rewrite Hs; cbn; [|rewrite D];
    reflexivity.
Qed.

Lemma GB_conform_rule_6 A Context :
  rule_of A (GxB_SPARSE + GxB_BITMAP) ->
  GB_conform A Context
  = GB_OK (GB_sparse_or_bitmap (GB_IS_HYPERSPARSE A) (GB_IS_SPARSE A)
             (GB_IS_BITMAP A) (GB_IS_FULL A) A Context) return_SUCCESS.
Proof.
  intros [Hs|[Hs D]]; unfold GB_conform; rewrite Hs; cbn; [|rewrite D];
    reflexivity.
Qed.

Lemma GB_conform_rule_7 A Context :
  rule_of A (GxB_HYPERSPARSE + GxB_SPARSE + GxB_BITMAP) \/
  (~ (1 <= sparsity A <= 14) /\
   is_full_or_dense_with_no_pending_work A = false) ->
  GB_conform A Context
  = GB_OK (GB_hyper_sparse_or_bitmap (GB_IS_HYPERSPARSE A) (GB_IS_SPARSE A)
             (GB_IS_BITMAP A) (GB_IS_FULL A) A Context) return_SUCCESS.
Proof.
  intros [[Hs|[Hs D]]|[Hs D]].
  - unfold GB_conform; rewrite Hs; cbn; reflexivity.
  - rewrite GB_conform_last_arm by (rewrite Hs; cbn; lia).
    unfold GB_conform_default. now rewrite D.
  - rewrite GB_conform_last_arm by assumption.
    unfold GB_conform_default. now rewrite D.
Qed.

End Outcome_facts.

(** X1.  When GB_conform does not return [GrB_SUCCESS], the matrix it
    leaves is one that [GB_phbix_free] cleared, and the info is that of a
    converter: "If this method fails, the matrix is cleared of all
    entries".  This holds for any converters. *)
Theorem GB_conform_failure_clears :
  forall (GB_Context : Type) (cv : Conform.GB_converters GB_Context)
         (A : Conform.GrB_Matrix) (Context : GB_Context)
         (info : GrB_Info) (A' : Conform.GrB_Matrix),
    Conform.GB_conform A Context = (info, A') ->
    info <> GrB_SUCCESS ->
    (exists B, A' = Conform.GB_phbix_free B) /\
    Conform.converter_returns info.
Proof.
  intros GB_Context cv A Context info A' H N.
  pose proof (cleared_GB_conform A Context) as C.
  rewrite H in C. destruct C as [C|C]; [contradiction|exact C].
Qed.

(** The one-entry sample under the policy "bitmap" when no memory is
    left: the conversion fails and the matrix left has no entry. *)
Lemma GB_conform_failure_clears_witness :
  let r := Conform.GB_conform (cv := Conform.SpecModel.converters)
             (Conform.Samples.one_entry 4 Conform.Sparse)
             Conform.Samples.Context_full in
  fst r = GrB_OUT_OF_MEMORY /\
  Conform.entries (snd r) = [] /\
  (exists B, snd r = Conform.SpecModel.GB_phbix_free B).
Proof.
  intros r. split; [reflexivity|]. split; [reflexivity|].
  apply (GB_conform_failure_clears _ Conform.SpecModel.converters
           (Conform.Samples.one_entry 4 Conform.Sparse)
           Conform.Samples.Context_full (fst r) (snd r)).
  - reflexivity.
  - discriminate.
Defined.



(** X3.  GB_conform calls no converter, and so returns [GrB_SUCCESS] with
    the matrix untouched whatever the converters would do, for: a
    hypersparse matrix that fails the sparse-to-bitmap test under the
    rule {hypersparse, bitmap}; a sparse matrix that fails it under the
    rule {sparse, bitmap}; a bitmap matrix that fails the
    bitmap-to-sparse test under the rules {hypersparse, bitmap},
    {sparse, bitmap}, {hypersparse, sparse, bitmap} and the default
    arm. *)
Theorem GB_conform_leaves_alone :
  forall (GB_Context : Type) (cv : Conform.GB_converters GB_Context)
         (A : Conform.GrB_Matrix) (Context : GB_Context),
    let to_bitmap :=
      Conform.GB_convert_sparse_to_bitmap_test (Conform.bitmap_switch A)
        (Conform.GB_NNZ A) (Conform.vlen A) (Conform.vdim A) in
    let to_sparse :=
      Conform.GB_convert_bitmap_to_sparse_test (Conform.bitmap_switch A)
        (Conform.GB_NNZ A) (Conform.vlen A) (Conform.vdim A) in
    (Conform.format A = Conform.Hypersparse /\ to_bitmap = false /\
     Outcome.rule_of A (Conform.GxB_HYPERSPARSE + Conform.GxB_BITMAP)) \/
    (Conform.format A = Conform.Sparse /\ to_bitmap = false /\
     Outcome.rule_of A (Conform.GxB_SPARSE + Conform.GxB_BITMAP)) \/
    (Conform.format A = Conform.Bitmap /\ to_sparse = false /\
     (Outcome.rule_of A (Conform.GxB_HYPERSPARSE + Conform.GxB_BITMAP) \/
      Outcome.rule_of A (Conform.GxB_SPARSE + Conform.GxB_BITMAP) \/
      Outcome.rule_of A
        (Conform.GxB_HYPERSPARSE + Conform.GxB_SPARSE + Conform.GxB_BITMAP) \/
      (~ (1 <= Conform.sparsity A <= 14) /\
       Conform.is_full_or_dense_with_no_pending_work A = false))) ->
    Conform.GB_conform A Context = (GrB_SUCCESS, A).
Proof.
  intros GB_Context cv A Context to_bitmap to_sparse H.
  destruct H as [(F & T & R)|[(F & T & R)|(F & T & R)]].
  - rewrite GB_conform_rule_5 by assumption.
    unfold Conform.GB_hyper_or_bitmap, Conform.GB_IS_HYPERSPARSE,
      Conform.GB_IS_SPARSE, Conform.GB_IS_BITMAP, Conform.GB_IS_FULL.
    fold to_bitmap. rewrite F, T. reflexivity.
  - rewrite GB_conform_rule_6 by assumption.
    unfold Conform.GB_sparse_or_bitmap, Conform.GB_IS_HYPERSPARSE,
      Conform.GB_IS_SPARSE, Conform.GB_IS_BITMAP, Conform.GB_IS_FULL.
    fold to_bitmap. rewrite F, T. reflexivity.
  - destruct R as [R|[R|R]].
    + rewrite GB_conform_rule_5 by assumption.
      unfold Conform.GB_hyper_or_bitmap, Conform.GB_IS_HYPERSPARSE,
        Conform.GB_IS_SPARSE, Conform.GB_IS_BITMAP, Conform.GB_IS_FULL.
      fold to_sparse. rewrite F, T. reflexivity.
    + rewrite GB_conform_rule_6 by assumption.
      unfold Conform.GB_sparse_or_bitmap, Conform.GB_IS_HYPERSPARSE,
        Conform.GB_IS_SPARSE, Conform.GB_IS_BITMAP, Conform.GB_IS_FULL.
      fold to_sparse. rewrite F, T. reflexivity.
    + rewrite GB_conform_rule_7 by assumption.
      unfold Conform.GB_hyper_sparse_or_bitmap, Conform.GB_IS_HYPERSPARSE,
        Conform.GB_IS_SPARSE, Conform.GB_IS_BITMAP, Conform.GB_IS_FULL.
      fold to_sparse. rewrite F, T. reflexivity.
Qed.

(** A hypersparse matrix with one entry of four cells and the switch 1/2
    under {hypersparse, bitmap}, with no memory left. *)
Lemma GB_conform_leaves_alone_witness :
  let A := Outcome.one_entry_half 5 Conform.Hypersparse in
  Conform.GB_conform (cv := Conform.SpecModel.converters) A
    Conform.Samples.Context_full = (GrB_SUCCESS, A).
Proof.
  intros A.
  apply (GB_conform_leaves_alone _ Conform.SpecModel.converters A).
  left. split; [reflexivity|]. split; [reflexivity|]. left. reflexivity.
Defined.

(** ** GB_conform: the two- and three-format rules *)

Section Rule_facts.

Import Conform Outcome.


End Rule_facts.





(** ** GB_slice_vector: partition, iterations, symmetry, little work *)

Section SliceMore_facts.

Import Int64 Slice SliceMore.

Lemma position_of_zero X p_start p_end vlen p :
  legal_vector X p_start p_end vlen ->
  position_of X p_start p_end 0 p -> p = start_or_sentinel p_start p_end.
Proof.
  intros L [[E ->]|[NE S]]; unfold start_or_sentinel.
  - now rewrite (proj2 (Z.eqb_eq _ _) E).
  - apply (splits_zero _ _ _ _ L) in S.
    destruct (Z.eqb_spec p_start p_end); [lia|assumption].
Qed.

(** The loop and the work are the same with A and B exchanged. *)
Lemma work_of_swap pA_start pA_end pB_start pB_end pA pB :
  work_of pB_start pB_end pA_start pA_end pB pA
  = work_of pA_start pA_end pB_start pB_end pA pB.
Proof. unfold work_of, add. now rewrite Z.add_comm. Qed.

Lemma slice_loop_swap pA_start pA_end Ai pB_start pB_end Bi vlen t fuel :
  forall ileft iright i pA pB,
    slice_loop pB_start pB_end Bi pA_start pA_end Ai vlen t fuel
      ileft iright i pB pA
    = option_map (fun r => let '(i, pA, pB) := r in (i, pB, pA))
        (slice_loop pA_start pA_end Ai pB_start pB_end Bi vlen t fuel
           ileft iright i pA pB).
Proof.
  induction fuel as [|fuel IH]; intros ileft iright i pA pB;
    cbn [slice_loop]; destruct (ileft <? iright); try reflexivity.
  destruct (find_position _ Ai _ _ _) as [pA'|],
           (find_position _ Bi _ _ _) as [pB'|]; try reflexivity.
  rewrite work_of_swap.
  destruct (work_too_low _ _); [apply IH|].
  destruct (work_too_high _ _); [apply IH|reflexivity].
Qed.

Section inputs.

Variables (pM_start pM_end : Z) (Mi : list Z).
Variables (pA_start pA_end : Z) (Ai : list Z).
Variables (pB_start pB_end : Z) (Bi : list Z).
Variable vlen : Z.
Variable target_work : float.

Hypothesis legal_vlen : 0 <= vlen <= GxB_INDEX_MAX.
Hypothesis legal_M : legal_vector Mi pM_start pM_end vlen.
Hypothesis legal_A : legal_vector Ai pA_start pA_end vlen.
Hypothesis legal_B : legal_vector Bi pB_start pB_end vlen.

Local Abbreviation loop :=
  (slice_loop pA_start pA_end Ai pB_start pB_end Bi vlen target_work).
Local Abbreviation pA0 := (if a_empty pA_start pA_end then -1 else pA_start).
Local Abbreviation pB0 := (if b_empty pB_start pB_end then -1 else pB_start).

Lemma slice_loop_returns fuel :
  vlen - 1 < 2 ^ Z.of_nat fuel ->
  exists i pA pB,
    loop fuel 0 (vlen - 1) 0 pA0 pB0 = Some (i, pA, pB) /\
    split_point_ok vlen i /\
    position_of Ai pA_start pA_end i pA /\
    position_of Bi pB_start pB_end i pB.
Proof.
  intros Hf.
  apply (slice_loop_safe pA_start pA_end Ai pB_start pB_end Bi vlen
           target_work legal_vlen legal_A legal_B); try lia.
  - split; [lia|]. lia.
  - apply position_of_start with (vlen := vlen). exact legal_A.
  - apply position_of_start with (vlen := vlen). exact legal_B.
Qed.

Lemma fuel_64 : vlen - 1 < 2 ^ Z.of_nat 64.
Proof. unfold GxB_INDEX_MAX in legal_vlen. simpl Z.of_nat. lia. Qed.

Lemma GB_slice_vector_fuel_partitions :
  exists i pM pA pB,
    GB_slice_vector pM_start pM_end Mi pA_start pA_end Ai
      pB_start pB_end Bi vlen target_work = Some (i, pM, pA, pB) /\
    split_point_ok vlen i /\
    position_of Mi pM_start pM_end i pM /\
    position_of Ai pA_start pA_end i pA /\
    position_of Bi pB_start pB_end i pB.
Proof.
  pose proof index_max_pos.
  unfold GB_slice_vector, GB_slice_vector_fuel.
  rewrite sub_index by lia.
  destruct (slice_loop_returns 64 fuel_64) as (i & pA & pB & E & Hi & HA & HB).
  rewrite E.
  destruct (find_position_at Mi pM_start pM_end vlen legal_M i
              legal_vlen Hi) as (pM & EM & HM).
  rewrite EM. exists i, pM, pA, pB. auto.
Qed.

Lemma GB_slice_vector_fuel_enough fuel :
  vlen - 1 < 2 ^ Z.of_nat fuel ->
  GB_slice_vector_fuel pM_start pM_end Mi pA_start pA_end Ai
    pB_start pB_end Bi vlen target_work fuel
  = GB_slice_vector pM_start pM_end Mi pA_start pA_end Ai
      pB_start pB_end Bi vlen target_work.
Proof.
  intros Hf. pose proof index_max_pos.
  unfold GB_slice_vector, GB_slice_vector_fuel.
  rewrite sub_index by lia.
  destruct (slice_loop_returns fuel Hf) as (r & pA & pB & E & _).
  destruct (slice_loop_returns 64 fuel_64) as (r' & pA' & pB' & E' & _).
  destruct (Nat.le_ge_cases fuel 64) as [L|L].
  - rewrite (slice_loop_more_fuel _ _ _ _ _ _ _ _ _ 64%nat _ _ _ _ _ _ E L).
    now rewrite E.
  - rewrite (slice_loop_more_fuel _ _ _ _ _ _ _ _ _ fuel _ _ _ _ _ _ E' L).
    now rewrite E'.
Qed.

(** *** Too little work *)

Local Abbreviation total :=
  ((pA_end - pA_start) + (pB_end - pB_start)).

Hypothesis too_little :
  forall w, 0 <= w <= total -> work_too_low target_work w = true.

Lemma work_of_bounds i pA pB :
  position_of Ai pA_start pA_end i pA ->
  position_of Bi pB_start pB_end i pB ->
  0 <= work_of pA_start pA_end pB_start pB_end pA pB <= total.
Proof.
  intros HA HB.
  pose proof (lv_start _ _ _ _ legal_A). pose proof (lv_size _ _ _ _ legal_A).
  pose proof (lv_order _ _ _ _ legal_A).
  pose proof (lv_start _ _ _ _ legal_B). pose proof (lv_size _ _ _ _ legal_B).
  pose proof (lv_order _ _ _ _ legal_B).
  unfold work_of, a_empty, b_empty.
  rewrite (sub_index pA_end pA_start), (sub_index pB_end pB_start) by lia.
  destruct HA as [[EA ->]|[NA (BA & _)]], HB as [[EB ->]|[NB (BB & _)]];
    destruct (Z.eqb_spec (pA_end - pA_start) 0);
    destruct (Z.eqb_spec (pB_end - pB_start) 0); try lia;
    cbv iota; rewrite ?sub_index by lia; rewrite add_index by lia; lia.
Qed.

Lemma slice_loop_too_little fuel : forall iright i pA pB,
  iright <= vlen - 1 -> iright < 2 ^ Z.of_nat fuel ->
  position_of Ai pA_start pA_end i pA ->
  position_of Bi pB_start pB_end i pB ->
  (iright <= 0 -> i = 0) ->
  exists pA' pB',
    loop fuel 0 iright i pA pB = Some (0, pA', pB') /\
    position_of Ai pA_start pA_end 0 pA' /\
    position_of Bi pB_start pB_end 0 pB'.
Proof.
  induction fuel as [|fuel IH]; intros iright i pA pB Hr Hf HA HB H0;
    cbn [slice_loop].
  - destruct (Z.ltb_spec 0 iright) as [C|C]; [simpl in Hf; lia|].
    rewrite (H0 C) in *. eauto.
  - destruct (Z.ltb_spec 0 iright) as [C|C];
      [|rewrite (H0 C) in *; eauto].
    rewrite middle_index by lia.
    pose proof (middle_bounds 0 iright C) as Hm.
    rewrite Nat2Z.inj_succ, <- Z.add_1_r in Hf.
    destruct (halves 0 iright (Z.of_nat fuel) ltac:(lia) C ltac:(lia))
      as [S1 _].
    set (mid := (0 + iright) / 2) in *.
    assert (Hmid : split_point_ok vlen mid) by (split; [lia|left; lia]).
    destruct (find_position_at Ai pA_start pA_end vlen legal_A mid
                legal_vlen Hmid) as (pA' & EA & HA').
    destruct (find_position_at Bi pB_start pB_end vlen legal_B mid
                legal_vlen Hmid) as (pB' & EB & HB').
    rewrite EA, EB.
    rewrite too_little by (now apply work_of_bounds with (i := mid)).
    apply IH; auto; lia.
Qed.

Lemma GB_slice_vector_whole :
  GB_slice_vector pM_start pM_end Mi pA_start pA_end Ai
    pB_start pB_end Bi vlen target_work
  = Some (0, start_or_sentinel pM_start pM_end,
          start_or_sentinel pA_start pA_end,
          start_or_sentinel pB_start pB_end).
Proof.
  pose proof index_max_pos.
  unfold GB_slice_vector, GB_slice_vector_fuel.
  rewrite sub_index by lia.
  destruct (slice_loop_too_little 64 (vlen - 1) 0 pA0 pB0)
    as (pA & pB & E & HA & HB); try lia.
  - apply fuel_64.
  - apply position_of_start with (vlen := vlen). exact legal_A.
  - apply position_of_start with (vlen := vlen). exact legal_B.
  - rewrite E.
    assert (Hi : split_point_ok vlen 0) by (split; lia).
    destruct (find_position_at Mi pM_start pM_end vlen legal_M 0
                legal_vlen Hi) as (pM & EM & HM).
    rewrite EM.
    rewrite (position_of_zero _ _ _ _ _ legal_M HM),
            (position_of_zero _ _ _ _ _ legal_A HA),
            (position_of_zero _ _ _ _ _ legal_B HB).
    reflexivity.
Qed.

End inputs.

End SliceMore_facts.

(** X6.  On every legal input GB_slice_vector splits each non-empty
    vector completely at the row it returns: every entry before the
    position returned is below row [i] and every entry from it on is at
    or above row [i] ("pM, pA, and pB partition the three vectors"); an
    empty vector gets [-1]; and [i] is a row of the vectors
    ([0 <= i < vlen]) unless they have no row. *)
Theorem GB_slice_vector_partitions :
  forall (pM_start pM_end : Z) (Mi : list Z)
         (pA_start pA_end : Z) (Ai : list Z)
         (pB_start pB_end : Z) (Bi : list Z)
         (vlen : Z) (target_work : float),
    0 <= vlen <= Slice.GxB_INDEX_MAX ->
    Slice.legal_vector Mi pM_start pM_end vlen ->
    Slice.legal_vector Ai pA_start pA_end vlen ->
    Slice.legal_vector Bi pB_start pB_end vlen ->
    exists i pM pA pB,
      Slice.GB_slice_vector pM_start pM_end Mi pA_start pA_end Ai
        pB_start pB_end Bi vlen target_work = Some (i, pM, pA, pB) /\
      Slice.split_point_ok vlen i /\
      Slice.position_of Mi pM_start pM_end i pM /\
      Slice.position_of Ai pA_start pA_end i pA /\
      Slice.position_of Bi pB_start pB_end i pB.
Proof.
  intros. now apply GB_slice_vector_fuel_partitions.
Qed.

(** The two 5-entry vectors of a 10-row matrix and a mask on rows
    1, 2, 3. *)
Lemma GB_slice_vector_partitions_witness :
  exists i pM pA pB,
    Slice.GB_slice_vector 0 3 (Slice.ramp 3 1 1) 0 5 (Slice.ramp 5 2 1)
      0 5 (Slice.ramp 5 2 0) 10 5%float = Some (i, pM, pA, pB) /\
    Slice.split_point_ok 10 i /\
    Slice.position_of (Slice.ramp 3 1 1) 0 3 i pM /\
    Slice.position_of (Slice.ramp 5 2 1) 0 5 i pA /\
    Slice.position_of (Slice.ramp 5 2 0) 0 5 i pB.
Proof.
  apply GB_slice_vector_partitions.
  - unfold Slice.GxB_INDEX_MAX. lia.
  - apply (legal_ramp 3 1 1 10); unfold Slice.GxB_INDEX_MAX; simpl; lia.
  - apply (legal_ramp 5 2 1 10); unfold Slice.GxB_INDEX_MAX; simpl; lia.
  - apply (legal_ramp 5 2 0 10); unfold Slice.GxB_INDEX_MAX; simpl; lia.
Defined.

(** X7.  On every legal input the outer loop of GB_slice_vector runs at
    most [n] times when [vlen <= 2^n]: that many iterations give the
    result of the function (the "log(n)" factor of the time stated in
    the header of the file). *)
Theorem GB_slice_vector_iterations :
  forall (pM_start pM_end : Z) (Mi : list Z)
         (pA_start pA_end : Z) (Ai : list Z)
         (pB_start pB_end : Z) (Bi : list Z)
         (vlen : Z) (target_work : float) (n : nat),
    0 <= vlen <= Slice.GxB_INDEX_MAX ->
    Slice.legal_vector Mi pM_start pM_end vlen ->
    Slice.legal_vector Ai pA_start pA_end vlen ->
    Slice.legal_vector Bi pB_start pB_end vlen ->
    vlen <= 2 ^ Z.of_nat n ->
    Slice.GB_slice_vector_fuel pM_start pM_end Mi pA_start pA_end Ai
      pB_start pB_end Bi vlen target_work n
    = Slice.GB_slice_vector pM_start pM_end Mi pA_start pA_end Ai
        pB_start pB_end Bi vlen target_work /\
    Slice.GB_slice_vector pM_start pM_end Mi pA_start pA_end Ai
      pB_start pB_end Bi vlen target_work <> None.
Proof.
  intros pM_start pM_end Mi pA_start pA_end Ai pB_start pB_end Bi
         vlen target_work n Hv LM LA LB Hn.
  split.
  - apply GB_slice_vector_fuel_enough; auto. lia.
  - destruct (GB_slice_vector_fuel_partitions pM_start pM_end Mi
                pA_start pA_end Ai pB_start pB_end Bi vlen target_work
                Hv LM LA LB) as (i & pM & pA & pB & E & _).
    rewrite E. discriminate.
Qed.

(** Vectors of 10 rows: 4 iterations. *)
Lemma GB_slice_vector_iterations_witness :
  Slice.GB_slice_vector_fuel 0 0 [] 0 5 (Slice.ramp 5 2 1)
    0 5 (Slice.ramp 5 2 0) 10 2%float 4
  = Slice.GB_slice_vector 0 0 [] 0 5 (Slice.ramp 5 2 1)
      0 5 (Slice.ramp 5 2 0) 10 2%float.
Proof.
  apply GB_slice_vector_iterations.
  - unfold Slice.GxB_INDEX_MAX. lia.
  - apply legal_no_vector.
  - apply (legal_ramp 5 2 1 10); unfold Slice.GxB_INDEX_MAX; simpl; lia.
  - apply (legal_ramp 5 2 0 10); unfold Slice.GxB_INDEX_MAX; simpl; lia.
  - simpl. lia.
Defined.

(** X8.  GB_slice_vector treats A and B alike: with the two vectors
    exchanged it returns the same row [i] and the same mask position,
    and the two positions exchanged.  This holds for every input. *)
Theorem GB_slice_vector_symmetric :
  forall (pM_start pM_end : Z) (Mi : list Z)
         (pA_start pA_end : Z) (Ai : list Z)
         (pB_start pB_end : Z) (Bi : list Z)
         (vlen : Z) (target_work : float),
    Slice.GB_slice_vector pM_start pM_end Mi pB_start pB_end Bi
      pA_start pA_end Ai vlen target_work
    = option_map SliceMore.swap_AB
        (Slice.GB_slice_vector pM_start pM_end Mi pA_start pA_end Ai
           pB_start pB_end Bi vlen target_work).
Proof.
  intros. unfold Slice.GB_slice_vector, Slice.GB_slice_vector_fuel.
  rewrite slice_loop_swap.
  unfold Slice.a_empty, Slice.b_empty.
  destruct (Slice.slice_loop _ _ _ _ _ _ _ _ _ _ _ _ _ _)
    as [[[i pA] pB]|]; [|reflexivity].
  simpl. destruct (Slice.find_position _ _ _ _ _); reflexivity.
Qed.

(** X9.  When every amount of work up to the total of the two vectors is
    too low for the target ([work < 0.9999 * target_work]), the split is
    at row 0: GB_slice_vector returns [i = 0] and for each vector its
    start, or [-1] if it is empty -- the task is the whole vectors. *)
Theorem GB_slice_vector_too_little_work :
  forall (pM_start pM_end : Z) (Mi : list Z)
         (pA_start pA_end : Z) (Ai : list Z)
         (pB_start pB_end : Z) (Bi : list Z)
         (vlen : Z) (target_work : float),
    0 <= vlen <= Slice.GxB_INDEX_MAX ->
    Slice.legal_vector Mi pM_start pM_end vlen ->
    Slice.legal_vector Ai pA_start pA_end vlen ->
    Slice.legal_vector Bi pB_start pB_end vlen ->
    (forall w, 0 <= w <= (pA_end - pA_start) + (pB_end - pB_start) ->
               Slice.work_too_low target_work w = true) ->
    Slice.GB_slice_vector pM_start pM_end Mi pA_start pA_end Ai
      pB_start pB_end Bi vlen target_work
    = Some (0, SliceMore.start_or_sentinel pM_start pM_end,
            SliceMore.start_or_sentinel pA_start pA_end,
            SliceMore.start_or_sentinel pB_start pB_end).
Proof.
  intros. now apply GB_slice_vector_whole.
Qed.

(** Ten entries in all and the target 100. *)
Lemma GB_slice_vector_too_little_work_witness :
  Slice.GB_slice_vector 0 0 [] 0 5 (Slice.ramp 5 2 1)
    0 5 (Slice.ramp 5 2 0) 10 100%float
  = Some (0, -1, 0, 0).
Proof.
  apply (GB_slice_vector_too_little_work 0 0 [] 0 5 (Slice.ramp 5 2 1)
           0 5 (Slice.ramp 5 2 0) 10 100%float).
  - unfold Slice.GxB_INDEX_MAX. lia.
  - apply legal_no_vector.
  - apply (legal_ramp 5 2 1 10); unfold Slice.GxB_INDEX_MAX; simpl; lia.
  - apply (legal_ramp 5 2 0 10); unfold Slice.GxB_INDEX_MAX; simpl; lia.
  - intros w Hw.
    apply (check_range_ok 4 0 (Slice.work_too_low 100%float));
      [vm_compute; reflexivity|simpl; lia].
Defined.

(** ** The max monoid of the max_rminus_int64 kernel *)

Section Reduce_facts.

Import Int64 max_rminus_int64 Reduce.

Lemma GB_MULTADD_max z x y : GB_MULTADD z x y = Z.max z (GB_MULT x y).
Proof. unfold GB_MULTADD. apply GB_IMAX_max. Qed.

Lemma GB_MULTADD_all_cons z ab l :
  GB_MULTADD_all z (ab :: l)
  = GB_MULTADD_all (GB_MULTADD z (fst ab) (snd ab)) l.
Proof. reflexivity. Qed.

Lemma GB_MULTADD_all_perm l l' :
  Permutation l l' -> forall z, GB_MULTADD_all z l = GB_MULTADD_all z l'.
Proof.
  induction 1 as [|ab l l' _ IH|ab ab' l|l l' l'' _ IH1 _ IH2]; intros z.
  - reflexivity.
  - rewrite !GB_MULTADD_all_cons. apply IH.
  - rewrite !GB_MULTADD_all_cons. f_equal.
    rewrite !GB_MULTADD_max. lia.
  - now rewrite IH1.
Qed.

Lemma GB_MULTADD_all_ge l : forall z, z <= GB_MULTADD_all z l.
Proof.
  induction l as [|ab l IH]; intros z; [unfold GB_MULTADD_all; simpl; lia|].
  rewrite GB_MULTADD_all_cons.
  specialize (IH (GB_MULTADD z (fst ab) (snd ab))).
  rewrite GB_MULTADD_max in *. lia.
Qed.

Lemma GB_MULTADD_all_from_identity l : forall z,
  INT64_MIN <= z ->
  GB_MULTADD_all z l = GB_IMAX z (GB_MULTADD_all GB_IDENTITY l).
Proof.
  unfold GB_IDENTITY.
  induction l as [|ab l IH]; intros z Hz.
  - unfold GB_MULTADD_all. simpl. rewrite GB_IMAX_max. lia.
  - rewrite !GB_MULTADD_all_cons.
    pose proof (GB_MULT_in_range (fst ab) (snd ab)) as [Hp _].
    rewrite (IH (GB_MULTADD z _ _)) by (rewrite GB_MULTADD_max; lia).
    rewrite (IH (GB_MULTADD INT64_MIN _ _)) by (rewrite GB_MULTADD_max; lia).
    rewrite !GB_IMAX_max, !GB_MULTADD_max. lia.
Qed.

Lemma GB_MULTADD_all_in_range l : forall z,
  in_range z -> in_range (GB_MULTADD_all z l).
Proof.
  induction l as [|ab l IH]; intros z Hz; [exact Hz|].
  rewrite GB_MULTADD_all_cons. apply IH.
  pose proof (GB_MULT_in_range (fst ab) (snd ab)).
  rewrite GB_MULTADD_max. unfold in_range in *. lia.
Qed.

End Reduce_facts.

(** X10.  The multiply-adds of the (max, rminus) kernel can be reduced in
    any order and in parts: folding [GB_MULTADD] over a list of pairs
    gives the same accumulator for every permutation of the list, and
    folding over [l1 ++ l2] gives the [GB_IMAX] of the fold over [l1] and
    of a fold over [l2] started from [GB_IDENTITY]; the accumulator stays
    an int64 and never decreases. *)
Theorem GB_MULTADD_reduction :
  forall (z : Z) (l l' l1 l2 : list (Z * Z)),
    Int64.in_range z ->
    (Permutation l l' ->
     Reduce.GB_MULTADD_all z l = Reduce.GB_MULTADD_all z l') /\
    Reduce.GB_MULTADD_all z (l1 ++ l2)
    = max_rminus_int64.GB_IMAX
        (Reduce.GB_MULTADD_all z l1)
        (Reduce.GB_MULTADD_all max_rminus_int64.GB_IDENTITY l2) /\
    Int64.in_range (Reduce.GB_MULTADD_all z l) /\
    z <= Reduce.GB_MULTADD_all z l.
Proof.
  intros z l l' l1 l2 Hz. split; [|split; [|split]].
  - intros P. now apply GB_MULTADD_all_perm.
  - unfold Reduce.GB_MULTADD_all at 1. rewrite fold_left_app.
    apply GB_MULTADD_all_from_identity.
    pose proof (GB_MULTADD_all_ge l1 z). destruct Hz. 
    unfold Reduce.GB_MULTADD_all in *. lia.
  - now apply GB_MULTADD_all_in_range.
  - apply GB_MULTADD_all_ge.
Qed.

(** Three products, [4 - 1], [0 - 7] and [5 - 2], from the accumulator
    0. *)
Lemma GB_MULTADD_reduction_witness :
  Reduce.GB_MULTADD_all 0 [(1, 4); (7, 0); (2, 5)] = 3 /\
  Reduce.GB_MULTADD_all 0 ([(1, 4)] ++ [(7, 0); (2, 5)])
  = max_rminus_int64.GB_IMAX
      (Reduce.GB_MULTADD_all 0 [(1, 4)])
      (Reduce.GB_MULTADD_all max_rminus_int64.GB_IDENTITY [(7, 0); (2, 5)]).
Proof.
  assert (R0 : Int64.in_range 0)
    by (unfold Int64.in_range, Int64.INT64_MIN, Int64.INT64_MAX; lia).
  split; [reflexivity|].
  apply (GB_MULTADD_reduction 0 [] [] [(1, 4)] [(7, 0); (2, 5)] R0).
Defined.

(** ** gbburble: set, then get *)

(** X11.  After [GrB.burble (b)] with a scalar [b], a call without input
    returns the value the set returned and leaves the burble as it is; a
    repeated set changes nothing; the value returned is 0 or 1 and does
    not depend on the burble before the set. *)
Theorem gbburble_set_then_get :
  forall (mxArray : Type) (gb_mxarray_is_scalar : mxArray -> bool)
         (mxGetScalar : mxArray -> float)
         (nargout nargout' : Z) (x : mxArray) (g g0 : gbburble.GB_Global),
    let mex := gbburble.mexFunction mxArray gb_mxarray_is_scalar mxGetScalar in
    nargout <= 1 -> nargout' <= 1 ->
    gb_mxarray_is_scalar x = true ->
    exists (b : bool) (g' : gbburble.GB_Global),
      mex nargout [x] g = gbburble.Done (Double.of_bool b) g' /\
      mex nargout' [] g' = gbburble.Done (Double.of_bool b) g' /\
      mex nargout' [x] g' = gbburble.Done (Double.of_bool b) g' /\
      mex nargout [x] g0 = gbburble.Done (Double.of_bool b) g'.
Proof.
  intros mxArray is_scalar getScalar nargout nargout' x g g0 mex H H' S.
  exists (Double.to_bool (getScalar x)),
         {| gbburble.burble := Double.to_bool (getScalar x) |}.
  unfold mex. rewrite !mex_set, mex_get by assumption. auto.
Qed.

(** Setting the burble to 3, for the MATLAB arrays modelled as lists of
    doubles. *)
Lemma gbburble_set_then_get_witness :
  let is_scalar := fun x : list float => (List.length x =? 1)%nat in
  let get := fun x : list float => hd 0%float x in
  let mex := gbburble.mexFunction (list float) is_scalar get in
  exists b g',
    mex 0 [[3%float]] {| gbburble.burble := false |}
    = gbburble.Done (Double.of_bool b) g' /\
    mex 1 [] g' = gbburble.Done (Double.of_bool b) g' /\
    mex 1 [[3%float]] g' = gbburble.Done (Double.of_bool b) g' /\
    mex 0 [[3%float]] {| gbburble.burble := true |}
    = gbburble.Done (Double.of_bool b) g'.
Proof.
  intros is_scalar get mex.
  apply (gbburble_set_then_get (list float) is_scalar get 0 1 [3%float]);
    [lia|lia|reflexivity].
Defined.

(** ** The ISLE operator over uint8 *)

(** X12.  The operator of the isle_uint8 kernels, [z = (x <= y)], yields
    0 or 1 (a [uint8_t]); it is the indicator of a total preorder that is
    antisymmetric: [x ISLE x] is 1, one of [x ISLE y] and [y ISLE x] is
    1, both are 1 only for [x = y], and [x ISLE y] and [y ISLE z] give
    [x ISLE z]. *)
Theorem GB_BINOP_isle_order :
  forall x y z : Z,
    (isle_uint8.GB_BINOP x y = 0 \/ isle_uint8.GB_BINOP x y = 1) /\
    0 <= isle_uint8.GB_BINOP x y <= isle_uint8.UINT8_MAX /\
    isle_uint8.GB_BINOP x x = 1 /\
    (isle_uint8.GB_BINOP x y = 1 \/ isle_uint8.GB_BINOP y x = 1) /\
    (isle_uint8.GB_BINOP x y = 1 /\ isle_uint8.GB_BINOP y x = 1 <-> x = y) /\
    (isle_uint8.GB_BINOP x y = 1 -> isle_uint8.GB_BINOP y z = 1 ->
     isle_uint8.GB_BINOP x z = 1).
Proof.
  intros x y z. unfold isle_uint8.GB_BINOP, isle_uint8.UINT8_MAX.
  destruct (Z.leb_spec x y), (Z.leb_spec y x), (Z.leb_spec x x),
    (Z.leb_spec y z), (Z.leb_spec x z); repeat split; intros;
    try lia; auto; try discriminate; try (destruct H4; discriminate).
Qed.

(** The values 3, 200 and 7. *)
Lemma GB_BINOP_isle_order_witness :
  isle_uint8.GB_BINOP 3 200 = 1 /\ isle_uint8.GB_BINOP 200 3 = 0 /\
  (isle_uint8.GB_BINOP 3 200 = 1 \/ isle_uint8.GB_BINOP 200 3 = 1).
Proof.
  split; [reflexivity|]. split; [reflexivity|].
  apply (GB_BINOP_isle_order 3 200 7).
Defined.
